(** * my-vault: encrypted persistence and synchronisation

    A shallow embedding of the vault's JavaScript modules
    (crypto.js, storage.js, github.js, app.js and the change-password
    handler of ui.js) together with the browser primitives they call,
    and the properties of the specification proved against it. *)

From Stdlib Require Import ZArith Lia.
From stdpp Require Import gmap strings list fin_maps pretty.

Local Open Scope Z_scope.

(** ** JavaScript strings and byte buffers

    A JavaScript string is a sequence of UTF-16 code units; a
    [Uint8Array] is a sequence of octets.  Both are lists of integers,
    the range being a side condition ([is_code_unit], [is_byte]). *)

Abbreviation jsstring := (list Z) (only parsing).
Abbreviation bytes := (list Z) (only parsing).

Definition is_code_unit (u : Z) : Prop := 0 <= u < 0x10000.
Definition is_byte (b : Z) : Prop := 0 <= b < 0x100.

#[global] Instance is_code_unit_dec u : Decision (is_code_unit u).
Proof. unfold is_code_unit. apply _. Defined.

#[global] Instance is_byte_dec b : Decision (is_byte b).
Proof. unfold is_byte. apply _. Defined.

(** The code units of an ASCII literal. *)
Fixpoint js (s : string) : jsstring :=
  match s with
  | EmptyString => []
  | String a s' => Z.of_N (Ascii.N_of_ascii a) :: js s'
  end.

(** ** Exceptions

    A call either returns a value or throws; [await] on a rejected
    promise throws the rejection reason. *)

Inductive exn :=
| InvalidCharacterError   (* btoa, atob *)
| OperationError          (* crypto.subtle.decrypt *)
| SyntaxError             (* JSON.parse *)
| TypeError               (* property access on undefined, failed fetch *)
| NotConfigured           (* new Error('GitHub not configured') *)
| HttpError (status : Z). (* new Error(`GitHub ... failed: ${res.status}`) *)

Inductive result (A : Type) :=
| Ok (a : A)
| Throw (e : exn).
Arguments Ok {A} a.
Arguments Throw {A} e.

Definition result_bind {A B} (r : result A) (k : A -> result B) : result B :=
  match r with
  | Ok a => k a
  | Throw e => Throw e
  end.

Declare Scope result_scope.
Delimit Scope result_scope with result.
Notation "x <- r ;; k" := (result_bind r (fun x => k))
  (at level 100, r at next level, right associativity) : result_scope.

Module Text.

(** *** TextEncoder.encode

    The argument is converted to a scalar value string (a lone
    surrogate becomes U+FFFD), then UTF-8 encoded. *)

Definition is_lead (u : Z) : bool := (0xD800 <=? u) && (u <=? 0xDBFF).
Definition is_trail (u : Z) : bool := (0xDC00 <=? u) && (u <=? 0xDFFF).

Fixpoint to_scalar_values (s : jsstring) : list Z :=
  match s with
  | [] => []
  | u :: rest =>
    if is_lead u then
      match rest with
      | v :: rest' =>
        if is_trail v
        then (0x10000 + Z.shiftl (u - 0xD800) 10 + (v - 0xDC00)) :: to_scalar_values rest'
        else 0xFFFD :: to_scalar_values rest
      | [] => [0xFFFD]
      end
    else if is_trail u then 0xFFFD :: to_scalar_values rest
    else u :: to_scalar_values rest
  end.

Definition utf8_encode_cp (cp : Z) : bytes :=
  if cp <=? 0x7F then [cp]
  else if cp <=? 0x7FF then
    [Z.shiftr cp 6 + 0xC0;
     Z.lor 0x80 (Z.land cp 0x3F)]
  else if cp <=? 0xFFFF then
    [Z.shiftr cp 12 + 0xE0;
     Z.lor 0x80 (Z.land (Z.shiftr cp 6) 0x3F);
     Z.lor 0x80 (Z.land cp 0x3F)]
  else
    [Z.shiftr cp 18 + 0xF0;
     Z.lor 0x80 (Z.land (Z.shiftr cp 12) 0x3F);
     Z.lor 0x80 (Z.land (Z.shiftr cp 6) 0x3F);
     Z.lor 0x80 (Z.land cp 0x3F)].

Definition encode (s : jsstring) : bytes :=
  concat (map utf8_encode_cp (to_scalar_values s)).

(** *** TextDecoder.decode

    [new TextDecoder()]: UTF-8, replacement error mode, a byte order
    mark at the start of the output is dropped. *)

Record utf8_state := Utf8State {
  code_point : Z;
  bytes_seen : Z;
  bytes_needed : Z;
  lower : Z;
  upper : Z
}.

Definition utf8_init : utf8_state := Utf8State 0 0 0 0x80 0xBF.

Inductive handler_result :=
| Continue
| Emit (cp : Z)
| Error
| ErrorRestore.

Definition in_range (lo hi b : Z) : bool := (lo <=? b) && (b <=? hi).

Definition utf8_handler (st : utf8_state) (b : Z) : utf8_state * handler_result :=
  if bytes_needed st =? 0 then
    if in_range 0x00 0x7F b then (st, Emit b)
    else if in_range 0xC2 0xDF b then
      (Utf8State (Z.land b 0x1F) (bytes_seen st) 1 (lower st) (upper st), Continue)
    else if in_range 0xE0 0xEF b then
      (Utf8State (Z.land b 0xF) (bytes_seen st) 2
         (if b =? 0xE0 then 0xA0 else lower st)
         (if b =? 0xED then 0x9F else upper st), Continue)
    else if in_range 0xF0 0xF4 b then
      (Utf8State (Z.land b 0x7) (bytes_seen st) 3
         (if b =? 0xF0 then 0x90 else lower st)
         (if b =? 0xF4 then 0x8F else upper st), Continue)
    else (st, Error)
  else if negb (in_range (lower st) (upper st) b) then (utf8_init, ErrorRestore)
  else
    let cp := Z.lor (Z.shiftl (code_point st) 6) (Z.land b 0x3F) in
    let seen := bytes_seen st + 1 in
    if seen =? bytes_needed st then (utf8_init, Emit cp)
    else (Utf8State cp seen (bytes_needed st) 0x80 0xBF, Continue).

Definition emitted (r : handler_result) : list Z :=
  match r with
  | Continue => []
  | Emit cp => [cp]
  | Error | ErrorRestore => [0xFFFD]
  end.

(** The decoder loop.  A restored byte is handled once more, in the
    initial state, where no handler branch restores it again. *)
Fixpoint utf8_decode_from (st : utf8_state) (bs : bytes) : list Z :=
  match bs with
  | [] => if bytes_needed st =? 0 then [] else [0xFFFD]
  | b :: rest =>
    match utf8_handler st b with
    | (st', ErrorRestore) =>
      let '(st'', r) := utf8_handler st' b in
      0xFFFD :: emitted r ++ utf8_decode_from st'' rest
    | (st', r) => emitted r ++ utf8_decode_from st' rest
    end
  end.

Definition strip_bom (cps : list Z) : list Z :=
  match cps with
  | cp :: rest => if cp =? 0xFEFF then rest else cps
  | [] => []
  end.

Definition utf16_units (cp : Z) : jsstring :=
  if cp <? 0x10000 then [cp]
  else [0xD800 + Z.shiftr (cp - 0x10000) 10;
        0xDC00 + Z.land (cp - 0x10000) 0x3FF].

Definition decode (bs : bytes) : jsstring :=
  concat (map utf16_units (strip_bom (utf8_decode_from utf8_init bs))).


(** String.prototype.toWellFormed *)
Fixpoint toWellFormed (s : list Z) : list Z :=
  match s with
  | [] => []
  | u :: rest =>
    if is_lead u then
      match rest with
      | v :: rest' =>
        if is_trail v then u :: v :: toWellFormed rest' else 0xFFFD :: toWellFormed rest
      | [] => [0xFFFD]
      end
    else if is_trail u then 0xFFFD :: toWellFormed rest
    else u :: toWellFormed rest
  end.


(** Unicode scalar values: code points outside the surrogate range. *)
Definition is_scalar (cp : Z) : Prop := 0 <= cp <= 0x10FFFF /\ ~ (0xD800 <= cp <= 0xDFFF).

(** The decoder's partial code point stays small: a lead byte leaves at
    most five bits, each continuation byte adds six. *)
Definition decoding (st : utf8_state) : Prop :=
  (bytes_needed st = 0 /\ bytes_seen st = 0) \/
  (1 <= bytes_needed st <= 3 /\ 0 <= bytes_seen st < bytes_needed st /\
   0 <= code_point st < 32 * 64 ^ bytes_seen st).

Definition is_code_point (cp : Z) : Prop := 0 <= cp < 0x800000.

End Text.

Module Base64.

(** *** btoa and atob

    [btoa] is the base64 encoding of RFC 4648 with padding, applied to
    a binary string; [atob] is the forgiving-base64 decoder: ASCII
    whitespace is removed, then one or two trailing [=] (code 61) when
    the length is a multiple of four; a length of 1 modulo 4 or a
    character outside the alphabet is a failure. *)

Definition b64char (i : Z) : Z :=
  if i <? 26 then 65 + i             (* A-Z *)
  else if i <? 52 then 97 + (i - 26) (* a-z *)
  else if i <? 62 then 48 + (i - 52) (* 0-9 *)
  else if i =? 62 then 43            (* + *)
  else 47.                           (* / *)

Definition b64index (c : Z) : option Z :=
  if (65 <=? c) && (c <=? 90) then Some (c - 65)
  else if (97 <=? c) && (c <=? 122) then Some (c - 97 + 26)
  else if (48 <=? c) && (c <=? 57) then Some (c - 48 + 52)
  else if c =? 43 then Some 62
  else if c =? 47 then Some 63
  else None.

Fixpoint base64_encode (bs : bytes) : jsstring :=
  match bs with
  | [] => []
  | [a] =>
    [b64char (Z.shiftr a 2);
     b64char (Z.shiftl (Z.land a 3) 4);
     61; 61]
  | [a; b] =>
    [b64char (Z.shiftr a 2);
     b64char (Z.lor (Z.shiftl (Z.land a 3) 4) (Z.shiftr b 4));
     b64char (Z.shiftl (Z.land b 15) 2);
     61]
  | a :: b :: c :: rest =>
    b64char (Z.shiftr a 2) ::
    b64char (Z.lor (Z.shiftl (Z.land a 3) 4) (Z.shiftr b 4)) ::
    b64char (Z.lor (Z.shiftl (Z.land b 15) 2) (Z.shiftr c 6)) ::
    b64char (Z.land c 63) ::
    base64_encode rest
  end.

Definition btoa (data : jsstring) : result jsstring :=
  if forallb (fun c => c <=? 0xFF) data then Ok (base64_encode data)
  else Throw InvalidCharacterError.

Definition is_ascii_whitespace (c : Z) : bool :=
  (c =? 0x09) || (c =? 0x0A) || (c =? 0x0C) || (c =? 0x0D) || (c =? 0x20).

Definition strip_padding (data : jsstring) : jsstring :=
  if Z.of_nat (length data) mod 4 =? 0 then
    match reverse data with
    | c1 :: r1 =>
      if c1 =? 61 then
        match r1 with
        | c2 :: r2 => if c2 =? 61 then reverse r2 else reverse r1
        | [] => reverse r1
        end
      else data
    | [] => data
    end
  else data.

(** The bit buffer of the decoder: [buf] holds [nbits] bits. *)
Fixpoint atob_loop (buf nbits : Z) (sextets : list Z) : bytes :=
  match sextets with
  | [] =>
    if nbits =? 12 then [Z.land (Z.shiftr buf 4) 0xFF]
    else if nbits =? 18 then
      [Z.land (Z.shiftr buf 10) 0xFF; Z.land (Z.shiftr buf 2) 0xFF]
    else []
  | s :: rest =>
    let buf' := Z.lor (Z.shiftl buf 6) s in
    if nbits + 6 =? 24 then
      Z.land (Z.shiftr buf' 16) 0xFF ::
      Z.land (Z.shiftr buf' 8) 0xFF ::
      Z.land buf' 0xFF ::
      atob_loop 0 0 rest
    else atob_loop buf' (nbits + 6) rest
  end.

Definition forgiving_base64_decode (data : jsstring) : option bytes :=
  let data := filter (fun c => is_ascii_whitespace c = false) data in
  let data := strip_padding data in
  if Z.of_nat (length data) mod 4 =? 1 then None
  else sextets ← mapM b64index data; Some (atob_loop 0 0 sextets).

Definition atob (data : jsstring) : result jsstring :=
  match forgiving_base64_decode data with
  | Some bs => Ok bs
  | None => Throw InvalidCharacterError
  end.

(** [String.fromCharCode(...codes)]: each argument is taken modulo 2^16. *)
Definition String_fromCharCode (codes : list Z) : jsstring :=
  map (fun c => c mod 0x10000) codes.

(** [Uint8Array.from(str, c => c.charCodeAt(0))]: each element is
    stored modulo 2^8. *)
Definition Uint8Array_from_charCodes (str : jsstring) : bytes :=
  map (fun c => c mod 0x100) str.

(** The six-bit groups of a byte sequence and the padding that
    follows them: [base64_encode bs] is the groups written in the
    alphabet, then the padding. *)
Fixpoint sextets (bs : bytes) : list Z :=
  match bs with
  | [] => []
  | [a] => [Z.shiftr a 2; Z.shiftl (Z.land a 3) 4]
  | [a; b] =>
    [Z.shiftr a 2;
     Z.lor (Z.shiftl (Z.land a 3) 4) (Z.shiftr b 4);
     Z.shiftl (Z.land b 15) 2]
  | a :: b :: c :: rest =>
    Z.shiftr a 2 ::
    Z.lor (Z.shiftl (Z.land a 3) 4) (Z.shiftr b 4) ::
    Z.lor (Z.shiftl (Z.land b 15) 2) (Z.shiftr c 6) ::
    Z.land c 63 :: sextets rest
  end.

Fixpoint padding (bs : bytes) : jsstring :=
  match bs with
  | [] => []
  | [a] => [61; 61]
  | [a; b] => [61]
  | a :: b :: c :: rest => padding rest
  end.

Definition is_sextet (s : Z) : Prop := 0 <= s < 64.

(** Neither whitespace nor padding. *)
Definition plain (c : Z) : Prop := is_ascii_whitespace c = false /\ (c =? 61) = false.

End Base64.

(** ** The platform: Web Crypto and the random source *)

(** [crypto.subtle] as the code uses it: PBKDF2 key derivation and
    AES-GCM.  The algorithms themselves are the browser's; what is
    assumed of them is that AES-GCM takes bytes to bytes and that
    decryption under the same key and iv returns the plaintext. *)
Class SubtleCrypto := {
  CryptoKey : Type;
  (* importKey('raw', password, 'PBKDF2') then
     deriveKey({PBKDF2, salt, iterations, hash: 'SHA-256'}, _, {AES-GCM, length}) *)
  PBKDF2_SHA256 : forall (password salt : bytes) (iterations length : Z), CryptoKey;
  AES_GCM_encrypt : forall (key : CryptoKey) (iv plaintext : bytes), bytes;
  AES_GCM_decrypt : forall (key : CryptoKey) (iv ciphertext : bytes), option bytes;
  AES_GCM_encrypt_bytes : forall key iv m,
    Forall is_byte m ->
    Forall is_byte (AES_GCM_encrypt key iv m);
  AES_GCM_decrypt_bytes : forall key iv c m,
    Forall is_byte c ->
    AES_GCM_decrypt key iv c = Some m ->
    Forall is_byte m;
  AES_GCM_decrypt_encrypt : forall key iv m,
    Forall is_byte m ->
    AES_GCM_decrypt key iv (AES_GCM_encrypt key iv m) = Some m
}.


(** The random source: an infinite sequence, consumed from the front. *)
Definition Rng := nat -> Z.

(** [crypto.getRandomValues(new Uint8Array(n))] *)
Definition getRandomValues (n : nat) (g : Rng) : bytes * Rng :=
  (map (fun i => g i mod 0x100) (seq 0 n), fun i => g (n + i)%nat).

Module Crypto.
Import Base64.

(** *** crypto.js *)

Definition PBKDF2_ITERATIONS : Z := 600000.
Definition SALT_BYTES : nat := 16.
Definition IV_BYTES : nat := 12.
Definition KEY_BITS : Z := 256.

(** The payload [{salt, iv, ciphertext}]. *)
Record Envelope := mkEnvelope {
  salt : jsstring;
  iv : jsstring;
  ciphertext : jsstring
}.

(** [new Uint8Array(buf)] is a view of the same bytes. *)
Definition b64encode (buf : bytes) : result jsstring :=
  btoa (String_fromCharCode buf).

Definition b64decode (str : jsstring) : result bytes :=
  (s <- atob str ;; Ok (Uint8Array_from_charCodes s))%result.

Section WithSubtleCrypto.
Context {SC : SubtleCrypto}.

Definition deriveKey (password : jsstring) (salt : bytes) : CryptoKey :=
  let keyMaterial := Text.encode password in
  PBKDF2_SHA256 keyMaterial salt PBKDF2_ITERATIONS KEY_BITS.

Definition encrypt (plaintext password : jsstring) (g : Rng) : result Envelope * Rng :=
  let '(salt, g) := getRandomValues SALT_BYTES g in
  let '(iv, g) := getRandomValues IV_BYTES g in
  let key := deriveKey password salt in
  let ciphertext := AES_GCM_encrypt key iv (Text.encode plaintext) in
  ((s <- b64encode salt ;;
    i <- b64encode iv ;;
    c <- b64encode ciphertext ;;
    Ok (mkEnvelope s i c))%result, g).

Definition decrypt (payload : Envelope) (password : jsstring) : result jsstring :=
  (salt <- b64decode (salt payload) ;;
   iv <- b64decode (iv payload) ;;
   ciphertext <- b64decode (ciphertext payload) ;;
   let key := deriveKey password salt in
   match AES_GCM_decrypt key iv ciphertext with
   | Some plainBuf => Ok (Text.decode plainBuf)
   | None => Throw OperationError
   end)%result.

(** Returns true if decryption succeeds. *)
Definition verify (payload : Envelope) (password : jsstring) : bool :=
  match decrypt payload password with
  | Ok _ => true
  | Throw _ => false
  end.

End WithSubtleCrypto.

End Crypto.

(** ** The vault and the session state (app.js, lines 6-13) *)

(** An array element: a string, or an empty slot of a sparse array. *)
Inductive cell :=
| Str (s : jsstring)
| Hole.

Record Table := mkTable {
  columns : list jsstring;
  rows : list (list cell)
}.

(** What a property of [vault.tables] can hold: a table; [undefined]
    (left by renaming a name that has no table); or another truthy
    object (a function or prototype object), none of which has
    [columns] or [rows]. *)
Inductive slot :=
| STable (t : Table)
| SUndefined
| SObject.

Record Vault := mkVault {
  version : Z;
  tables : gmap (list Z) slot
}.

Record AppState := mkState {
  locked : bool;
  password : option jsstring;     (* null, or the password *)
  vault : option Vault;           (* null, or the vault *)
  activeTable : option jsstring;
  searchQuery : jsstring;
  pendingSync : bool
}.

(** The result object of [unlock]: [{ok}] or [{ok, firstRun}]. *)
Record UnlockResult := mkUnlockResult {
  ok : bool;
  firstRun : option bool
}.

(** ** The world: localStorage, the remote repository, the network *)

(** The file [vault.enc] of the configured repository, with the blob
    identifier the contents API reports for it. *)
Record RemoteFile := mkRemoteFile {
  content : jsstring;
  sha : positive
}.

(** The fate of one [fetch]: the request reaches the server and is
    served; the network is down and [fetch] rejects; or the server
    refuses with the given status (401, 403, 500, ...). *)
Inductive net_behaviour :=
| Deliver
| Unreachable
| Refuse (status : Z).

Record World := mkWorld {
  localStorage : gmap string (list Z);
  remote : option RemoteFile;
  network : list net_behaviour;   (* fates of the fetches to come *)
  fetches : nat;                  (* fetches made so far *)
  rng : Rng;
  state : AppState;               (* App's [state] *)
  lockTimer : bool                (* is the auto-lock timeout pending *)
}.

Definition set_localStorage (f : gmap string (list Z) -> gmap string (list Z)) (w : World) : World :=
  mkWorld (f (localStorage w)) (remote w) (network w) (fetches w) (rng w) (state w) (lockTimer w).

Definition set_state (f : AppState -> AppState) (w : World) : World :=
  mkWorld (localStorage w) (remote w) (network w) (fetches w) (rng w) (f (state w)) (lockTimer w).

Definition set_lockTimer (b : bool) (w : World) : World :=
  mkWorld (localStorage w) (remote w) (network w) (fetches w) (rng w) (state w) b.

Definition set_rng (g : Rng) (w : World) : World :=
  mkWorld (localStorage w) (remote w) (network w) (fetches w) g (state w) (lockTimer w).

(** *** Computations: state passing with exceptions *)

Definition M (A : Type) : Type := World -> result A * World.

Definition ret {A} (a : A) : M A := fun w => (Ok a, w).

Definition throw {A} (e : exn) : M A := fun w => (Throw e, w).

Definition bind {A B} (m : M A) (k : A -> M B) : M B :=
  fun w =>
    match m w with
    | (Ok a, w') => k a w'
    | (Throw e, w') => (Throw e, w')
    end.

(** [try { m } catch { handler }] *)
Definition try_catch {A} (m : M A) (handler : M A) : M A :=
  fun w =>
    match m w with
    | (Ok a, w') => (Ok a, w')
    | (Throw _, w') => handler w'
    end.

Definition lift {A} (r : result A) : M A := fun w => (r, w).

Definition gets {A} (f : World -> A) : M A := fun w => (Ok (f w), w).

Definition modify (f : World -> World) : M unit := fun w => (Ok tt, f w).

Declare Scope M_scope.
Delimit Scope M_scope with M.
Notation "x <- m ;; k" := (bind m (fun x => k))
  (at level 100, m at next level, right associativity) : M_scope.
Notation "m ;; k" := (bind m (fun _ => k))
  (at level 100, right associativity) : M_scope.

(** [m] leaves the component [f] of the world as it was. *)
Definition preserves {X A} (f : World -> X) (m : M A) : Prop :=
  forall w, f (snd (m w)) = f w.

(** *** localStorage *)

Definition getItem (key : string) : M (option jsstring) :=
  gets (fun w => localStorage w !! key).

Definition setItem (key : string) (value : jsstring) : M unit :=
  modify (set_localStorage <[key := value]>).

Definition removeItem (key : string) : M unit :=
  modify (set_localStorage (delete key)).

(** Truthiness of a string or null: null and the empty string are falsy. *)
Definition truthy (s : option jsstring) : bool :=
  match s with
  | Some (_ :: _) => true
  | _ => false
  end.

(** Truthiness of a string. *)
Definition nonempty (s : jsstring) : bool :=
  match s with
  | [] => false
  | _ :: _ => true
  end.

(** *** fetch against the contents API *)

Inductive request :=
| GET
| PUT (content : jsstring) (sha : option positive).

Record Response := mkResponse {
  status : Z;
  body : option RemoteFile   (* what [res.json()] parses to, if anything *)
}.

Definition res_ok (res : Response) : bool :=
  (200 <=? status res) && (status res <=? 299).

(** The server, after the contract of the remote store: a GET answers
    404 when there is no file; a PUT creates the file, or updates it
    when the supplied [sha] is the current one.  Credentials are not
    modelled: a refusal is a fate of the fetch. *)
Definition serve (req : request) (file : option RemoteFile) : Response * option RemoteFile :=
  match req with
  | GET =>
    match file with
    | Some f => (mkResponse 200 (Some f), file)
    | None => (mkResponse 404 None, file)
    end
  | PUT c s =>
    match file, s with
    | None, _ =>
      let f := mkRemoteFile c 1 in (mkResponse 201 (Some f), Some f)
    | Some f, Some s =>
      if decide (s = sha f)
      then let f' := mkRemoteFile c (Pos.succ (sha f)) in (mkResponse 200 (Some f'), Some f')
      else (mkResponse 409 None, file)
    | Some f, None => (mkResponse 422 None, file)
    end
  end.

Definition fetch (req : request) : M Response :=
  fun w =>
    let w' := mkWorld (localStorage w) (remote w) (tail (network w)) (S (fetches w))
                (rng w) (state w) (lockTimer w) in
    match head (network w) with
    | Some Unreachable => (Throw TypeError, w')
    | Some (Refuse s) => (Ok (mkResponse s None), w')
    | Some Deliver | None =>
      let '(res, file) := serve req (remote w) in
      (Ok res, mkWorld (localStorage w') file (network w') (fetches w')
                 (rng w') (state w') (lockTimer w'))
    end.

(** [await res.json()] *)
Definition res_json (res : Response) : M RemoteFile :=
  match body res with
  | Some data => ret data
  | None => throw SyntaxError
  end.

(** ** The platform: JSON

    [JSON.stringify] and [JSON.parse] at the types the code uses them.
    A parsed payload or configuration is seen through the uses the code
    makes of it: a falsy value is [None]; of a truthy value only the
    fields read, as strings (a missing or falsy field reads as the
    empty string in [Config]). *)

Record Config := mkConfig {
  owner : jsstring;
  repo : jsstring;
  token : jsstring
}.

Class JSON := {
  JSON_stringify_envelope : Crypto.Envelope -> jsstring;
  JSON_parse_envelope : jsstring -> result (option Crypto.Envelope);
  JSON_parse_config : jsstring -> result (option Config);
  JSON_stringify_vault : Vault -> jsstring;
  JSON_parse_vault : jsstring -> result (option Vault);
  JSON_parse_stringify_envelope : forall e,
    JSON_parse_envelope (JSON_stringify_envelope e) = Ok (Some e);
  JSON_stringify_envelope_truthy : forall e,
    truthy (Some (JSON_stringify_envelope e)) = true;
  JSON_stringify_vault_string : forall v,
    Forall is_code_unit (JSON_stringify_vault v)
}.

(** [JSON.stringify({owner, repo, token})] of three strings, and the
    configuration [JSON.parse] reads back from it. *)
Class JSONConfig (J : JSON) := {
  JSON_stringify_config : Config -> jsstring;
  JSON_parse_stringify_config : forall c,
    JSON_parse_config (JSON_stringify_config c) = Ok (Some c);
  JSON_stringify_config_truthy : forall c,
    truthy (Some (JSON_stringify_config c)) = true
}.
Section WithPlatform.
Context {SC : SubtleCrypto} {J : JSON}.
Local Open Scope M_scope.

(** [await Crypto.encrypt(...)], drawing on the world's random source. *)
Definition Crypto_encrypt (plaintext password : jsstring) : M Crypto.Envelope :=
  fun w =>
    let '(r, g) := Crypto.encrypt plaintext password (rng w) in
    (r, set_rng g w).

End WithPlatform.

Module GitHub.
Section WithPlatform.
Context {J : JSON}.
Local Open Scope M_scope.

(** *** github.js *)

Definition CFG_KEY : string := "mv_gh_cfg".

Definition getConfig : M (option Config) :=
  raw <- getItem CFG_KEY ;;
  match raw with
  | Some (c :: r) => lift (JSON_parse_config (c :: r))
  | _ => ret None
  end.

Definition isConfigured : M bool :=
  cfg <- getConfig ;;
  ret match cfg with
      | Some cfg => nonempty (owner cfg) && nonempty (repo cfg) && nonempty (token cfg)
      | None => false
      end.

(** Fetch current file SHA (needed for updating an existing file) *)
Definition getFileSha (cfg : Config) : M (option positive) :=
  res <- fetch GET ;;
  if status res =? 404 then ret None
  else if negb (res_ok res) then throw (HttpError (status res))
  else
    data <- res_json res ;;
    ret (Some (sha data)).

(** Push encrypted payload to GitHub *)
Definition push (encryptedPayload : Crypto.Envelope) : M unit :=
  cfg <- getConfig ;;
  match cfg with
  | None => throw NotConfigured
  | Some cfg =>
    content <- lift (Base64.btoa (JSON_stringify_envelope encryptedPayload)) ;;
    sha <- getFileSha cfg ;;
    res <- fetch (PUT content sha) ;;
    if negb (res_ok res) then throw (HttpError (status res))
    else ret tt
  end.

(** Pull encrypted payload from GitHub *)
Definition pull : M (option Crypto.Envelope) :=
  cfg <- getConfig ;;
  match cfg with
  | None => ret None
  | Some cfg =>
    res <- fetch GET ;;
    if status res =? 404 then ret None
    else if negb (res_ok res) then throw (HttpError (status res))
    else
      data <- res_json res ;;
      (* data.content.replace(/\n/g, '') *)
      let stripped := filter (fun c => c <> 0x0A) (content data) in
      decoded <- lift (Base64.atob stripped) ;;
      lift (JSON_parse_envelope decoded)
  end.

End WithPlatform.

Section Settings.
Context {J : JSON} {JC : JSONConfig J}.

Definition setConfig (owner repo token : jsstring) : M unit :=
  setItem CFG_KEY (JSON_stringify_config (mkConfig owner repo token)).

End Settings.

Definition clearConfig : M unit := removeItem CFG_KEY.

End GitHub.

Module Storage.
Section WithPlatform.
Context {J : JSON}.
Local Open Scope M_scope.

(** *** storage.js *)

Definition VAULT_KEY : string := "mv_vault".
Definition PENDING_KEY : string := "mv_pending".

Definition saveLocal (encryptedPayload : Crypto.Envelope) : M unit :=
  setItem VAULT_KEY (JSON_stringify_envelope encryptedPayload).

Definition loadLocal : M (option Crypto.Envelope) :=
  raw <- getItem VAULT_KEY ;;
  match raw with
  | Some (c :: r) => lift (JSON_parse_envelope (c :: r))
  | _ => ret None
  end.

Definition hasLocal : M bool :=
  raw <- getItem VAULT_KEY ;; ret (truthy raw).

Definition clearLocal : M unit :=
  removeItem VAULT_KEY ;;
  removeItem PENDING_KEY.

Definition markPending : M unit := setItem PENDING_KEY (js "1").

Definition clearPending : M unit := removeItem PENDING_KEY.

Definition hasPending : M bool :=
  raw <- getItem PENDING_KEY ;; ret (truthy raw).

(** [typeof GitHub !== 'undefined'] holds once github.js is loaded. *)
Definition syncToGitHub (encryptedPayload : Crypto.Envelope) : M unit :=
  configured <- GitHub.isConfigured ;;
  if configured then GitHub.push encryptedPayload
  else ret tt.

Definition syncFromGitHub : M (option Crypto.Envelope) :=
  configured <- GitHub.isConfigured ;;
  if configured then GitHub.pull
  else ret None.

Definition save (encryptedPayload : Crypto.Envelope) : M unit :=
  saveLocal encryptedPayload ;;
  try_catch
    (syncToGitHub encryptedPayload ;;
     clearPending)
    markPending.

Definition load : M (option Crypto.Envelope) :=
  r <- try_catch
         (remote <- syncFromGitHub ;;
          match remote with
          | Some remote => saveLocal remote ;; ret (Some (Some remote))
          | None => ret None
          end)
         (ret None) ;;
  match r with
  | Some returned => ret returned
  | None => loadLocal
  end.

End WithPlatform.
End Storage.

(** ** String and array methods the controller uses *)

(** White space and line terminators, as [String.prototype.trim] strips them. *)
Definition is_js_whitespace (c : Z) : bool :=
  (c =? 0x09) || (c =? 0x0A) || (c =? 0x0B) || (c =? 0x0C) || (c =? 0x0D) ||
  (c =? 0x20) || (c =? 0xA0) || (c =? 0x1680) ||
  ((0x2000 <=? c) && (c <=? 0x200A)) ||
  (c =? 0x2028) || (c =? 0x2029) || (c =? 0x202F) || (c =? 0x205F) ||
  (c =? 0x3000) || (c =? 0xFEFF).

Fixpoint trimStart (s : jsstring) : jsstring :=
  match s with
  | c :: rest => if is_js_whitespace c then trimStart rest else s
  | [] => []
  end.

Definition trim (s : jsstring) : jsstring :=
  reverse (trimStart (reverse (trimStart s))).

(** [s.split('\n')] *)
Fixpoint split_lines (s : jsstring) : list jsstring :=
  match s with
  | [] => [[]]
  | c :: rest =>
    if c =? 0x0A then [] :: split_lines rest
    else
      match split_lines rest with
      | l :: ls => (c :: l) :: ls
      | [] => [[c]]
      end
  end.

(** An array index is an integer from 0 to 2^32 - 2. *)
Definition is_array_index (i : Z) : bool := (0 <=? i) && (i <? 2 ^ 32 - 1).

(** [arr[i]] *)
Definition array_get {A} (arr : list A) (i : Z) : option A :=
  if 0 <=? i then arr !! Z.to_nat i else None.

(** [row[i] = value]: inside the array the element is replaced; past
    its end the array grows, the gap left as empty slots; a key that is
    not an array index becomes an ordinary property and the elements
    stay as they are. *)
Definition array_set (row : list cell) (i : Z) (value : cell) : list cell :=
  if is_array_index i then
    if i <? Z.of_nat (length row) then <[Z.to_nat i := value]> row
    else row ++ replicate (Z.to_nat i - length row) Hole ++ [value]
  else row.

(** [arr.splice(start, 1)] *)
Definition splice1 {A} (arr : list A) (start : Z) : list A :=
  let len := Z.of_nat (length arr) in
  let from := if start <? 0 then Z.max (len + start) 0 else Z.min start len in
  delete (Z.to_nat from) arr.

(** Own properties first, then [Object.prototype]. *)
Definition on_Object_prototype (name : jsstring) : bool :=
  bool_decide (name ∈ map js
    ["constructor"; "__proto__"; "hasOwnProperty"; "isPrototypeOf";
     "propertyIsEnumerable"; "toLocaleString"; "toString"; "valueOf";
     "__defineGetter__"; "__defineSetter__"; "__lookupGetter__";
     "__lookupSetter__"]%string).

(** [vault.tables[name]] *)
Definition tables_get (v : Vault) (name : jsstring) : slot :=
  match tables v !! name with
  | Some s => s
  | None => if on_Object_prototype name then SObject else SUndefined
  end.

Definition set_tables (f : gmap (list Z) slot -> gmap (list Z) slot) (v : Vault) : Vault :=
  mkVault (version v) (f (tables v)).

Module App.
Section WithPlatform.
Context {SC : SubtleCrypto} {J : JSON}.
Local Open Scope M_scope.

(** *** app.js *)

Definition initial_state : AppState :=
  mkState true None None None [] false.

Definition emptyVault : Vault := mkVault 1 ∅.

(** [state.vault?.tables[name] ?? null] *)
Definition getTable (name : jsstring) : M (option slot) :=
  st <- gets state ;;
  ret match vault st with
      | Some v =>
        match tables_get v name with
        | SUndefined => None
        | s => Some s
        end
      | None => None
      end.

(** [UI.updateSyncStatus], [UI.showTableList] and [UI.showLogin] only
    repaint the page and are left out. *)
Definition persistVault : M unit :=
  st <- gets state ;;
  match vault st, password st with
  | Some v, Some (c :: pw) =>
    let json := JSON_stringify_vault v in
    encrypted <- Crypto_encrypt json (c :: pw) ;;
    Storage.save encrypted ;;
    pending <- Storage.hasPending ;;
    modify (set_state (fun st =>
      mkState (locked st) (password st) (vault st) (activeTable st) (searchQuery st) pending))
  | _, _ => ret tt
  end.

Definition lock : M unit :=
  modify (set_state (fun st => mkState true None None None [] (pendingSync st))) ;;
  modify (set_lockTimer false).

Definition resetLockTimer : M unit :=
  st <- gets state ;;
  if locked st then ret tt
  else modify (set_lockTimer true).

Definition unlock (password : jsstring) : M UnlockResult :=
  payload <- Storage.load ;;
  match payload with
  | None =>
    (* First run — create new vault *)
    modify (set_state (fun st =>
      mkState false (Some password) (Some emptyVault) (activeTable st) (searchQuery st)
        (pendingSync st))) ;;
    persistVault ;;
    resetLockTimer ;;
    ret (mkUnlockResult true (Some true))
  | Some payload =>
    if negb (Crypto.verify payload password) then ret (mkUnlockResult false None)
    else
      json <- lift (Crypto.decrypt payload password) ;;
      parsed <- lift (JSON_parse_vault json) ;;
      modify (set_state (fun st =>
        mkState false (Some password) parsed (activeTable st) (searchQuery st)
          (pendingSync st))) ;;
      resetLockTimer ;;
      ret (mkUnlockResult true (Some false))
  end.

(** [state.vault.tables]: a TypeError while the vault is null. *)
Definition the_vault : M Vault :=
  st <- gets state ;;
  match vault st with
  | Some v => ret v
  | None => throw TypeError
  end.

Definition set_vault (v : Vault) : M unit :=
  modify (set_state (fun st =>
    mkState (locked st) (password st) (Some v) (activeTable st) (searchQuery st)
      (pendingSync st))).

Definition set_activeTable (a : option jsstring) : M unit :=
  modify (set_state (fun st =>
    mkState (locked st) (password st) (vault st) a (searchQuery st) (pendingSync st))).

(** Table CRUD *)

Definition createTable (name : jsstring) : M bool :=
  let name := trim name in
  if negb (nonempty name) then ret false
  else
    v <- the_vault ;;
    match tables_get v name with
    | STable _ | SObject => ret false
    | SUndefined =>
      set_vault (set_tables <[name := STable (mkTable [js "Column 1"] [])]> v) ;;
      persistVault ;;
      ret true
    end.

Definition renameTable (oldName newName : jsstring) : M bool :=
  let newName := trim newName in
  if negb (nonempty newName) then ret false
  else if bool_decide (newName = oldName) then ret false
  else
    v <- the_vault ;;
    match tables_get v newName with
    | STable _ | SObject => ret false
    | SUndefined =>
      set_vault (set_tables (fun t => delete oldName (<[newName := tables_get v oldName]> t)) v) ;;
      st <- gets state ;;
      (if bool_decide (activeTable st = Some oldName)
       then set_activeTable (Some newName) else ret tt) ;;
      persistVault ;;
      ret true
    end.

Definition deleteTable (name : jsstring) : M unit :=
  v <- the_vault ;;
  match tables_get v name with
  | SUndefined => ret tt
  | _ =>
    set_vault (set_tables (delete name) v) ;;
    st <- gets state ;;
    (if bool_decide (activeTable st = Some name)
     then set_activeTable None else ret tt) ;;
    persistVault
  end.

(** [tbl] is the object stored under [tableName]; a change to it is a
    change to that property's value. *)
Definition put_table (v : Vault) (tableName : jsstring) (t : Table) : M unit :=
  set_vault (set_tables <[tableName := STable t]> v).

(** Column CRUD *)

Definition addColumn (tableName colName : jsstring) : M unit :=
  v <- the_vault ;;
  match tables_get v tableName with
  | SUndefined => ret tt
  | SObject => throw TypeError
  | STable tbl =>
    let colName :=
      match trim colName with
      | [] => js ("Column " +:+ pretty (length (columns tbl) + 1)%nat)
      | c :: r => c :: r
      end in
    put_table v tableName
      (mkTable (columns tbl ++ [colName]) (map (fun row => row ++ [Str []]) (rows tbl))) ;;
    persistVault
  end.

Definition renameColumn (tableName : jsstring) (colIndex : Z) (newName : jsstring) : M unit :=
  v <- the_vault ;;
  match tables_get v tableName with
  | SUndefined => ret tt
  | SObject => if colIndex <? 0 then ret tt else throw TypeError
  | STable tbl =>
    if (colIndex <? 0) || (Z.of_nat (length (columns tbl)) <=? colIndex) then ret tt
    else
      let name :=
        match trim newName with
        | [] => default [] (columns tbl !! Z.to_nat colIndex)
        | c :: r => c :: r
        end in
      put_table v tableName (mkTable (<[Z.to_nat colIndex := name]> (columns tbl)) (rows tbl)) ;;
      persistVault
  end.

Definition deleteColumn (tableName : jsstring) (colIndex : Z) : M unit :=
  v <- the_vault ;;
  match tables_get v tableName with
  | SUndefined => ret tt
  | SObject => throw TypeError
  | STable tbl =>
    if (length (columns tbl) <=? 1)%nat then ret tt   (* keep at least 1 column *)
    else
      put_table v tableName
        (mkTable (splice1 (columns tbl) colIndex)
           (map (fun row => splice1 row colIndex) (rows tbl))) ;;
      persistVault
  end.

(** Row CRUD *)

Definition addRow (tableName : jsstring) : M unit :=
  v <- the_vault ;;
  match tables_get v tableName with
  | SUndefined => ret tt
  | SObject => throw TypeError
  | STable tbl =>
    put_table v tableName
      (mkTable (columns tbl) (rows tbl ++ [replicate (length (columns tbl)) (Str [])])) ;;
    persistVault
  end.

Definition updateCell (tableName : jsstring) (rowIndex colIndex : Z) (value : jsstring) : M unit :=
  v <- the_vault ;;
  match tables_get v tableName with
  | SUndefined => ret tt
  | SObject => throw TypeError
  | STable tbl =>
    match array_get (rows tbl) rowIndex with
    | None => throw TypeError
    | Some row =>
      put_table v tableName
        (mkTable (columns tbl)
           (<[Z.to_nat rowIndex := array_set row colIndex (Str value)]> (rows tbl))) ;;
      persistVault
    end
  end.

Definition deleteRow (tableName : jsstring) (rowIndex : Z) : M unit :=
  v <- the_vault ;;
  match tables_get v tableName with
  | SUndefined => ret tt
  | SObject => throw TypeError
  | STable tbl =>
    put_table v tableName (mkTable (columns tbl) (splice1 (rows tbl) rowIndex)) ;;
    persistVault
  end.

(** Import *)

(** The loop of [parseRow]: [result] in reverse, [cur] in reverse. *)
Fixpoint parseRow_loop (line : jsstring) (result : list jsstring) (cur : jsstring)
    (inQ : bool) : list jsstring :=
  match line with
  | [] => reverse (reverse cur :: result)
  | c :: rest =>
    if c =? 0x22 then parseRow_loop rest result cur (negb inQ)
    else if (c =? 0x2C) && negb inQ then parseRow_loop rest (reverse cur :: result) [] inQ
    else parseRow_loop rest result (c :: cur) inQ
  end.

Definition parseRow (line : jsstring) : list jsstring :=
  parseRow_loop line [] [] false.

(** [csvText.trim().split('\n').map(l => l.trim()).filter(Boolean)] *)
Definition csv_lines (csvText : jsstring) : list jsstring :=
  filter (fun l => l <> []) (map trim (split_lines (trim csvText))).

(** [tableName.trim() || 'Imported Table'] *)
Definition import_name (tableName : jsstring) : jsstring :=
  match trim tableName with
  | [] => js "Imported Table"
  | c :: r => c :: r
  end.

Definition importCSV (tableName csvText : jsstring) : M bool :=
  let lines := csv_lines csvText in
  match lines with
  | [] => ret false
  | first :: others =>
    let csv_columns := parseRow first in
    let csv_rows := map (fun l => map Str (parseRow l)) others in
    let tableName := import_name tableName in
    v <- the_vault ;;
    (* If table exists, append rows; otherwise create *)
    match tables_get v tableName with
    | STable tbl => put_table v tableName (mkTable (columns tbl) (rows tbl ++ csv_rows))
    | SObject => throw TypeError
    | SUndefined => put_table v tableName (mkTable csv_columns csv_rows)
    end ;;
    persistVault ;;
    ret true
  end.

(** The vault-mutating operations, as calls. *)
Inductive op :=
| CreateTable (name : jsstring)
| RenameTable (oldName newName : jsstring)
| DeleteTable (name : jsstring)
| AddColumn (tableName colName : jsstring)
| RenameColumn (tableName : jsstring) (colIndex : Z) (newName : jsstring)
| DeleteColumn (tableName : jsstring) (colIndex : Z)
| AddRow (tableName : jsstring)
| UpdateCell (tableName : jsstring) (rowIndex colIndex : Z) (value : jsstring)
| DeleteRow (tableName : jsstring) (rowIndex : Z)
| ImportCSV (tableName csvText : jsstring).

Definition call (o : op) : M unit :=
  match o with
  | CreateTable name => createTable name ;; ret tt
  | RenameTable oldName newName => renameTable oldName newName ;; ret tt
  | DeleteTable name => deleteTable name
  | AddColumn tableName colName => addColumn tableName colName
  | RenameColumn tableName colIndex newName => renameColumn tableName colIndex newName
  | DeleteColumn tableName colIndex => deleteColumn tableName colIndex
  | AddRow tableName => addRow tableName
  | UpdateCell tableName rowIndex colIndex value => updateCell tableName rowIndex colIndex value
  | DeleteRow tableName rowIndex => deleteRow tableName rowIndex
  | ImportCSV tableName csvText => importCSV tableName csvText ;; ret tt
  end.

(** One call after the other; a call that throws does not stop the next. *)
Definition call_all (ops : list op) (w : World) : World :=
  foldl (fun w o => snd (call o w)) w ops.

End WithPlatform.

(** Export *)

(** The [escape] of [exportCSV]: a value that holds a comma or a
    double quote is written between double quotes, each double quote
    in it doubled; any other value as it is. *)
Definition escape (v : jsstring) : jsstring :=
  if bool_decide (0x2C ∈ v) || bool_decide (0x22 ∈ v)
  then [0x22] ++ concat (map (fun c => if c =? 0x22 then [0x22; 0x22] else [c]) v) ++ [0x22]
  else v.

(** [row.map(escape)] skips the empty slots of [row], and [join]
    writes an empty slot as the empty string. *)
Definition escape_cell (c : cell) : jsstring :=
  match c with
  | Str s => escape s
  | Hole => []
  end.

(** [parts.join(sep)] *)
Fixpoint join (sep : jsstring) (parts : list jsstring) : jsstring :=
  match parts with
  | [] => []
  | [p] => p
  | p :: rest => p ++ sep ++ join sep rest
  end.

Definition exportCSV (tableName : jsstring) : M jsstring :=
  (tbl <- getTable tableName ;;
   match tbl with
   | None => ret []
   | Some (STable tbl) =>
     let lines :=
       join [0x2C] (map escape (columns tbl)) ::
       map (fun row => join [0x2C] (map escape_cell row)) (rows tbl) in
     ret (join [0x0A] lines)
   | Some _ => throw TypeError
   end)%M.

(** [hasVault: () => Storage.hasLocal()] *)
Definition hasVault : M bool := Storage.hasLocal.

End App.

(** ** The shape of tables *)

(** Every row has as many cells as the table has columns. *)
Definition table_rectangular (t : Table) : Prop :=
  Forall (fun row => length row = length (columns t)) (rows t).

Definition vault_rectangular (v : Vault) : Prop :=
  forall name t, tables v !! name = Some (STable t) -> table_rectangular t.

Definition vault_of (w : World) : option Vault := vault (state w).

Definition rectangular (w : World) : Prop :=
  match vault (state w) with
  | Some v => vault_rectangular v
  | None => True
  end.

(** The calls that keep tables rectangular whatever their arguments,
    and the condition under which the other two do: an [updateCell]
    stays below the column count, the data rows of a CSV import have as
    many fields as the table they go into has columns (the header's,
    for a new table). *)
Definition keeps_shape (o : App.op) (w : World) : Prop :=
  match o, vault (state w) with
  | App.UpdateCell tableName _ colIndex _, Some v =>
    match tables_get v tableName with
    | STable tbl => colIndex < Z.of_nat (length (columns tbl))
    | _ => True
    end
  | App.ImportCSV tableName csvText, Some v =>
    match App.csv_lines csvText with
    | [] => True
    | first :: others =>
      match tables_get v (App.import_name tableName) with
      | STable tbl =>
        Forall (fun l => length (App.parseRow l) = length (columns tbl)) others
      | SUndefined =>
        Forall (fun l => length (App.parseRow l) = length (App.parseRow first)) others
      | SObject => True
      end
    end
  | _, _ => True
  end.

Section Shape.
Context {SC : SubtleCrypto} {J : JSON}.

Fixpoint all_keep_shape (ops : list App.op) (w : World) : Prop :=
  match ops with
  | [] => True
  | o :: ops => keeps_shape o w /\ all_keep_shape ops (snd (App.call o w))
  end.

End Shape.

Module UI.
Section WithPlatform.
Context {SC : SubtleCrypto} {J : JSON}.
Local Open Scope M_scope.

(** *** ui.js: the click handler of the Change Password button

    The three arguments are the values of the fields [oldPw], [newPw]
    and [newPw2]; the result is the text left in [pwErr], or the
    success toast. *)

Inductive outcome :=
| pwErr (textContent : string)
| toast (msg : string).

Definition pwBtn_onclick (oldPw newPw newPw2 : jsstring) : M outcome :=
  if negb (bool_decide (newPw = newPw2)) then ret (pwErr "New passwords do not match.")
  else if (length newPw <? 8)%nat then ret (pwErr "Password must be at least 8 characters.")
  else
    (* Verify old password by trying to decrypt *)
    payload <- Storage.loadLocal ;;
    match payload with
    | None => ret (pwErr "No vault found.")
    | Some payload =>
      if negb (Crypto.verify payload oldPw) then ret (pwErr "Current password is wrong.")
      else
        (* Re-encrypt with new password *)
        json <- lift (Crypto.decrypt payload oldPw) ;;
        newPayload <- Crypto_encrypt json newPw ;;
        Storage.save newPayload ;;
        App.lock ;;
        ret (toast "Password changed. Please unlock with your new password.")
    end.

End WithPlatform.
End UI.

(** ** Observations the claims are stated with *)

Section Observations.
Context {SC : SubtleCrypto} {J : JSON}.

(** The envelope in the remote file, if it holds one. *)
Definition remote_envelope (w : World) : option Crypto.Envelope :=
  match remote w with
  | Some f =>
    match Base64.atob (filter (fun c => c <> 0x0A) (content f)) with
    | Ok s =>
      match JSON_parse_envelope s with
      | Ok (Some e) => Some e
      | _ => None
      end
    | Throw _ => None
    end
  | None => None
  end.


(** The result of the first-run path of [unlock]. *)
Definition first_run : result UnlockResult := Ok (mkUnlockResult true (Some true)).

(** The state the first-run path installs. *)
Definition first_run_state (pw : jsstring) (st : AppState) : AppState :=
  mkState false (Some pw) (Some App.emptyVault) (activeTable st) (searchQuery st)
    (pendingSync st).

Definition set_pendingSync (pending : bool) (st : AppState) : AppState :=
  mkState (locked st) (password st) (vault st) (activeTable st) (searchQuery st) pending.

(** The session fields [persistVault] leaves alone: all but [pendingSync]. *)
Definition session (w : World) : bool * option (list Z) * option Vault * option (list Z) * list Z :=
  (locked (state w), password (state w), vault (state w), activeTable (state w),
   searchQuery (state w)).

End Observations.

(** ** Models of the platform, and scenarios

    The assumptions on the platform have models one can compute with;
    the scenarios below run the code on them. *)

(** A model of the assumptions, small enough to compute with: the key
    is the parity of the password and salt bytes, a ciphertext is the
    plaintext behind a one-byte tag naming the key. *)
Definition toy_key (password salt : bytes) : bool :=
  Z.odd (foldr Z.add 0 password + foldr Z.add 0 salt).

Definition toy_tag (key : bool) : Z := if key then 1 else 0.

Definition toy_encrypt (key : bool) (iv plaintext : bytes) : bytes :=
  toy_tag key :: plaintext.

Definition toy_decrypt (key : bool) (iv ciphertext : bytes) : option bytes :=
  match ciphertext with
  | t :: m => if t =? toy_tag key then Some m else None
  | [] => None
  end.

Definition toy_rng : Rng := fun i => Z.of_nat i.

Definition toy_crypto : SubtleCrypto.
Proof.
  refine {| CryptoKey := bool;
            PBKDF2_SHA256 := fun password salt _ _ => toy_key password salt;
            AES_GCM_encrypt := toy_encrypt;
            AES_GCM_decrypt := toy_decrypt |}.
  - intros key iv m Hm. constructor; [destruct key; unfold is_byte; cbn; lia|exact Hm].
  - intros key iv [|t c] m Hc; cbn; [discriminate|].
    destruct (t =? toy_tag key); [|discriminate]. intros [= <-]. by inversion Hc.
  - intros key iv m _. unfold toy_encrypt, toy_decrypt. by rewrite Z.eqb_refl.
Defined.


(** A model of the JSON assumptions to compute with: an envelope is
    written as its three fields, each behind its length. *)
Definition toy_stringify (e : Crypto.Envelope) : jsstring :=
  Z.of_nat (length (Crypto.salt e)) :: Crypto.salt e ++
  Z.of_nat (length (Crypto.iv e)) :: Crypto.iv e ++
  Crypto.ciphertext e.

Definition toy_parse (s : jsstring) : result (option Crypto.Envelope) :=
  match s with
  | n :: s =>
    let salt := take (Z.to_nat n) s in
    match drop (Z.to_nat n) s with
    | m :: s =>
      Ok (Some (Crypto.mkEnvelope salt (take (Z.to_nat m) s) (drop (Z.to_nat m) s)))
    | [] => Throw SyntaxError
    end
  | [] => Throw SyntaxError
  end.

Definition toy_parse_config (s : jsstring) : result (option Config) :=
  Ok (Some (mkConfig s s s)).

Definition toy_stringify_vault (v : Vault) : jsstring := js "{}".

Definition toy_parse_vault (s : jsstring) : result (option Vault) :=
  Ok (Some (mkVault 1 ∅)).

Definition toy_json : JSON.
Proof.
  refine {| JSON_stringify_envelope := toy_stringify;
            JSON_parse_envelope := toy_parse;
            JSON_parse_config := toy_parse_config;
            JSON_stringify_vault := toy_stringify_vault;
            JSON_parse_vault := toy_parse_vault |}.
  - intros [s i c]. unfold toy_stringify, toy_parse.
    cbn [Crypto.salt Crypto.iv Crypto.ciphertext].
    rewrite !Nat2Z.id, take_app_length, drop_app_length.
    rewrite !Nat2Z.id, take_app_length, drop_app_length. reflexivity.
  - reflexivity.
  - intros v. apply (bool_decide_unpack _). vm_compute. exact I.
Defined.

(** A fresh browser: nothing stored, nothing remote, the network up. *)
Definition fresh_world : World :=
  mkWorld ∅ None [] 0 toy_rng App.initial_state false.

(** A returning user: the vault was created under [pw], then locked. *)
Definition returning_user (pw : list Z) : World :=
  snd (@App.lock (snd (@App.unlock toy_crypto toy_json pw fresh_world))).

(** An unlocked session on a fresh browser. *)
Definition unlocked_user : World :=
  snd (@App.unlock toy_crypto toy_json (js "hunter2duck") fresh_world).

(** The same with a table of one column and one row. *)
Definition logins : World :=
  @App.call_all toy_crypto toy_json
    [App.CreateTable (js "Logins"); App.AddRow (js "Logins")] unlocked_user.

Definition logins_table : Table := mkTable [js "Column 1"] [[Str []]].

Definition logins_vault : Vault := mkVault 1 {[ js "Logins" := STable logins_table ]}.

Definition ragged_csv : list Z := js "site,user" ++ [0x0A] ++ js "example.org".

(** A configured device that is offline, its Local Store empty, while
    the repository holds an envelope. *)
Definition remote_copy : list Z :=
  Eval vm_compute in
    Base64.base64_encode (toy_stringify
      (Crypto.mkEnvelope (js "AAECAwQFBgcICQoLDA0ODw==") (js "EBESExQVFhcYGRob") (js "AXt9"))).

Definition offline_device : World :=
  mkWorld {[ GitHub.CFG_KEY := js "me" ]} (Some (mkRemoteFile remote_copy 1))
    [Unreachable] 0 toy_rng App.initial_state false.

(** A device on which an earlier push failed and no remote is configured. *)
Definition pending_device : World :=
  mkWorld {[ Storage.PENDING_KEY := js "1" ]} None [] 0 toy_rng App.initial_state false.


(** ** The login screen (ui.js, showLogin) *)

Module Login.
Section WithPlatform.
Context {SC : SubtleCrypto} {J : JSON}.
Local Open Scope M_scope.

(** What the submit handler leaves on the page: one of the messages of
    [errEl], or the table list that [unlock] shows. *)
Inductive outcome :=
| too_short          (* 'Password must be at least 8 characters.' *)
| mismatch           (* 'Passwords do not match.' *)
| missing            (* 'Please enter your master password.' *)
| wrong_password     (* 'Wrong password. Try again.' *)
| error (err : exn)  (* 'Error: ' + err.message *)
| table_list.

(** [const isFirst = !App.hasVault()], read when the screen is drawn. *)
Definition isFirst : M bool :=
  has <- App.hasVault ;; ret (negb has).

(** The submit handler of the form; [pw] and [confirm] are the values
    of the two password fields. *)
Definition form_onsubmit (isFirst : bool) (pw confirm : jsstring) : M outcome :=
  (* First-run validation *)
  if isFirst && (length pw <? 8)%nat then ret too_short
  else if isFirst && negb (bool_decide (pw = confirm)) then ret mismatch
  else if negb (nonempty pw) then ret missing
  else fun w =>
    match App.unlock pw w with
    | (Ok result, w') => (Ok (if ok result then table_list else wrong_password), w')
    | (Throw err, w') => (Ok (error err), w')
    end.

(** The link "Forgot password? Reset vault"; [confirmed] is the answer
    to the confirmation dialog. *)
Definition resetLink_onclick (confirmed : bool) : M unit :=
  if negb confirmed then ret tt
  else modify (set_localStorage (fun _ => ∅)).

End WithPlatform.
End Login.

(** ** Observations the further properties are stated with *)

(** A character [atob] can neither skip nor decode: not in the
    alphabet, not padding, not ASCII whitespace. *)
Definition outside_base64 (c : Z) : bool :=
  bool_decide (Base64.b64index c = None) && negb (c =? 61) &&
  negb (Base64.is_ascii_whitespace c).

Definition malformed_base64 (s : jsstring) : bool := existsb outside_base64 s.



(** The next fetch reaches the server. *)
Definition reachable (w : World) : bool :=
  match head (network w) with
  | Some Deliver | None => true
  | _ => false
  end.

(** A refusal carries an error status, not one of 200 to 299. *)
Definition genuine (b : net_behaviour) : bool :=
  match b with
  | Refuse s => negb ((200 <=? s) && (s <=? 299))
  | _ => true
  end.

(** While locked, nothing of the session is in memory and no timer is
    pending. *)
Definition locked_clean (w : World) : Prop :=
  locked (state w) = true ->
  password (state w) = None /\ vault (state w) = None /\ lockTimer w = false.

(** Every table has a column. *)
Definition vault_has_columns (v : Vault) : Prop :=
  forall name t, tables v !! name = Some (STable t) -> columns t <> [].

Definition has_columns (w : World) : Prop :=
  match vault (state w) with
  | Some v => vault_has_columns v
  | None => True
  end.

(** What reaches the controller: a login, a lock (by hand or by the
    timer), user activity on the page, a call of a vault operation. *)
Inductive event :=
| Unlock (password : jsstring)
| Lock
| Activity
| Call (o : App.op).

Section Events.
Context {SC : SubtleCrypto} {J : JSON}.
Local Open Scope M_scope.

Definition handle (e : event) : M unit :=
  match e with
  | Unlock password => App.unlock password ;; ret tt
  | Lock => App.lock
  | Activity => App.resetLockTimer
  | Call o => App.call o
  end.

(** One event after the other; one that throws does not stop the next. *)
Definition handle_all (es : list event) (w : World) : World :=
  foldl (fun w e => snd (handle e w)) w es.

End Events.

Section Persistence.
Context {SC : SubtleCrypto} {J : JSON}.


(** [Storage.load] gets no envelope from the remote: none is
    configured, the pull fails, or the repository has no file. *)
Definition remote_silent (w : World) : bool :=
  match fst (Storage.syncFromGitHub w) with
  | Ok (Some _) => false
  | _ => true
  end.

End Persistence.

(** A model of the JSON assumptions in which a configuration is
    written as its three fields, each behind its length. *)
Definition toy_stringify_config (c : Config) : jsstring :=
  Z.of_nat (length (owner c)) :: owner c ++
  Z.of_nat (length (repo c)) :: repo c ++
  token c.

Definition toy_read_config (s : jsstring) : result (option Config) :=
  match s with
  | n :: s =>
    let owner := take (Z.to_nat n) s in
    match drop (Z.to_nat n) s with
    | m :: s => Ok (Some (mkConfig owner (take (Z.to_nat m) s) (drop (Z.to_nat m) s)))
    | [] => Throw SyntaxError
    end
  | [] => Throw SyntaxError
  end.

Definition settings_json : JSON :=
  {| JSON_stringify_envelope := toy_stringify;
     JSON_parse_envelope := toy_parse;
     JSON_parse_config := toy_read_config;
     JSON_stringify_vault := toy_stringify_vault;
     JSON_parse_vault := toy_parse_vault;
     JSON_parse_stringify_envelope := @JSON_parse_stringify_envelope toy_json;
     JSON_stringify_envelope_truthy := @JSON_stringify_envelope_truthy toy_json;
     JSON_stringify_vault_string := @JSON_stringify_vault_string toy_json |}.

Definition settings_config : JSONConfig settings_json.
Proof.
  refine {| JSON_stringify_config := toy_stringify_config |}.
  - intros [o r t]. cbn. unfold toy_stringify_config, toy_read_config.
    cbn [owner repo token].
    rewrite !Nat2Z.id, take_app_length, drop_app_length.
    rewrite !Nat2Z.id, take_app_length, drop_app_length. reflexivity.
  - reflexivity.
Defined.

(** Scenarios. *)

Definition sample_envelope : Crypto.Envelope :=
  Crypto.mkEnvelope (js "AAECAwQFBgcICQoLDA0ODw==") (js "EBESExQVFhcYGRob") (js "AXt9").

(** A configured device, online, the repository still empty. *)
Definition configured_device : World :=
  mkWorld {[ GitHub.CFG_KEY := js "me" ]} None [] 0 toy_rng App.initial_state false.

(** A second device configured for the repository that holds the envelope. *)
Definition second_device : World :=
  mkWorld {[ GitHub.CFG_KEY := js "me" ]} (Some (mkRemoteFile remote_copy 1))
    [] 0 toy_rng App.initial_state false.

(** A device whose stored vault text does not parse. *)
Definition corrupt_device : World :=
  mkWorld {[ Storage.VAULT_KEY := [5] ]} None [] 0 toy_rng App.initial_state false.




(** * Properties

    ** Text encoding *)

Import Text.

(** Shifts and masks as arithmetic. *)

Lemma land_shiftl_small a n y : 0 <= n -> 0 <= y < 2 ^ n -> Z.land (Z.shiftl a n) y = 0.
Proof.
  intros Hn Hy. apply Z.bits_inj'. intros m Hm.
  rewrite Z.land_spec, Z.bits_0.
  destruct (Z.lt_ge_cases m n) as [Hlt|Hge].
  - rewrite Z.shiftl_spec_low by lia. reflexivity.
  - rewrite <- (Z.mod_small y (2 ^ n)) by lia.
    rewrite Z.mod_pow2_bits_high by lia. apply andb_false_r.
Qed.

Lemma lor_shiftl_add a n y : 0 <= n -> 0 <= y < 2 ^ n -> Z.lor (Z.shiftl a n) y = a * 2 ^ n + y.
Proof.
  intros Hn Hy.
  rewrite <- Z.lxor_lor by (apply land_shiftl_small; lia).
  rewrite <- Z.add_nocarry_lxor by (apply land_shiftl_small; lia).
  rewrite Z.shiftl_mul_pow2 by lia. reflexivity.
Qed.

Lemma lor_0x80 x : 0 <= x < 64 -> Z.lor 0x80 x = 128 + x.
Proof. intros H. change 0x80 with (Z.shiftl 2 6). rewrite lor_shiftl_add by (change (2^6) with 64; lia). reflexivity. Qed.

Lemma land_0x3F x : Z.land x 0x3F = x mod 64.
Proof. change 0x3F with (Z.ones 6). rewrite Z.land_ones by lia. reflexivity. Qed.
Lemma land_0x1F x : Z.land x 0x1F = x mod 32.
Proof. change 0x1F with (Z.ones 5). rewrite Z.land_ones by lia. reflexivity. Qed.
Lemma land_0xF x : Z.land x 0xF = x mod 16.
Proof. change 0xF with (Z.ones 4). rewrite Z.land_ones by lia. reflexivity. Qed.
Lemma land_0x7 x : Z.land x 0x7 = x mod 8.
Proof. change 0x7 with (Z.ones 3). rewrite Z.land_ones by lia. reflexivity. Qed.
Lemma land_0x3FF x : Z.land x 0x3FF = x mod 1024.
Proof. change 0x3FF with (Z.ones 10). rewrite Z.land_ones by lia. reflexivity. Qed.
Lemma lor_shiftl6 a y : Z.lor (Z.shiftl a 6) (y mod 64) = a * 64 + y mod 64.
Proof. rewrite lor_shiftl_add; [reflexivity | lia | change (2^6) with 64; apply Z.mod_pos_bound; lia]. Qed.
Lemma lor_0x80_mod x : Z.lor 0x80 (x mod 64) = 128 + x mod 64.
Proof. apply lor_0x80. apply Z.mod_pos_bound; lia. Qed.

Ltac bits2arith :=
  repeat first
    [ rewrite land_0x3F | rewrite land_0x1F | rewrite land_0xF | rewrite land_0x7
    | rewrite land_0x3FF | rewrite lor_shiftl6 | rewrite lor_0x80_mod
    | rewrite Z.shiftr_div_pow2 by lia | rewrite Z.shiftl_mul_pow2 by lia ].

Ltac zcases :=
  repeat match goal with
  | |- context [?a <=? ?b] => destruct (Z.leb_spec a b); try lia
  | |- context [?a <? ?b] => destruct (Z.ltb_spec a b); try lia
  | |- context [?a =? ?b] => destruct (Z.eqb_spec a b); try lia
  end.

Section TextFacts.

Example encode_abc : Text.encode (js "aZ") = [97; 90]. Proof. reflexivity. Qed.
Example encode_euro : Text.encode [0x20AC] = [0xE2; 0x82; 0xAC]. Proof. reflexivity. Qed.
Example encode_emoji : Text.encode [0xD83D; 0xDD10] = [0xF0; 0x9F; 0x94; 0x90]. Proof. reflexivity. Qed.
Example decode_emoji : Text.decode [0xF0; 0x9F; 0x94; 0x90] = [0xD83D; 0xDD10]. Proof. reflexivity. Qed.
Example decode_bad : Text.decode [0xE2; 0x41] = [0xFFFD; 0x41]. Proof. reflexivity. Qed.
Example decode_bom : Text.decode [0xEF; 0xBB; 0xBF; 0x41] = [0x41]. Proof. reflexivity. Qed.
Example encode_lone : Text.encode [0xD800; 0x41] = [0xEF; 0xBF; 0xBD; 0x41]. Proof. reflexivity. Qed.

Lemma decode_cp_1 cp rest : 0 <= cp <= 0x7F ->
  utf8_decode_from utf8_init (utf8_encode_cp cp ++ rest) = cp :: utf8_decode_from utf8_init rest.
Proof.
  intros H. unfold utf8_encode_cp. zcases. cbn [app utf8_decode_from].
  unfold utf8_handler, in_range; cbn [bytes_needed utf8_init].
  change (0 =? 0) with true. cbv iota. zcases. reflexivity.
Qed.


Lemma handler_lead2 b : 0xC2 <= b <= 0xDF ->
  utf8_handler utf8_init b = (Utf8State (Z.land b 0x1F) 0 1 0x80 0xBF, Continue).
Proof. intros H. unfold utf8_handler, in_range; cbn. zcases. reflexivity. Qed.

Lemma handler_lead3 b : 0xE0 <= b <= 0xEF ->
  utf8_handler utf8_init b =
  (Utf8State (Z.land b 0xF) 0 2 (if b =? 0xE0 then 0xA0 else 0x80)
     (if b =? 0xED then 0x9F else 0xBF), Continue).
Proof. intros H. unfold utf8_handler, in_range; cbn. zcases; reflexivity. Qed.

Lemma handler_lead4 b : 0xF0 <= b <= 0xF4 ->
  utf8_handler utf8_init b =
  (Utf8State (Z.land b 0x7) 0 3 (if b =? 0xF0 then 0x90 else 0x80)
     (if b =? 0xF4 then 0x8F else 0xBF), Continue).
Proof. intros H. unfold utf8_handler, in_range; cbn. zcases; reflexivity. Qed.

Lemma handler_cont cp seen needed lo hi b :
  needed <> 0 -> lo <= b <= hi -> seen + 1 <> needed ->
  utf8_handler (Utf8State cp seen needed lo hi) b =
  (Utf8State (Z.lor (Z.shiftl cp 6) (Z.land b 0x3F)) (seen + 1) needed 0x80 0xBF, Continue).
Proof. intros H1 H2 H3. unfold utf8_handler, in_range; cbn. zcases; reflexivity. Qed.

Lemma handler_last cp seen needed lo hi b :
  needed <> 0 -> lo <= b <= hi -> seen + 1 = needed ->
  utf8_handler (Utf8State cp seen needed lo hi) b =
  (utf8_init, Emit (Z.lor (Z.shiftl cp 6) (Z.land b 0x3F))).
Proof. intros H1 H2 H3. unfold utf8_handler, in_range; cbn. zcases; reflexivity. Qed.

Lemma decode_cp_2 cp rest : 0x80 <= cp <= 0x7FF ->
  utf8_decode_from utf8_init (utf8_encode_cp cp ++ rest) = cp :: utf8_decode_from utf8_init rest.
Proof.
  intros H. unfold utf8_encode_cp. zcases. cbn [app utf8_decode_from].
  bits2arith. change (2^6) with 64.
  assert (2 <= cp / 64 <= 31) by (Z.div_mod_to_equations; lia).
  assert (0 <= cp mod 64 < 64) by (apply Z.mod_pos_bound; lia).
  rewrite handler_lead2 by lia.
  rewrite handler_last by lia.
  cbn [emitted app]. f_equal. bits2arith. Z.div_mod_to_equations; lia.
Qed.

Lemma decode_cp_3 cp rest : 0x800 <= cp <= 0xFFFF -> ~ (0xD800 <= cp <= 0xDFFF) ->
  utf8_decode_from utf8_init (utf8_encode_cp cp ++ rest) = cp :: utf8_decode_from utf8_init rest.
Proof.
  intros H Hs. unfold utf8_encode_cp. zcases. cbn [app utf8_decode_from].
  bits2arith. change (2^6) with 64. change (2^12) with 4096.
  assert (0 <= cp / 4096 <= 15) by (Z.div_mod_to_equations; lia).
  assert (0 <= cp mod 64 < 64) by (apply Z.mod_pos_bound; lia).
  assert (0 <= (cp / 64) mod 64 < 64) by (apply Z.mod_pos_bound; lia).
  rewrite handler_lead3 by lia.
  rewrite handler_cont by (zcases; Z.div_mod_to_equations; lia).
  rewrite handler_last by lia.
  cbn [emitted app]. f_equal. bits2arith. Z.div_mod_to_equations; lia.
Qed.

Lemma decode_cp_4 cp rest : 0x10000 <= cp <= 0x10FFFF ->
  utf8_decode_from utf8_init (utf8_encode_cp cp ++ rest) = cp :: utf8_decode_from utf8_init rest.
Proof.
  intros H. unfold utf8_encode_cp. zcases. cbn [app utf8_decode_from].
  bits2arith. change (2^6) with 64. change (2^12) with 4096. change (2^18) with 262144.
  assert (0 <= cp / 262144 <= 4) by (Z.div_mod_to_equations; lia).
  assert (0 <= cp mod 64 < 64) by (apply Z.mod_pos_bound; lia).
  assert (0 <= (cp / 64) mod 64 < 64) by (apply Z.mod_pos_bound; lia).
  assert (0 <= (cp / 4096) mod 64 < 64) by (apply Z.mod_pos_bound; lia).
  rewrite handler_lead4 by lia.
  rewrite handler_cont by (zcases; Z.div_mod_to_equations; lia).
  rewrite handler_cont by lia.
  rewrite handler_last by lia.
  cbn [emitted app]. f_equal. bits2arith. Z.div_mod_to_equations; lia.
Qed.

Lemma decode_encode_cp cp rest : is_scalar cp ->
  utf8_decode_from utf8_init (utf8_encode_cp cp ++ rest) = cp :: utf8_decode_from utf8_init rest.
Proof.
  intros [H Hs].
  destruct (Z.le_gt_cases cp 0x7F); [apply decode_cp_1; lia|].
  destruct (Z.le_gt_cases cp 0x7FF); [apply decode_cp_2; lia|].
  destruct (Z.le_gt_cases cp 0xFFFF); [apply decode_cp_3; lia|].
  apply decode_cp_4; lia.
Qed.

Lemma utf8_decode_encode cps :
  Forall is_scalar cps ->
  utf8_decode_from utf8_init (concat (map utf8_encode_cp cps)) = cps.
Proof.
  induction 1 as [|cp cps Hcp _ IH]; [reflexivity|].
  cbn [map concat]. rewrite decode_encode_cp by assumption. by rewrite IH.
Qed.

Lemma list_ind2 {A} (P : list A -> Prop) :
  P [] -> (forall a, P [a]) ->
  (forall a b l, P l -> P (b :: l) -> P (a :: b :: l)) ->
  forall l, P l.
Proof.
  intros H0 H1 H2 l. enough (P l /\ forall a, P (a :: l)) by tauto.
  induction l as [|b l [IH1 IH2]]; split; auto.
Qed.

Lemma to_scalar_values_cons u rest :
  to_scalar_values (u :: rest) =
  if is_lead u then
    match rest with
    | v :: rest' =>
      if is_trail v
      then (0x10000 + Z.shiftl (u - 0xD800) 10 + (v - 0xDC00)) :: to_scalar_values rest'
      else 0xFFFD :: to_scalar_values rest
    | [] => [0xFFFD]
    end
  else if is_trail u then 0xFFFD :: to_scalar_values rest
  else u :: to_scalar_values rest.
Proof. reflexivity. Qed.

Lemma toWellFormed_cons u rest :
  toWellFormed (u :: rest) =
  if is_lead u then
    match rest with
    | v :: rest' =>
      if is_trail v then u :: v :: toWellFormed rest' else 0xFFFD :: toWellFormed rest
    | [] => [0xFFFD]
    end
  else if is_trail u then 0xFFFD :: toWellFormed rest
  else u :: toWellFormed rest.
Proof. reflexivity. Qed.


Lemma pair_scalar u v : is_lead u = true -> is_trail v = true ->
  is_scalar (0x10000 + Z.shiftl (u - 0xD800) 10 + (v - 0xDC00)).
Proof.
  unfold is_lead, is_trail, is_scalar. rewrite !andb_true_iff, !Z.leb_le.
  intros [? ?] [? ?]. rewrite Z.shiftl_mul_pow2 by lia. change (2^10) with 1024. lia.
Qed.

Lemma pair_units u v : is_lead u = true -> is_trail v = true ->
  utf16_units (0x10000 + Z.shiftl (u - 0xD800) 10 + (v - 0xDC00)) = [u; v].
Proof.
  unfold is_lead, is_trail, utf16_units. rewrite !andb_true_iff, !Z.leb_le.
  intros [? ?] [? ?]. bits2arith. change (2^10) with 1024.
  zcases. f_equal; [|f_equal]; Z.div_mod_to_equations; lia.
Qed.

Lemma to_scalar_values_scalar s :
  Forall is_code_unit s -> Forall is_scalar (to_scalar_values s).
Proof.
  assert (Hrepl : is_scalar 0xFFFD) by (unfold is_scalar; lia).
  induction s as [|u|u v rest IH1 IH2] using list_ind2; intros Hs.
  - constructor.
  - inversion_clear Hs as [|? ? Hu _]. cbn [to_scalar_values]. unfold is_code_unit in Hu.
    destruct (is_lead u) eqn:Hl; [by constructor|].
    destruct (is_trail u) eqn:Ht; [by constructor|].
    constructor; [|constructor]. split; [lia|].
    unfold is_lead, is_trail in *. intros ?.
    apply andb_false_iff in Hl, Ht. rewrite !Z.leb_gt in Hl, Ht. lia.
  - inversion Hs as [|? ? Hu Hs']; subst. inversion Hs' as [|? ? Hv Hs'']; subst.
    specialize (IH1 Hs''). specialize (IH2 Hs').
    rewrite to_scalar_values_cons. unfold is_code_unit in Hu.
    destruct (is_lead u) eqn:Hl.
    + destruct (is_trail v) eqn:Ht; constructor; auto using pair_scalar.
    + destruct (is_trail u) eqn:Ht; constructor; auto.
      split; [lia|]. unfold is_lead, is_trail in *. intros ?.
      apply andb_false_iff in Hl, Ht. rewrite !Z.leb_gt in Hl, Ht. lia.
Qed.

Lemma units_nonsurrogate u : is_code_unit u -> utf16_units u = [u].
Proof. unfold is_code_unit, utf16_units. intros ?. zcases. reflexivity. Qed.

Lemma utf16_to_scalar_values s :
  Forall is_code_unit s ->
  concat (map utf16_units (to_scalar_values s)) = toWellFormed s.
Proof.
  induction s as [|u|u v rest IH1 IH2] using list_ind2; intros Hs.
  - reflexivity.
  - inversion_clear Hs as [|? ? Hu _]. cbn [to_scalar_values toWellFormed].
    destruct (is_lead u); [reflexivity|]. destruct (is_trail u); [reflexivity|].
    cbn [map concat]. by rewrite units_nonsurrogate.
  - inversion Hs as [|? ? Hu Hs']; subst. inversion Hs' as [|? ? Hv Hs'']; subst.
    specialize (IH1 Hs''). specialize (IH2 Hs').
    rewrite to_scalar_values_cons, toWellFormed_cons.
    destruct (is_lead u) eqn:Hl.
    + destruct (is_trail v) eqn:Ht; cbn [map concat].
      * rewrite pair_units by assumption. rewrite IH1. reflexivity.
      * rewrite IH2. reflexivity.
    + destruct (is_trail u) eqn:Ht; cbn [map concat]; rewrite IH2; [reflexivity|].
      by rewrite units_nonsurrogate.
Qed.


Lemma strip_bom_units cps :
  Forall is_scalar cps ->
  concat (map utf16_units (strip_bom cps)) = strip_bom (concat (map utf16_units cps)).
Proof.
  intros H. destruct H as [|cp cps [Hcp Hns] _]; [reflexivity|].
  cbn [strip_bom map concat]. unfold utf16_units at 2 3.
  destruct (Z.eqb_spec cp 0xFEFF) as [->|Hne]; [reflexivity|].
  destruct (Z.ltb_spec cp 0x10000); cbn [app strip_bom map concat].
  - destruct (Z.eqb_spec cp 0xFEFF); [lia|]. unfold utf16_units at 1.
    destruct (Z.ltb_spec cp 0x10000); [reflexivity|lia].
  - bits2arith. change (2^10) with 1024.
    assert (0 <= (cp - 65536) / 1024 < 1024) by (Z.div_mod_to_equations; lia).
    destruct (Z.eqb_spec (55296 + (cp - 65536) / 1024) 0xFEFF); [lia|].
    unfold utf16_units at 1.
    destruct (Z.ltb_spec cp 0x10000); [lia|]. bits2arith. reflexivity.
Qed.

(** What a UTF-8 round trip does to any string. *)
Theorem decode_encode s :
  Forall is_code_unit s -> decode (encode s) = strip_bom (toWellFormed s).
Proof.
  intros Hs. unfold decode, encode.
  pose proof (to_scalar_values_scalar s Hs) as Hsc.
  rewrite utf8_decode_encode by assumption.
  rewrite strip_bom_units by assumption.
  by rewrite utf16_to_scalar_values.
Qed.

(** The decoder returns a string, whatever the bytes. *)

Lemma decoding_init : decoding utf8_init.
Proof. by left. Qed.

Lemma handler_start st b :
  bytes_needed st = 0 -> bytes_seen st = 0 -> is_byte b ->
  decoding (fst (utf8_handler st b)) /\
  Forall is_code_point (emitted (snd (utf8_handler st b))) /\
  snd (utf8_handler st b) <> ErrorRestore.
Proof.
  unfold is_byte, is_code_point, utf8_handler, in_range. intros Hn Hs Hb.
  rewrite Hn, Hs. change (0 =? 0) with true. cbv iota.
  assert (0 <= b mod 32 < 32) by (apply Z.mod_pos_bound; lia).
  assert (0 <= b mod 16 < 16) by (apply Z.mod_pos_bound; lia).
  assert (0 <= b mod 8 < 8) by (apply Z.mod_pos_bound; lia).
  destruct (Z.leb_spec 0 b); [|lia].
  destruct (Z.leb_spec b 0x7F); cbn [andb fst snd emitted].
  { split; [by left|]. split; [|discriminate]. repeat constructor; lia. }
  destruct (Z.leb_spec 0xC2 b), (Z.leb_spec b 0xDF); cbn [andb fst snd emitted];
    try lia.
  { split; [|split; [constructor|discriminate]]. right. cbn. bits2arith. lia. }
  - destruct (Z.leb_spec 0xE0 b); [|lia].
    destruct (Z.leb_spec b 0xEF); cbn [andb fst snd emitted].
    { split; [|split; [constructor|discriminate]]. right. cbn. bits2arith. lia. }
    destruct (Z.leb_spec 0xF0 b); [|lia].
    destruct (Z.leb_spec b 0xF4); cbn [andb fst snd emitted].
    { split; [|split; [constructor|discriminate]]. right. cbn. bits2arith. lia. }
    split; [by left|]. split; [|discriminate]. repeat constructor; lia.
  - destruct (Z.leb_spec 0xE0 b); [lia|]. cbn [andb].
    destruct (Z.leb_spec 0xF0 b); [lia|]. cbn [andb fst snd emitted].
    split; [by left|]. split; [|discriminate]. repeat constructor; lia.
Qed.

Lemma handler_continue st b :
  bytes_needed st <> 0 -> decoding st -> is_byte b ->
  decoding (fst (utf8_handler st b)) /\
  Forall is_code_point (emitted (snd (utf8_handler st b))) /\
  (snd (utf8_handler st b) = ErrorRestore -> fst (utf8_handler st b) = utf8_init).
Proof.
  unfold is_byte, is_code_point. intros Hn [[Hst _]|(Hneed & Hseen & Hcp)] Hb; [lia|].
  unfold utf8_handler. destruct (Z.eqb_spec (bytes_needed st) 0); [lia|].
  destruct (negb (in_range (lower st) (upper st) b)); cbn [fst snd emitted].
  { split; [by left|]. split; [|done]. repeat constructor; lia. }
  cbv zeta. bits2arith.
  assert (0 <= b mod 64 < 64) by (apply Z.mod_pos_bound; lia).
  assert (Hpow : 64 ^ (bytes_seen st + 1) = 64 * 64 ^ bytes_seen st).
  { rewrite Z.pow_add_r by lia. lia. }
  assert (Hbound : 64 ^ bytes_seen st <= 64 ^ 2).
  { apply Z.pow_le_mono_r; lia. }
  change (64 ^ 2) with 4096 in Hbound.
  destruct (Z.eqb_spec (bytes_seen st + 1) (bytes_needed st)); cbn [fst snd emitted].
  - split; [by left|]. split; [|discriminate]. repeat constructor; nia.
  - split; [|split; [constructor|discriminate]]. right. cbn. rewrite Hpow. nia.
Qed.

Lemma utf8_decode_range bs : forall st,
  decoding st -> Forall is_byte bs ->
  Forall is_code_point (utf8_decode_from st bs).
Proof.
  induction bs as [|b bs IH]; intros st Hst Hbs; cbn [utf8_decode_from].
  - destruct (bytes_needed st =? 0); repeat constructor; unfold is_code_point; lia.
  - inversion_clear Hbs as [|? ? Hb Hbs'].
    destruct (Z.eq_dec (bytes_needed st) 0) as [Hn|Hn].
    + assert (Hs : bytes_seen st = 0) by (destruct Hst as [[_ ?]|?]; [done|lia]).
      destruct (handler_start st b Hn Hs Hb) as (Hd & He & Hr).
      destruct (utf8_handler st b) as [st' r]. cbn [fst snd] in *.
      destruct r; try (apply Forall_app; split; [exact He|by apply IH]). congruence.
    + destruct (handler_continue st b Hn Hst Hb) as (Hd & He & Hr).
      destruct (utf8_handler st b) as [st' r]. cbn [fst snd] in *.
      destruct r; try (apply Forall_app; split; [exact He|by apply IH]).
      rewrite (Hr eq_refl).
      destruct (handler_start utf8_init b eq_refl eq_refl Hb) as (Hd' & He' & _).
      destruct (utf8_handler utf8_init b) as [st'' r'']. cbn [fst snd] in *.
      constructor; [unfold is_code_point; lia|].
      apply Forall_app; split; [exact He'|by apply IH].
Qed.

Lemma utf16_units_range cp : is_code_point cp -> Forall is_code_unit (utf16_units cp).
Proof.
  unfold is_code_point, utf16_units, is_code_unit. intros Hcp.
  destruct (Z.ltb_spec cp 0x10000); bits2arith; change (2 ^ 10) with 1024;
    repeat constructor; try lia; Z.div_mod_to_equations; lia.
Qed.

Lemma decode_code_units bs : Forall is_byte bs -> Forall is_code_unit (decode bs).
Proof.
  intros Hbs. unfold decode. apply Forall_concat, Forall_fmap.
  pose proof (utf8_decode_range bs utf8_init decoding_init Hbs) as H.
  assert (Hstrip : Forall is_code_point (strip_bom (utf8_decode_from utf8_init bs))).
  { destruct H as [|cp cps Hcp Hcps]; [constructor|]. cbn.
    destruct (cp =? 0xFEFF); [exact Hcps|by constructor]. }
  eapply Forall_impl; [exact Hstrip|]. apply utf16_units_range.
Qed.


End TextFacts.

Example btoa_Man : Base64.btoa (js "Man") = Ok (js "TWFu"). Proof. reflexivity. Qed.
Example btoa_Ma : Base64.btoa (js "Ma") = Ok (js "TWE="). Proof. reflexivity. Qed.
Example btoa_M : Base64.btoa (js "M") = Ok (js "TQ=="). Proof. reflexivity. Qed.
Example atob_TQ : Base64.atob (js "TQ==") = Ok (js "M"). Proof. reflexivity. Qed.
Example atob_TWE : Base64.atob (js "TW E") = Ok (js "Ma"). Proof. reflexivity. Qed.
Example atob_bad : Base64.atob (js "undefined") = Throw InvalidCharacterError. Proof. reflexivity. Qed.
Example atob_light : Base64.atob (js "bGlnaHQgd29y") = Ok (js "light wor"). Proof. reflexivity. Qed.

(** ** Base64 *)

Import Base64.

Section Base64Facts.

Lemma list_ind3 {A} (P : list A -> Prop) :
  P [] -> (forall a, P [a]) -> (forall a b, P [a; b]) ->
  (forall a b c l, P l -> P (a :: b :: c :: l)) ->
  forall l, P l.
Proof.
  intros H0 H1 H2 H3 l.
  enough (P l /\ (forall a, P (a :: l)) /\ (forall a b, P (a :: b :: l))) by tauto.
  induction l as [|c l (IH0 & IH1 & IH2)]; repeat split; auto.
Qed.

Lemma base64_encode_split bs :
  base64_encode bs = map b64char (sextets bs) ++ padding bs.
Proof.
  induction bs as [|a|a b|a b c rest IH] using list_ind3; try reflexivity.
  cbn [base64_encode sextets padding map app]. by rewrite IH.
Qed.

Lemma land_3 x : Z.land x 3 = x mod 4.
Proof. change 3 with (Z.ones 2). rewrite Z.land_ones by lia. reflexivity. Qed.
Lemma land_15 x : Z.land x 15 = x mod 16.
Proof. change 15 with (Z.ones 4). rewrite Z.land_ones by lia. reflexivity. Qed.
Lemma land_63 x : Z.land x 63 = x mod 64.
Proof. change 63 with (Z.ones 6). rewrite Z.land_ones by lia. reflexivity. Qed.
Lemma land_255 x : Z.land x 255 = x mod 256.
Proof. change 255 with (Z.ones 8). rewrite Z.land_ones by lia. reflexivity. Qed.

Lemma lor_hi_lo a n y : 0 <= n -> 0 <= y < 2 ^ n -> Z.lor (Z.shiftl a n) y = a * 2 ^ n + y.
Proof. apply lor_shiftl_add. Qed.

Lemma sextet_1 a : Z.shiftr a 2 = a / 4.
Proof. by rewrite Z.shiftr_div_pow2. Qed.
Lemma sextet_2 a b : is_byte b ->
  Z.lor (Z.shiftl (Z.land a 3) 4) (Z.shiftr b 4) = a mod 4 * 16 + b / 16.
Proof.
  intros Hb. unfold is_byte in Hb. rewrite land_3, (Z.shiftr_div_pow2 b) by lia.
  rewrite lor_shiftl_add; change (2 ^ 4) with 16; [reflexivity|lia|].
  Z.div_mod_to_equations; lia.
Qed.
Lemma sextet_3 b c : is_byte c ->
  Z.lor (Z.shiftl (Z.land b 15) 2) (Z.shiftr c 6) = b mod 16 * 4 + c / 64.
Proof.
  intros Hc. unfold is_byte in Hc. rewrite land_15, (Z.shiftr_div_pow2 c) by lia.
  rewrite lor_shiftl_add; change (2 ^ 2) with 4; change (2 ^ 6) with 64; [reflexivity|lia|].
  Z.div_mod_to_equations; lia.
Qed.
Lemma sextet_2' a : Z.shiftl (Z.land a 3) 4 = a mod 4 * 16.
Proof. by rewrite land_3, Z.shiftl_mul_pow2. Qed.
Lemma sextet_3' b : Z.shiftl (Z.land b 15) 2 = b mod 16 * 4.
Proof. by rewrite land_15, Z.shiftl_mul_pow2. Qed.

Ltac sextet_arith :=
  rewrite ?sextet_1, ?sextet_2, ?sextet_3, ?sextet_2', ?sextet_3', ?land_63 by assumption.

Lemma sextets_range bs : Forall is_byte bs -> Forall is_sextet (sextets bs).
Proof.
  induction bs as [|a|a b|a b c rest IH] using list_ind3; intros Hbs; cbn [sextets].
  - constructor.
  - inversion_clear Hbs as [|? ? Ha _]. sextet_arith.
    unfold is_byte, is_sextet in *. repeat constructor; Z.div_mod_to_equations; lia.
  - inversion_clear Hbs as [|? ? Ha Hbs']. inversion_clear Hbs' as [|? ? Hb _]. sextet_arith.
    unfold is_byte, is_sextet in *. repeat constructor; Z.div_mod_to_equations; lia.
  - inversion_clear Hbs as [|? ? Ha Hbs']. inversion_clear Hbs' as [|? ? Hb Hbs''].
    inversion_clear Hbs'' as [|? ? Hc Hrest]. sextet_arith.
    specialize (IH Hrest).
    unfold is_byte, is_sextet in *. repeat (constructor; [Z.div_mod_to_equations; lia|]). exact IH.
Qed.


Lemma buffer_push buf s : is_sextet s -> Z.lor (Z.shiftl buf 6) s = buf * 64 + s.
Proof. intros Hs. apply (lor_shiftl_add buf 6 s); [lia|exact Hs]. Qed.

Lemma atob_loop_4 s1 s2 s3 s4 rest :
  is_sextet s1 -> is_sextet s2 -> is_sextet s3 -> is_sextet s4 ->
  let n := ((s1 * 64 + s2) * 64 + s3) * 64 + s4 in
  atob_loop 0 0 (s1 :: s2 :: s3 :: s4 :: rest) =
  (n / 65536) mod 256 :: (n / 256) mod 256 :: n mod 256 :: atob_loop 0 0 rest.
Proof.
  intros H1 H2 H3 H4 n.
  change (atob_loop 0 0 (s1 :: s2 :: s3 :: s4 :: rest)) with
    (let buf := Z.lor (Z.shiftl (Z.lor (Z.shiftl (Z.lor (Z.shiftl (Z.lor (Z.shiftl 0 6) s1) 6) s2) 6) s3) 6) s4 in
     Z.land (Z.shiftr buf 16) 0xFF :: Z.land (Z.shiftr buf 8) 0xFF :: Z.land buf 0xFF ::
     atob_loop 0 0 rest).
  cbv zeta. rewrite !buffer_push by assumption. rewrite !land_255, !Z.shiftr_div_pow2 by lia.
  reflexivity.
Qed.

Lemma atob_loop_3 s1 s2 s3 :
  is_sextet s1 -> is_sextet s2 -> is_sextet s3 ->
  let n := (s1 * 64 + s2) * 64 + s3 in
  atob_loop 0 0 [s1; s2; s3] = [(n / 1024) mod 256; (n / 4) mod 256].
Proof.
  intros H1 H2 H3 n.
  change (atob_loop 0 0 [s1; s2; s3]) with
    (let buf := Z.lor (Z.shiftl (Z.lor (Z.shiftl (Z.lor (Z.shiftl 0 6) s1) 6) s2) 6) s3 in
     [Z.land (Z.shiftr buf 10) 0xFF; Z.land (Z.shiftr buf 2) 0xFF]).
  cbv zeta. rewrite !buffer_push by assumption. rewrite !land_255, !Z.shiftr_div_pow2 by lia.
  reflexivity.
Qed.

Lemma atob_loop_2 s1 s2 :
  is_sextet s1 -> is_sextet s2 ->
  atob_loop 0 0 [s1; s2] = [((s1 * 64 + s2) / 16) mod 256].
Proof.
  intros H1 H2.
  change (atob_loop 0 0 [s1; s2]) with
    (let buf := Z.lor (Z.shiftl (Z.lor (Z.shiftl 0 6) s1) 6) s2 in
     [Z.land (Z.shiftr buf 4) 0xFF]).
  cbv zeta. rewrite !buffer_push by assumption. rewrite !land_255, !Z.shiftr_div_pow2 by lia.
  reflexivity.
Qed.

Lemma atob_loop_sextets bs : Forall is_byte bs -> atob_loop 0 0 (sextets bs) = bs.
Proof.
  induction bs as [|a|a b|a b c rest IH] using list_ind3; intros Hbs.
  - reflexivity.
  - pose proof (sextets_range _ Hbs) as Hs. cbn [sextets] in *.
    inversion_clear Hs as [|? ? H1 Hs']. inversion_clear Hs' as [|? ? H2 _].
    rewrite atob_loop_2 by assumption.
    inversion_clear Hbs as [|? ? Ha _]. sextet_arith.
    unfold is_byte in *. f_equal. Z.div_mod_to_equations; lia.
  - pose proof (sextets_range _ Hbs) as Hs. cbn [sextets] in *.
    inversion_clear Hs as [|? ? H1 Hs']. inversion_clear Hs' as [|? ? H2 Hs''].
    inversion_clear Hs'' as [|? ? H3 _].
    rewrite atob_loop_3 by assumption.
    inversion_clear Hbs as [|? ? Ha Hbs']. inversion_clear Hbs' as [|? ? Hb _]. sextet_arith.
    unfold is_byte in *. f_equal; [|f_equal]; Z.div_mod_to_equations; lia.
  - pose proof (sextets_range _ Hbs) as Hs. cbn [sextets] in *.
    inversion_clear Hs as [|? ? H1 Hs']. inversion_clear Hs' as [|? ? H2 Hs''].
    inversion_clear Hs'' as [|? ? H3 Hs']. inversion_clear Hs' as [|? ? H4 _].
    rewrite atob_loop_4 by assumption.
    inversion_clear Hbs as [|? ? Ha Hbs']. inversion_clear Hbs' as [|? ? Hb Hbs''].
    inversion_clear Hbs'' as [|? ? Hc Hrest]. rewrite (IH Hrest). sextet_arith.
    unfold is_byte in *. f_equal; [|f_equal; [|f_equal]]; Z.div_mod_to_equations; lia.
Qed.


Lemma b64char_alphabet i : is_sextet i ->
  let c := b64char i in
  65 <= c <= 90 \/ 97 <= c <= 122 \/ 48 <= c <= 57 \/ c = 43 \/ c = 47.
Proof. unfold is_sextet, b64char. intros Hi. cbv zeta. zcases. Qed.

Lemma b64index_b64char i : is_sextet i -> b64index (b64char i) = Some i.
Proof.
  intros Hi. pose proof (b64char_alphabet i Hi) as Hc. cbv zeta in Hc.
  unfold b64index. unfold is_sextet, b64char in *.
  destruct (i <? 26) eqn:E1; [apply Z.ltb_lt in E1|apply Z.ltb_ge in E1;
  destruct (i <? 52) eqn:E2; [apply Z.ltb_lt in E2|apply Z.ltb_ge in E2;
  destruct (i <? 62) eqn:E3; [apply Z.ltb_lt in E3|apply Z.ltb_ge in E3;
  destruct (i =? 62) eqn:E4; [apply Z.eqb_eq in E4|apply Z.eqb_neq in E4]]]];
  zcases; cbn [andb]; f_equal; lia.
Qed.

Lemma b64char_plain i : is_sextet i ->
  is_ascii_whitespace (b64char i) = false /\ (b64char i =? 61) = false.
Proof.
  intros Hi. pose proof (b64char_alphabet i Hi) as Hc. cbv zeta in Hc.
  unfold is_ascii_whitespace. generalize dependent (b64char i). intros c Hc.
  split; zcases; reflexivity.
Qed.

Lemma body_plain ss : Forall is_sextet ss -> Forall plain (map b64char ss).
Proof. intros H. apply Forall_fmap. eapply Forall_impl; [exact H|]. apply b64char_plain. Qed.

Lemma filter_whitespace_id (l : list Z) :
  Forall (fun c => is_ascii_whitespace c = false) l ->
  filter (fun c => is_ascii_whitespace c = false) l = l.
Proof.
  induction 1 as [|c l Hc _ IH]; [reflexivity|].
  rewrite filter_cons_True by exact Hc. by rewrite IH.
Qed.

Lemma mapM_b64index ss : Forall is_sextet ss -> mapM b64index (map b64char ss) = Some ss.
Proof.
  induction 1 as [|s ss Hs _ IH]; [reflexivity|].
  cbn [map mapM]. rewrite b64index_b64char by assumption. cbn. rewrite IH. reflexivity.
Qed.

(** The three shapes of an encoding: the number of six-bit groups
    modulo four decides the padding. *)
Lemma encoding_shape bs :
  (padding bs = [] /\ Z.of_nat (length (sextets bs)) mod 4 = 0) \/
  (padding bs = [61; 61] /\ Z.of_nat (length (sextets bs)) mod 4 = 2) \/
  (padding bs = [61] /\ Z.of_nat (length (sextets bs)) mod 4 = 3).
Proof.
  induction bs as [|a|a b|a b c rest IH] using list_ind3.
  - left. split; reflexivity.
  - right; left. split; reflexivity.
  - right; right. split; reflexivity.
  - cbn [padding sextets length].
    replace (Z.of_nat (S (S (S (S (length (sextets rest)))))))
      with (Z.of_nat (length (sextets rest)) + 1 * 4) by lia.
    rewrite Z.mod_add by lia. exact IH.
Qed.

Lemma strip_padding_encoded ss pad :
  Forall plain ss ->
  (pad = [] /\ Z.of_nat (length ss) mod 4 = 0) \/
  (pad = [61; 61] /\ Z.of_nat (length ss) mod 4 = 2) \/
  (pad = [61] /\ Z.of_nat (length ss) mod 4 = 3) ->
  strip_padding (ss ++ pad) = ss.
Proof.
  intros Hss Hshape. unfold strip_padding.
  assert (Hrev : Forall plain (reverse ss)) by (by apply Forall_reverse).
  pose proof (reverse_involutive ss) as Hinv.
  destruct Hshape as [[-> Hlen]|[[-> Hlen]|[-> Hlen]]].
  - rewrite app_nil_r, Hlen. change (0 =? 0) with true. cbv iota.
    destruct (reverse ss) as [|c1 r1]; [reflexivity|].
    inversion_clear Hrev as [|? ? [_ Hc1] _]. by rewrite Hc1.
  - rewrite length_app. cbn [length].
    replace (Z.of_nat (length ss + 2)) with (Z.of_nat (length ss) + 2) by lia.
    rewrite <- Zplus_mod_idemp_l, Hlen. change ((2 + 2) mod 4 =? 0) with true. cbv iota.
    rewrite reverse_app. change (reverse [61; 61]) with [61; 61]. cbn [app].
    change (61 =? 61) with true. cbv iota. exact Hinv.
  - rewrite length_app. cbn [length].
    replace (Z.of_nat (length ss + 1)) with (Z.of_nat (length ss) + 1) by lia.
    rewrite <- Zplus_mod_idemp_l, Hlen. change ((3 + 1) mod 4 =? 0) with true. cbv iota.
    rewrite reverse_app. change (reverse [61]) with [61]. cbn [app].
    change (61 =? 61) with true. cbv iota.
    destruct (reverse ss) as [|c2 r2]; [exact Hinv|].
    inversion_clear Hrev as [|? ? [_ Hc2] _]. rewrite Hc2. exact Hinv.
Qed.

Theorem forgiving_base64_decode_encode bs :
  Forall is_byte bs -> forgiving_base64_decode (base64_encode bs) = Some bs.
Proof.
  intros Hbs. unfold forgiving_base64_decode.
  rewrite base64_encode_split.
  pose proof (sextets_range _ Hbs) as Hss.
  pose proof (body_plain _ Hss) as Hplain.
  pose proof (encoding_shape bs) as Hshape.
  rewrite filter_whitespace_id.
  2:{ apply Forall_app. split.
      - eapply Forall_impl; [exact Hplain|]. by intros c [? _].
      - destruct Hshape as [[-> _]|[[-> _]|[-> _]]]; repeat constructor. }
  rewrite strip_padding_encoded; [|assumption|by rewrite length_map].
  rewrite length_map.
  assert ((Z.of_nat (length (sextets bs)) mod 4 =? 1) = false) as ->.
  { apply Z.eqb_neq. destruct Hshape as [[_ ->]|[[_ ->]|[_ ->]]]; lia. }
  rewrite mapM_b64index by assumption. cbn.
  by rewrite atob_loop_sextets.
Qed.

End Base64Facts.

(** ** The envelope codec (crypto.js) *)

Import Crypto.

Lemma utf8_encode_cp_bytes cp : is_scalar cp -> Forall is_byte (utf8_encode_cp cp).
Proof.
  intros [Hcp _]. unfold utf8_encode_cp, is_byte.
  zcases; bits2arith; repeat (constructor; [Z.div_mod_to_equations; lia|]); constructor.
Qed.

Lemma encode_bytes s : Forall is_code_unit s -> Forall is_byte (encode s).
Proof.
  intros Hs. unfold encode. apply Forall_concat, Forall_fmap.
  eapply Forall_impl; [exact (to_scalar_values_scalar s Hs)|]. apply utf8_encode_cp_bytes.
Qed.

Lemma getRandomValues_bytes n g : Forall is_byte (fst (getRandomValues n g)).
Proof.
  cbn. apply Forall_fmap, Forall_forall. intros i _. cbn.
  unfold is_byte. apply Z.mod_pos_bound. lia.
Qed.

Lemma getRandomValues_length n g : length (fst (getRandomValues n g)) = n.
Proof. cbn. by rewrite length_map, length_seq. Qed.

Lemma b64encode_ok bs : Forall is_byte bs -> b64encode bs = Ok (base64_encode bs).
Proof.
  intros Hbs. unfold b64encode, btoa, String_fromCharCode.
  assert (map (fun c => c mod 0x10000) bs = bs) as ->.
  { induction Hbs as [|b bs Hb _ IH]; [reflexivity|]. cbn [map]. rewrite IH.
    unfold is_byte in Hb. rewrite Z.mod_small by lia. reflexivity. }
  assert (forallb (fun c => c <=? 0xFF) bs = true) as ->; [|reflexivity].
  apply forallb_forall. intros b Hb. apply Z.leb_le.
  rewrite Forall_forall in Hbs. apply list_elem_of_In in Hb. specialize (Hbs b Hb).
  unfold is_byte in Hbs. lia.
Qed.

Lemma b64decode_encoded bs : Forall is_byte bs -> b64decode (base64_encode bs) = Ok bs.
Proof.
  intros Hbs. unfold b64decode, atob.
  rewrite forgiving_base64_decode_encode by assumption. cbn [result_bind].
  f_equal. unfold Uint8Array_from_charCodes.
  induction Hbs as [|b bs Hb _ IH]; [reflexivity|]. cbn [map]. rewrite IH.
  unfold is_byte in Hb. rewrite Z.mod_small by lia. reflexivity.
Qed.

Lemma b64decode_bytes str bs : b64decode str = Ok bs -> Forall is_byte bs.
Proof.
  unfold b64decode. destruct (atob str) as [s|e]; [|discriminate]. cbn.
  intros [= <-]. unfold Uint8Array_from_charCodes. apply Forall_fmap, Forall_forall.
  intros c _. cbn. unfold is_byte. apply Z.mod_pos_bound. lia.
Qed.

Section CryptoFacts.
Context {SC : SubtleCrypto}.

(** The envelope [encrypt] returns, spelled out. *)
Lemma encrypt_envelope plaintext password g :
  Forall is_code_unit plaintext ->
  let salt := fst (getRandomValues SALT_BYTES g) in
  let g1 := snd (getRandomValues SALT_BYTES g) in
  let iv := fst (getRandomValues IV_BYTES g1) in
  let key := deriveKey password salt in
  fst (encrypt plaintext password g) =
  Ok (mkEnvelope (base64_encode salt) (base64_encode iv)
        (base64_encode (AES_GCM_encrypt key iv (Text.encode plaintext)))).
Proof.
  intros HP. cbv zeta. unfold encrypt.
  destruct (getRandomValues SALT_BYTES g) as [s g1] eqn:Es.
  destruct (getRandomValues IV_BYTES g1) as [i g2] eqn:Ei.
  cbn [fst snd].
  pose proof (getRandomValues_bytes SALT_BYTES g) as Hs. rewrite Es in Hs.
  pose proof (getRandomValues_bytes IV_BYTES g1) as Hi. rewrite Ei in Hi.
  cbn [fst] in Hs, Hi.
  rewrite !b64encode_ok by (assumption || apply AES_GCM_encrypt_bytes, encode_bytes, HP).
  rewrite Ei. reflexivity.
Qed.

(** Decryption depends on the password only through the derived key. *)
Lemma decrypt_encrypt_key plaintext W1 W2 g env :
  Forall is_code_unit plaintext ->
  fst (encrypt plaintext W1 g) = Ok env ->
  deriveKey W2 (fst (getRandomValues SALT_BYTES g)) =
  deriveKey W1 (fst (getRandomValues SALT_BYTES g)) ->
  decrypt env W2 = Ok (strip_bom (toWellFormed plaintext)).
Proof.
  intros HP Henv Hkey. rewrite encrypt_envelope in Henv by exact HP. cbv zeta in Henv.
  pose proof (getRandomValues_bytes SALT_BYTES g) as Hs.
  pose proof (getRandomValues_bytes IV_BYTES (snd (getRandomValues SALT_BYTES g))) as Hi.
  set (s := fst (getRandomValues SALT_BYTES g)) in *.
  set (i := fst (getRandomValues IV_BYTES _)) in *.
  clearbody s i.
  injection Henv as <-. unfold decrypt. cbn [salt iv ciphertext].
  rewrite !b64decode_encoded by (assumption || apply AES_GCM_encrypt_bytes, encode_bytes, HP).
  cbn [result_bind]. rewrite Hkey.
  rewrite AES_GCM_decrypt_encrypt by (by apply encode_bytes).
  by rewrite decode_encode.
Qed.

(** What a round trip through the codec returns, for any string. *)
Theorem decrypt_encrypt plaintext password g :
  Forall is_code_unit plaintext ->
  exists env, fst (encrypt plaintext password g) = Ok env /\
    decrypt env password = Ok (strip_bom (toWellFormed plaintext)).
Proof.
  intros HP. eexists. split; [by apply encrypt_envelope|].
  eapply decrypt_encrypt_key; [exact HP|by apply encrypt_envelope|reflexivity].
Qed.


(** Whatever [decrypt] returns is a string. *)
Lemma decrypt_code_units payload password s :
  decrypt payload password = Ok s -> Forall is_code_unit s.
Proof.
  unfold decrypt.
  destruct (b64decode (salt payload)) as [sa|] eqn:Es; [|discriminate].
  destruct (b64decode (iv payload)) as [i|] eqn:Ei; [|discriminate].
  destruct (b64decode (ciphertext payload)) as [c|] eqn:Ec; [|discriminate].
  cbn [result_bind].
  destruct (AES_GCM_decrypt _ i c) as [m|] eqn:Ed; [|discriminate].
  intros [= <-]. apply decode_code_units.
  eapply AES_GCM_decrypt_bytes; [|exact Ed]. eapply b64decode_bytes, Ec.
Qed.


End CryptoFacts.

Ltac by_compute := apply (bool_decide_unpack _); vm_compute; exact I.

Section Claims_Codec.


(** Likewise a lone surrogate comes back as U+FFFD. *)
Example round_trip_lone_surrogate :
  let env := mkEnvelope (js "AAECAwQFBgcICQoLDA0ODw==") (js "EBESExQVFhcYGRob")
               (js "Ae+/vQ==") in
  fst (@encrypt toy_crypto [0xD800] (js "hunter2duck") toy_rng) = Ok env /\
  @decrypt toy_crypto env (js "hunter2duck") = Ok [0xFFFD].
Proof. split; vm_compute; reflexivity. Qed.






End Claims_Codec.

(** ** Computations: what they leave alone *)

Section Frames.
Context {X : Type} (f : World -> X).

Lemma preserves_ret {A} (a : A) : preserves f (ret a).
Proof. by intros w. Qed.

Lemma preserves_throw {A} e : preserves f (@throw A e).
Proof. by intros w. Qed.

Lemma preserves_lift {A} (r : result A) : preserves f (lift r).
Proof. by intros w. Qed.

Lemma preserves_gets {A} (g : World -> A) : preserves f (gets g).
Proof. by intros w. Qed.

Lemma preserves_bind {A B} (m : M A) (k : A -> M B) :
  preserves f m -> (forall a, preserves f (k a)) -> preserves f (bind m k).
Proof.
  intros Hm Hk w. unfold bind. specialize (Hm w).
  destruct (m w) as [[a|e] w1]; cbn [snd] in *; [|exact Hm].
  rewrite Hk. exact Hm.
Qed.

Lemma preserves_try_catch {A} (m h : M A) :
  preserves f m -> preserves f h -> preserves f (try_catch m h).
Proof.
  intros Hm Hh w. unfold try_catch. specialize (Hm w).
  destruct (m w) as [[a|e] w1]; cbn [snd] in *; [exact Hm|].
  rewrite Hh. exact Hm.
Qed.

Lemma preserves_modify (g : World -> World) :
  (forall w, f (g w) = f w) -> preserves f (modify g).
Proof. intros Hg w. apply Hg. Qed.

End Frames.

Create HintDb frame discriminated.
#[export] Hint Resolve preserves_ret preserves_throw preserves_lift preserves_gets : frame.

Ltac frame :=
  repeat first
    [ apply preserves_ret | apply preserves_throw | apply preserves_lift
    | apply preserves_gets | apply preserves_bind | apply preserves_try_catch
    | progress (eauto with frame)
    | match goal with
      | |- forall _, _ => intro
      | |- preserves _ (match ?x with _ => _ end) => destruct x
      | |- preserves _ (if ?x then _ else _) => destruct x
      end ].

Section StorageFacts.
Context {J : JSON}.

Lemma fetch_localStorage req : preserves localStorage (fetch req).
Proof.
  intros w. unfold fetch.
  destruct (head (network w)) as [[| |s]|]; try reflexivity;
    destruct (serve req (remote w)); reflexivity.
Qed.

Lemma fetch_state req : preserves state (fetch req).
Proof.
  intros w. unfold fetch.
  destruct (head (network w)) as [[| |s]|]; try reflexivity;
    destruct (serve req (remote w)); reflexivity.
Qed.

Lemma fetch_lockTimer req : preserves lockTimer (fetch req).
Proof.
  intros w. unfold fetch.
  destruct (head (network w)) as [[| |s]|]; try reflexivity;
    destruct (serve req (remote w)); reflexivity.
Qed.

Lemma fetch_rng req : preserves rng (fetch req).
Proof.
  intros w. unfold fetch.
  destruct (head (network w)) as [[| |s]|]; try reflexivity;
    destruct (serve req (remote w)); reflexivity.
Qed.

Hint Resolve fetch_localStorage fetch_state fetch_lockTimer fetch_rng : frame.

Lemma getConfig_pure w : snd (GitHub.getConfig w) = w.
Proof.
  unfold GitHub.getConfig, bind, getItem, gets.
  destruct (localStorage w !! GitHub.CFG_KEY) as [[|c r]|]; reflexivity.
Qed.

Lemma isConfigured_pure w : snd (GitHub.isConfigured w) = w.
Proof.
  unfold GitHub.isConfigured, bind. pose proof (getConfig_pure w) as H.
  destruct (GitHub.getConfig w) as [[cfg|e] w1]; cbn [snd] in *; subst; reflexivity.
Qed.

Lemma getConfig_preserves {X} (f : World -> X) : preserves f GitHub.getConfig.
Proof. intros w. by rewrite getConfig_pure. Qed.

Lemma isConfigured_preserves {X} (f : World -> X) : preserves f GitHub.isConfigured.
Proof. intros w. by rewrite isConfigured_pure. Qed.

Hint Resolve getConfig_preserves isConfigured_preserves : frame.

Lemma res_json_preserves {X} (f : World -> X) res : preserves f (res_json res).
Proof. unfold res_json. frame. Qed.
Hint Resolve res_json_preserves : frame.

Lemma push_localStorage e : preserves localStorage (GitHub.push e).
Proof. unfold GitHub.push, GitHub.getFileSha. frame. Qed.

Lemma pull_localStorage : preserves localStorage GitHub.pull.
Proof. unfold GitHub.pull. frame. Qed.

Lemma push_state e : preserves state (GitHub.push e).
Proof. unfold GitHub.push, GitHub.getFileSha. frame. Qed.

Lemma pull_state : preserves state GitHub.pull.
Proof. unfold GitHub.pull. frame. Qed.


Lemma syncToGitHub_localStorage e : preserves localStorage (Storage.syncToGitHub e).
Proof. unfold Storage.syncToGitHub. frame. Qed.

Lemma syncFromGitHub_localStorage : preserves localStorage Storage.syncFromGitHub.
Proof. unfold Storage.syncFromGitHub. frame. Qed.

(** Reading the local store looks at localStorage only. *)
Lemma loadLocal_spec w :
  Storage.loadLocal w =
  (match localStorage w !! Storage.VAULT_KEY with
   | Some (c :: r) => JSON_parse_envelope (c :: r)
   | _ => Ok None
   end, w).
Proof.
  unfold Storage.loadLocal, bind, getItem, gets.
  destruct (localStorage w !! Storage.VAULT_KEY) as [[|c r]|]; reflexivity.
Qed.

Lemma hasPending_spec w :
  Storage.hasPending w = (Ok (truthy (localStorage w !! Storage.PENDING_KEY)), w).
Proof. reflexivity. Qed.

Lemma loadLocal_written e w :
  localStorage w !! Storage.VAULT_KEY = Some (JSON_stringify_envelope e) ->
  fst (Storage.loadLocal w) = Ok (Some e).
Proof.
  intros H. rewrite loadLocal_spec, H. cbn [fst].
  pose proof (JSON_stringify_envelope_truthy e) as Ht.
  pose proof (JSON_parse_stringify_envelope e) as Hp.
  destruct (JSON_stringify_envelope e); [discriminate Ht|exact Hp].
Qed.

Lemma saveLocal_spec e w :
  Storage.saveLocal e w =
  (Ok tt, set_localStorage <[Storage.VAULT_KEY := JSON_stringify_envelope e]> w).
Proof. reflexivity. Qed.

Lemma syncToGitHub_cases e w :
  match fst (GitHub.isConfigured w) with
  | Ok true => Storage.syncToGitHub e w = GitHub.push e w
  | Ok false => Storage.syncToGitHub e w = (Ok tt, w)
  | Throw ex => Storage.syncToGitHub e w = (Throw ex, w)
  end.
Proof.
  unfold Storage.syncToGitHub, bind. pose proof (isConfigured_pure w) as Hpure.
  destruct (GitHub.isConfigured w) as [[[]|ex] w2]; cbn [fst snd] in *; subst; reflexivity.
Qed.

Lemma syncFromGitHub_cases w :
  match fst (GitHub.isConfigured w) with
  | Ok true => Storage.syncFromGitHub w = GitHub.pull w
  | Ok false => Storage.syncFromGitHub w = (Ok None, w)
  | Throw ex => Storage.syncFromGitHub w = (Throw ex, w)
  end.
Proof.
  unfold Storage.syncFromGitHub, bind. pose proof (isConfigured_pure w) as Hpure.
  destruct (GitHub.isConfigured w) as [[[]|ex] w2]; cbn [fst snd] in *; subst; reflexivity.
Qed.

(** Whether a remote is configured is decided by one key of localStorage. *)
Lemma isConfigured_ext w1 w2 :
  localStorage w1 !! GitHub.CFG_KEY = localStorage w2 !! GitHub.CFG_KEY ->
  fst (GitHub.isConfigured w1) = fst (GitHub.isConfigured w2).
Proof.
  intros H. unfold GitHub.isConfigured, GitHub.getConfig, bind, getItem, gets, lift, ret.
  rewrite H. destruct (localStorage w2 !! GitHub.CFG_KEY) as [[|c r]|]; try reflexivity.
  destruct (JSON_parse_config (c :: r)) as [[cfg|]|ex]; reflexivity.
Qed.

(** What [save] does, by the outcome of the synchronisation. *)
Lemma save_spec e w :
  let w1 := snd (Storage.saveLocal e w) in
  Storage.save e w =
  match Storage.syncToGitHub e w1 with
  | (Ok _, w2) => (Ok tt, set_localStorage (delete Storage.PENDING_KEY) w2)
  | (Throw _, w2) => (Ok tt, set_localStorage <[Storage.PENDING_KEY := js "1"]> w2)
  end.
Proof.
  cbv zeta. unfold Storage.save. unfold bind at 1. rewrite saveLocal_spec. cbn [snd].
  unfold try_catch, bind.
  destruct (Storage.syncToGitHub e _) as [[[]|ex] w2]; reflexivity.
Qed.

Lemma save_ok e w : fst (Storage.save e w) = Ok tt.
Proof.
  rewrite save_spec. cbv zeta.
  destruct (Storage.syncToGitHub e _) as [[[]|ex] w2]; reflexivity.
Qed.

Lemma save_loadLocal e w : fst (Storage.loadLocal (snd (Storage.save e w))) = Ok (Some e).
Proof.
  rewrite save_spec. cbv zeta.
  pose proof (syncToGitHub_localStorage e (snd (Storage.saveLocal e w))) as Hls.
  assert (Hw1 : localStorage (snd (Storage.saveLocal e w)) !! Storage.VAULT_KEY =
                Some (JSON_stringify_envelope e)).
  { rewrite saveLocal_spec. cbn. apply lookup_insert_eq. }
  destruct (Storage.syncToGitHub e _) as [[[]|ex] w2]; cbn [fst snd] in *;
    apply loadLocal_written; cbn [localStorage set_localStorage]; rewrite Hls.
  - rewrite lookup_delete_ne by discriminate. exact Hw1.
  - rewrite lookup_insert_ne by discriminate. exact Hw1.
Qed.

(** C4: for every envelope, Storage.save(envelope) always writes the
    envelope to the Local Store first; it then attempts the remote
    push, clearing the pending flag when the push succeeds and, on any
    push failure, setting the pending flag and swallowing the error, so
    save never propagates a remote failure to the caller. *)
Theorem C4_save_local_first_then_push (e : Crypto.Envelope) (w : World) :
  let w1 := snd (Storage.saveLocal e w) in
  let w' := snd (Storage.save e w) in
  (* the local write comes first and survives *)
  fst (Storage.loadLocal w1) = Ok (Some e) /\
  fst (Storage.loadLocal w') = Ok (Some e) /\
  (* what follows is the push, when a remote is configured *)
  match fst (GitHub.isConfigured w1) with
  | Ok true => Storage.syncToGitHub e w1 = GitHub.push e w1
  | Ok false => Storage.syncToGitHub e w1 = (Ok tt, w1)
  | Throw ex => Storage.syncToGitHub e w1 = (Throw ex, w1)
  end /\
  (* the flag records its outcome *)
  match fst (Storage.syncToGitHub e w1) with
  | Ok _ => fst (Storage.hasPending w') = Ok false
  | Throw _ => fst (Storage.hasPending w') = Ok true
  end /\
  (* the remote is as the push left it *)
  remote w' = remote (snd (Storage.syncToGitHub e w1)) /\
  fetches w' = fetches (snd (Storage.syncToGitHub e w1)) /\
  (* and nothing is thrown *)
  fst (Storage.save e w) = Ok tt.
Proof.
  cbv zeta. rewrite save_spec. cbv zeta.
  pose proof (syncToGitHub_localStorage e (snd (Storage.saveLocal e w))) as Hls.
  assert (Hw1 : localStorage (snd (Storage.saveLocal e w)) !! Storage.VAULT_KEY =
                Some (JSON_stringify_envelope e)).
  { rewrite saveLocal_spec. cbn. apply lookup_insert_eq. }
  split; [by apply loadLocal_written|].
  split.
  { destruct (Storage.syncToGitHub e _) as [[[]|ex] w2]; cbn [fst snd] in *;
      apply loadLocal_written; cbn [localStorage set_localStorage]; rewrite Hls.
    - rewrite lookup_delete_ne by discriminate. exact Hw1.
    - rewrite lookup_insert_ne by discriminate. exact Hw1. }
  split.
  { apply syncToGitHub_cases. }
  destruct (Storage.syncToGitHub e _) as [[[]|ex] w2]; cbn [fst snd];
    rewrite hasPending_spec; cbn [fst localStorage set_localStorage].
  - by rewrite lookup_delete_eq.
  - by rewrite lookup_insert_eq.
Qed.


(** What [load] does, by the outcome of the pull. *)
Lemma load_spec w :
  Storage.load w =
  match Storage.syncFromGitHub w with
  | (Ok (Some r), w1) =>
    (Ok (Some r), set_localStorage <[Storage.VAULT_KEY := JSON_stringify_envelope r]> w1)
  | (_, w1) => Storage.loadLocal w1
  end.
Proof.
  unfold Storage.load. unfold bind at 1. unfold try_catch. unfold bind at 1.
  destruct (Storage.syncFromGitHub w) as [[[r|]|ex] w1]; try reflexivity.
Qed.



(** C5: Storage.load() attempts the remote pull first; whenever the
    pull succeeds and returns an envelope, that envelope overwrites the
    Local Store's copy and is the value returned; whenever the pull
    fails for any reason or returns absent, load() returns the Local
    Store's envelope instead. *)
Theorem C5_load_remote_first_else_local (w : World) :
  let w' := snd (Storage.load w) in
  (* the pull comes first, when a remote is configured *)
  match fst (GitHub.isConfigured w) with
  | Ok true => Storage.syncFromGitHub w = GitHub.pull w
  | Ok false => Storage.syncFromGitHub w = (Ok None, w)
  | Throw ex => Storage.syncFromGitHub w = (Throw ex, w)
  end /\
  fetches w' = fetches (snd (Storage.syncFromGitHub w)) /\
  match fst (Storage.syncFromGitHub w) with
  | Ok (Some r) =>
    (* returned, and now the Local Store's copy *)
    fst (Storage.load w) = Ok (Some r) /\
    fst (Storage.loadLocal w') = Ok (Some r)
  | Ok None | Throw _ =>
    (* the Local Store's envelope, which stays as it was *)
    fst (Storage.load w) = fst (Storage.loadLocal w) /\
    localStorage w' = localStorage w
  end.
Proof.
  cbv zeta. split; [apply syncFromGitHub_cases|].
  rewrite load_spec. pose proof (syncFromGitHub_localStorage w) as Hls.
  destruct (Storage.syncFromGitHub w) as [[[r|]|ex] w1]; cbn [fst snd] in *.
  - split; [reflexivity|]. split; [reflexivity|].
    apply loadLocal_written. cbn. apply lookup_insert_eq.
  - rewrite !loadLocal_spec, Hls. cbn [fst snd]. by split.
  - rewrite !loadLocal_spec, Hls. cbn [fst snd]. by split.
Qed.

(** C9: when no remote store is configured (GitHub config absent or
    incomplete), Storage.save(envelope) still clears the pending flag
    after the local write even though no push was attempted, so a
    pending flag set by an earlier failed push is cleared without the
    data ever reaching the remote. *)
Theorem C9_save_unconfigured_clears_pending (e : Crypto.Envelope) (w : World) :
  fst (GitHub.isConfigured w) = Ok false ->
  let w' := snd (Storage.save e w) in
  fst (Storage.save e w) = Ok tt /\
  fst (Storage.loadLocal w') = Ok (Some e) /\
  fst (Storage.hasPending w') = Ok false /\
  fetches w' = fetches w /\
  remote w' = remote w.
Proof.
  intros Hcfg. cbv zeta. rewrite save_spec. cbv zeta.
  pose proof (syncToGitHub_cases e (snd (Storage.saveLocal e w))) as Hsync.
  rewrite (isConfigured_ext _ w), Hcfg in Hsync.
  2:{ rewrite saveLocal_spec. cbn. by rewrite lookup_insert_ne. }
  rewrite Hsync. cbn [fst snd]. rewrite saveLocal_spec. cbn [snd].
  split; [reflexivity|]. split; [|split; [|split; reflexivity]].
  - apply loadLocal_written. cbn. rewrite lookup_delete_ne by discriminate.
    apply lookup_insert_eq.
  - rewrite hasPending_spec. cbn. by rewrite lookup_delete_eq.
Qed.

End StorageFacts.

#[export] Hint Resolve fetch_localStorage fetch_state fetch_lockTimer fetch_rng
  getConfig_preserves isConfigured_preserves res_json_preserves : frame.

(** ** The session controller (app.js) *)

Section AppFacts.
Context {SC : SubtleCrypto} {J : JSON}.

Lemma load_state : preserves state Storage.load.
Proof. unfold Storage.load, Storage.syncFromGitHub, Storage.saveLocal, Storage.loadLocal,
  GitHub.pull, setItem, getItem. frame. all: by apply preserves_modify. Qed.


Lemma load_lockTimer : preserves lockTimer Storage.load.
Proof. unfold Storage.load, Storage.syncFromGitHub, Storage.saveLocal, Storage.loadLocal,
  GitHub.pull, setItem, getItem. frame. all: by apply preserves_modify. Qed.

(** [Crypto_encrypt] always returns an envelope. *)
Lemma Crypto_encrypt_spec plaintext password w :
  Forall is_code_unit plaintext ->
  exists env,
    Crypto_encrypt plaintext password w = (Ok env, set_rng (snd (encrypt plaintext password (rng w))) w) /\
    fst (encrypt plaintext password (rng w)) = Ok env.
Proof.
  intros HP. destruct (decrypt_encrypt plaintext password (rng w) HP) as (env & Henv & _).
  exists env. split; [|exact Henv]. unfold Crypto_encrypt.
  destruct (encrypt plaintext password (rng w)) as [r g]. cbn [fst snd] in *. by subst.
Qed.


Lemma save_state e : preserves state (Storage.save e).
Proof. unfold Storage.save, Storage.saveLocal, Storage.syncToGitHub, Storage.clearPending,
  Storage.markPending, GitHub.push, GitHub.getFileSha, setItem, removeItem.
  frame. all: by apply preserves_modify. Qed.

Lemma save_lockTimer e : preserves lockTimer (Storage.save e).
Proof. unfold Storage.save, Storage.saveLocal, Storage.syncToGitHub, Storage.clearPending,
  Storage.markPending, GitHub.push, GitHub.getFileSha, setItem, removeItem.
  frame. all: by apply preserves_modify. Qed.

(** [persistVault], when there is a vault and a non-empty password. *)
Lemma persistVault_eq w v c pw :
  vault (state w) = Some v -> password (state w) = Some (c :: pw) ->
  exists env,
    fst (encrypt (JSON_stringify_vault v) (c :: pw) (rng w)) = Ok env /\
    let w2 := set_rng (snd (encrypt (JSON_stringify_vault v) (c :: pw) (rng w))) w in
    let w3 := snd (Storage.save env w2) in
    App.persistVault w =
    (Ok tt, set_state (set_pendingSync (truthy (localStorage w3 !! Storage.PENDING_KEY))) w3).
Proof.
  intros Hv Hp.
  destruct (Crypto_encrypt_spec (JSON_stringify_vault v) (c :: pw) w
              (JSON_stringify_vault_string v)) as (env & Henc & Henv).
  exists env. split; [exact Henv|]. cbv zeta.
  unfold App.persistVault. unfold bind at 1. cbn [gets]. rewrite Hv, Hp.
  unfold bind at 1. rewrite Henc.
  unfold bind at 1. pose proof (save_ok env (set_rng (snd (encrypt (JSON_stringify_vault v) (c :: pw) (rng w))) w)) as Hok.
  destruct (Storage.save env _) as [r w3]. cbn [fst snd] in *. subst r.
  unfold bind at 1. rewrite hasPending_spec. reflexivity.
Qed.

Lemma persistVault_spec w v c pw :
  vault (state w) = Some v -> password (state w) = Some (c :: pw) ->
  exists env,
    fst (encrypt (JSON_stringify_vault v) (c :: pw) (rng w)) = Ok env /\
    fst (App.persistVault w) = Ok tt /\
    fst (Storage.loadLocal (snd (App.persistVault w))) = Ok (Some env) /\
    session (snd (App.persistVault w)) = session w /\
    lockTimer (snd (App.persistVault w)) = lockTimer w.
Proof.
  intros Hv Hp. destruct (persistVault_eq w v c pw Hv Hp) as (env & Henv & Heq).
  exists env. split; [exact Henv|]. cbv zeta in Heq. rewrite Heq. cbn [fst snd].
  set (w2 := set_rng _ w).
  pose proof (save_loadLocal env w2) as Hll.
  pose proof (save_state env w2) as Hst. pose proof (save_lockTimer env w2) as Hlt.
  split; [reflexivity|]. split; [|split].
  - rewrite loadLocal_spec in *. exact Hll.
  - unfold session.
    cbn [state set_state set_pendingSync locked password vault activeTable searchQuery].
    by rewrite Hst.
  - cbn [lockTimer set_state]. exact Hlt.
Qed.

(** [persistVault] without a vault or without a password does nothing. *)
Lemma persistVault_skip w :
  vault (state w) = None \/ password (state w) = None \/ password (state w) = Some [] ->
  App.persistVault w = (Ok tt, w).
Proof.
  intros H. unfold App.persistVault, bind. cbn [gets].
  destruct (vault (state w)), (password (state w)) as [[|c pw]|];
    try reflexivity; destruct H as [H|[H|H]]; discriminate H.
Qed.

Lemma persistVault_session w :
  fst (App.persistVault w) = Ok tt /\
  session (snd (App.persistVault w)) = session w /\
  lockTimer (snd (App.persistVault w)) = lockTimer w.
Proof.
  destruct (vault (state w)) as [v|] eqn:Hv.
  2:{ rewrite persistVault_skip by auto. done. }
  destruct (password (state w)) as [[|c pw]|] eqn:Hp.
  1,3: rewrite persistVault_skip by auto; done.
  destruct (persistVault_spec w v c pw Hv Hp) as (env & _ & H1 & _ & H2 & H3). done.
Qed.


Lemma unlock_first_run pw w :
  fst (Storage.load w) = Ok None ->
  let w1 := snd (Storage.load w) in
  let w2 := set_state (first_run_state pw) w1 in
  let w3 := snd (App.persistVault w2) in
  App.unlock pw w = (Ok (mkUnlockResult true (Some true)), set_lockTimer true w3).
Proof.
  intros Hload. cbv zeta. unfold App.unlock. unfold bind at 1.
  destruct (Storage.load w) as [r0 w1]. cbn [fst snd] in *. subst r0.
  unfold bind at 1. cbn [modify]. fold (first_run_state pw).
  set (w2 := set_state (first_run_state pw) w1).
  destruct (persistVault_session w2) as (Hok & Hsess & _).
  unfold bind at 1. destruct (App.persistVault w2) as [r w3]. cbn [fst snd] in *. subst r.
  unfold bind at 1. unfold App.resetLockTimer. unfold bind at 1. cbn [gets].
  assert (Hl : locked (state w3) = false).
  { unfold session in Hsess. by injection Hsess as -> _ _ _ _. }
  rewrite Hl. reflexivity.
Qed.


Lemma unlock_wrong_password pw w payload :
  fst (Storage.load w) = Ok (Some payload) ->
  verify payload pw = false ->
  App.unlock pw w = (Ok (mkUnlockResult false None), snd (Storage.load w)).
Proof.
  intros Hload Hverify. unfold App.unlock. unfold bind at 1.
  destruct (Storage.load w) as [r0 w1]. cbn [fst snd] in *. subst r0.
  rewrite Hverify. reflexivity.
Qed.

(** C6: whenever an envelope exists and unlock(password) is called with
    a password that fails verification against it, unlock returns a
    distinguishable failure result and the session remains Locked with
    no partial state change: the vault stays null and the password is
    not stored in memory. *)
Theorem C6_unlock_wrong_password_no_change (pw : jsstring) (w : World)
    (payload : Envelope) :
  fst (Storage.load w) = Ok (Some payload) ->
  verify payload pw = false ->
  let w' := snd (App.unlock pw w) in
  fst (App.unlock pw w) = Ok (mkUnlockResult false None) /\
  state w' = state w /\
  lockTimer w' = lockTimer w.
Proof.
  intros Hload Hverify. cbv zeta.
  rewrite (unlock_wrong_password pw w payload Hload Hverify). cbn [fst snd].
  split; [reflexivity|]. split; [apply load_state|apply load_lockTimer].
Qed.



End AppFacts.

(** ** Scenarios, and the password change (ui.js) *)

Example fresh_world_first_run :
  fst (@App.unlock toy_crypto toy_json (js "hunter2duck") fresh_world) = first_run.
Proof. vm_compute. reflexivity. Qed.

(** Offline, [save] keeps the envelope locally and raises the flag; the
    next save that gets through lowers it. *)
Example save_offline_then_online :
  let e := mkEnvelope (js "AAECAwQFBgcICQoLDA0ODw==") (js "EBESExQVFhcYGRob") (js "AXt9") in
  let w := mkWorld {[ GitHub.CFG_KEY := js "me" ]} None [Unreachable] 0 toy_rng
             App.initial_state false in
  let w1 := snd (@Storage.save toy_json e w) in
  let w2 := snd (@Storage.save toy_json e w1) in
  fst (Storage.hasPending w1) = Ok true /\
  fst (@Storage.loadLocal toy_json w1) = Ok (Some e) /\
  remote w1 = None /\
  fst (Storage.hasPending w2) = Ok false /\
  @remote_envelope toy_json w2 = Some e.
Proof. vm_compute. repeat split; reflexivity. Qed.

(** [load] on the offline device falls back to the local copy; online
    it takes the remote one and caches it. *)
Example load_offline_and_online :
  let e := mkEnvelope (js "AAECAwQFBgcICQoLDA0ODw==") (js "EBESExQVFhcYGRob") (js "AXt9") in
  let online := mkWorld (localStorage offline_device) (remote offline_device) []
                  0 toy_rng App.initial_state false in
  fst (@Storage.load toy_json offline_device) = Ok None /\
  fst (@Storage.load toy_json online) = Ok (Some e) /\
  fst (@Storage.loadLocal toy_json (snd (@Storage.load toy_json online))) = Ok (Some e).
Proof. vm_compute. repeat split; reflexivity. Qed.

Example returning_user_locked :
  state (returning_user (js "hunter2duck")) = App.initial_state.
Proof. vm_compute. reflexivity. Qed.

Example returning_user_unlocks :
  fst (@App.unlock toy_crypto toy_json (js "hunter2duck") (returning_user (js "hunter2duck")))
  = Ok (mkUnlockResult true (Some false)).
Proof. vm_compute. reflexivity. Qed.

Example returning_user_wrong :
  fst (@App.unlock toy_crypto toy_json (js "wrongpass") (returning_user (js "hunter2duck")))
  = Ok (mkUnlockResult false None).
Proof. vm_compute. reflexivity. Qed.

Lemma C6_unlock_wrong_password_witness :
  let w := returning_user (js "hunter2duck") in
  let w' := snd (@App.unlock toy_crypto toy_json (js "wrongpass") w) in
  fst (@App.unlock toy_crypto toy_json (js "wrongpass") w) = Ok (mkUnlockResult false None) /\
  state w' = state w /\
  lockTimer w' = lockTimer w.
Proof.
  refine (@C6_unlock_wrong_password_no_change toy_crypto toy_json (js "wrongpass")
            (returning_user (js "hunter2duck"))
            (mkEnvelope (js "AAECAwQFBgcICQoLDA0ODw==") (js "EBESExQVFhcYGRob") (js "AXt9")) _ _).
  - vm_compute. reflexivity.
  - vm_compute. reflexivity.
Defined.

Section PasswordChange.
Context {SC : SubtleCrypto} {J : JSON}.





End PasswordChange.



Example change_password_keys_differ :
  @deriveKey toy_crypto (js "hunter2duck")
    (fst (getRandomValues SALT_BYTES (rng (returning_user (js "hunter2duck"))))) <>
  @deriveKey toy_crypto (js "correcthorse!")
    (fst (getRandomValues SALT_BYTES (rng (returning_user (js "hunter2duck"))))).
Proof. vm_compute. discriminate. Qed.


(** The push that follows then replaces the remote envelope. *)
Example first_run_overwrites_remote :
  remote (snd (@App.unlock toy_crypto toy_json (js "hunter2duck") offline_device)) <>
  remote offline_device.
Proof. vm_compute. discriminate. Qed.

Lemma C9_save_unconfigured_witness :
  fst (Storage.hasPending pending_device) = Ok true /\
  let e := mkEnvelope (js "AAECAwQFBgcICQoLDA0ODw==") (js "EBESExQVFhcYGRob") (js "AXt9") in
  let w' := snd (@Storage.save toy_json e pending_device) in
  fst (@Storage.save toy_json e pending_device) = Ok tt /\
  fst (@Storage.loadLocal toy_json w') = Ok (Some e) /\
  fst (Storage.hasPending w') = Ok false /\
  fetches w' = fetches pending_device /\
  remote w' = remote pending_device.
Proof.
  split; [reflexivity|].
  apply (@C9_save_unconfigured_clears_pending toy_json). reflexivity.
Defined.

(** ** The shape of tables (app.js, table, column and row CRUD) *)

Section ShapeFacts.
Context {SC : SubtleCrypto} {J : JSON}.

Lemma persistVault_vault : preserves vault_of App.persistVault.
Proof.
  intros w. destruct (persistVault_session w) as (_ & H & _).
  unfold session in H. unfold vault_of. by injection H.
Qed.

Lemma set_activeTable_vault a : preserves vault_of (App.set_activeTable a).
Proof. by intros w. Qed.

Ltac frame_vault :=
  repeat first
    [ apply persistVault_vault | apply set_activeTable_vault
    | apply preserves_ret | apply preserves_throw | apply preserves_gets
    | apply preserves_bind
    | match goal with
      | |- forall _, _ => intro
      | |- preserves _ (if ?x then _ else _) => destruct x
      end ].

(** Whatever follows [set_vault] and leaves the vault alone. *)
Lemma after_set_vault {A} v (rest : M A) w :
  preserves vault_of rest ->
  vault_of (snd ((App.set_vault v ;; rest)%M w)) = Some v.
Proof.
  intros Hrest. unfold bind. cbn [App.set_vault modify]. by rewrite Hrest.
Qed.

Lemma tables_get_own v name t :
  tables_get v name = STable t -> tables v !! name = Some (STable t).
Proof.
  unfold tables_get. destruct (tables v !! name) as [s|]; [by intros ->|].
  by destruct (on_Object_prototype name).
Qed.

Lemma rectangular_put v name t :
  vault_rectangular v -> table_rectangular t ->
  vault_rectangular (set_tables <[name := STable t]> v).
Proof.
  intros Hv Ht name' t'. cbn [set_tables tables]. rewrite lookup_insert.
  case_decide; [by intros [= <-]|apply Hv].
Qed.

Lemma rectangular_unchanged w w' : vault_of w' = vault_of w -> rectangular w -> rectangular w'.
Proof. unfold rectangular, vault_of. by intros ->. Qed.

Lemma rectangular_vault w v :
  vault_of w = Some v -> vault_rectangular v -> rectangular w.
Proof. unfold rectangular, vault_of. by intros ->. Qed.

Lemma delete_ge {A} (l : list A) i : (length l <= i)%nat -> delete i l = l.
Proof.
  revert i. induction l as [|x l IH]; intros [|i] Hi; cbn in *; try reflexivity; [lia|].
  f_equal. apply IH. lia.
Qed.

(** The length left by [splice] depends on the length alone. *)
Lemma splice1_length {A} (l : list A) start :
  length (splice1 l start) =
  let len := Z.of_nat (length l) in
  let from := if start <? 0 then Z.max (len + start) 0 else Z.min start len in
  if from <? len then (length l - 1)%nat else length l.
Proof.
  unfold splice1. cbv zeta. set (from := if start <? 0 then _ else _).
  assert (0 <= from) by (unfold from; destruct (Z.ltb_spec start 0); lia).
  destruct (Z.ltb_spec from (Z.of_nat (length l))).
  - apply length_delete, lookup_lt_is_Some. lia.
  - rewrite delete_ge by lia. reflexivity.
Qed.

Lemma splice1_same_length {A B} (l : list A) (l' : list B) start :
  length l = length l' -> length (splice1 l start) = length (splice1 l' start).
Proof. intros H. rewrite !splice1_length. cbv zeta. by rewrite H. Qed.

Lemma splice1_Forall {A} (P : A -> Prop) (l : list A) start :
  Forall P l -> Forall P (splice1 l start).
Proof. unfold splice1. apply Forall_delete. Qed.


Lemma snd_bind_ret {A B} (m : M A) (b : B) w : snd ((m ;; ret b)%M w) = snd (m w).
Proof. unfold bind, ret. by destruct (m w) as [[a|e] w']. Qed.

(** Entering a call: the vault is there, or the call throws at once. *)
Ltac enter v Hv Hw :=
  unfold rectangular at 1; intros Hw;
  unfold App.the_vault; unfold bind at 1; unfold bind at 1; cbn [gets];
  destruct (vault (state _)) as [v|] eqn:Hv; cbn [ret throw snd fst];
  [|by intros; unfold rectangular; rewrite Hv].

Ltac same_vault Hv Hw := cbn [ret throw snd]; unfold rectangular; rewrite Hv; exact Hw.

Ltac new_vault :=
  unfold App.put_table; eapply rectangular_vault;
  [apply after_set_vault; frame_vault|].

Lemma createTable_rectangular name w :
  rectangular w -> rectangular (snd (App.createTable name w)).
Proof.
  unfold App.createTable. destruct (negb _); [done|].
  enter v Hv Hw.
  destruct (tables_get v (trim name)); cbn [ret snd]; try same_vault Hv Hw.
  new_vault. apply rectangular_put; [exact Hw|]. constructor.
Qed.

Lemma renameTable_rectangular oldName newName w :
  rectangular w -> rectangular (snd (App.renameTable oldName newName w)).
Proof.
  unfold App.renameTable. destruct (negb _); [done|]. destruct (bool_decide _); [done|].
  enter v Hv Hw.
  destruct (tables_get v (trim newName)); cbn [ret snd]; try same_vault Hv Hw.
  new_vault. intros name t. cbn [set_tables tables].
  rewrite lookup_delete. case_decide; [discriminate|].
  rewrite lookup_insert. case_decide; [|apply Hw].
  intros [= Hold]. eapply Hw, tables_get_own, Hold.
Qed.

Lemma deleteTable_rectangular name w :
  rectangular w -> rectangular (snd (App.deleteTable name w)).
Proof.
  unfold App.deleteTable. enter v Hv Hw.
  assert (Hdel : vault_rectangular (set_tables (delete name) v)).
  { intros name' t. cbn [set_tables tables]. rewrite lookup_delete.
    case_decide; [discriminate|apply Hw]. }
  destruct (tables_get v name); cbn [ret snd]; try same_vault Hv Hw; by new_vault.
Qed.

Lemma addColumn_rectangular tableName colName w :
  rectangular w -> rectangular (snd (App.addColumn tableName colName w)).
Proof.
  unfold App.addColumn. enter v Hv Hw.
  destruct (tables_get v tableName) as [tbl| |] eqn:Ht; cbn [ret throw snd];
    try same_vault Hv Hw.
  new_vault. apply rectangular_put; [exact Hw|].
  pose proof (Hw _ _ (tables_get_own _ _ _ Ht)) as Htbl.
  unfold table_rectangular in *. cbn [rows columns]. apply Forall_fmap.
  eapply Forall_impl; [exact Htbl|]. intros row Hrow. cbn.
  rewrite !length_app, Hrow. reflexivity.
Qed.

Lemma renameColumn_rectangular tableName colIndex newName w :
  rectangular w -> rectangular (snd (App.renameColumn tableName colIndex newName w)).
Proof.
  unfold App.renameColumn. enter v Hv Hw.
  destruct (tables_get v tableName) as [tbl| |] eqn:Ht; cbn [ret throw snd];
    try same_vault Hv Hw.
  2:{ destruct (colIndex <? 0); same_vault Hv Hw. }
  destruct (_ || _); [same_vault Hv Hw|].
  new_vault. apply rectangular_put; [exact Hw|].
  pose proof (Hw _ _ (tables_get_own _ _ _ Ht)) as Htbl.
  unfold table_rectangular in *. cbn [rows columns]. by rewrite length_insert.
Qed.

Lemma deleteColumn_rectangular tableName colIndex w :
  rectangular w -> rectangular (snd (App.deleteColumn tableName colIndex w)).
Proof.
  unfold App.deleteColumn. enter v Hv Hw.
  destruct (tables_get v tableName) as [tbl| |] eqn:Ht; cbn [ret throw snd];
    try same_vault Hv Hw.
  destruct (_ <=? _)%nat; [same_vault Hv Hw|].
  new_vault. apply rectangular_put; [exact Hw|].
  pose proof (Hw _ _ (tables_get_own _ _ _ Ht)) as Htbl.
  unfold table_rectangular in *. cbn [rows columns]. apply Forall_fmap.
  eapply Forall_impl; [exact Htbl|]. intros row Hrow. cbn.
  by apply splice1_same_length.
Qed.

Lemma addRow_rectangular tableName w :
  rectangular w -> rectangular (snd (App.addRow tableName w)).
Proof.
  unfold App.addRow. enter v Hv Hw.
  destruct (tables_get v tableName) as [tbl| |] eqn:Ht; cbn [ret throw snd];
    try same_vault Hv Hw.
  new_vault. apply rectangular_put; [exact Hw|].
  pose proof (Hw _ _ (tables_get_own _ _ _ Ht)) as Htbl.
  unfold table_rectangular in *. cbn [rows columns]. apply Forall_app. split; [exact Htbl|].
  repeat constructor. apply length_replicate.
Qed.

Lemma deleteRow_rectangular tableName rowIndex w :
  rectangular w -> rectangular (snd (App.deleteRow tableName rowIndex w)).
Proof.
  unfold App.deleteRow. enter v Hv Hw.
  destruct (tables_get v tableName) as [tbl| |] eqn:Ht; cbn [ret throw snd];
    try same_vault Hv Hw.
  new_vault. apply rectangular_put; [exact Hw|].
  pose proof (Hw _ _ (tables_get_own _ _ _ Ht)) as Htbl.
  unfold table_rectangular in *. cbn [rows columns]. by apply splice1_Forall.
Qed.


Lemma array_get_Some {A} (arr : list A) i x :
  array_get arr i = Some x <-> 0 <= i /\ arr !! Z.to_nat i = Some x.
Proof.
  unfold array_get. destruct (Z.leb_spec 0 i); [tauto|]. split; [discriminate|lia].
Qed.


(** The length after [row[i] = value]. *)
Lemma array_set_length row i value :
  length (array_set row i value) =
  if is_array_index i then Nat.max (length row) (Z.to_nat i + 1) else length row.
Proof.
  unfold array_set. destruct (is_array_index i) eqn:Hi; [|reflexivity].
  unfold is_array_index in Hi. apply andb_true_iff in Hi as [Hi _]. apply Z.leb_le in Hi.
  destruct (Z.ltb_spec i (Z.of_nat (length row))).
  - rewrite length_insert. lia.
  - rewrite !length_app, length_replicate. cbn [length]. lia.
Qed.


Lemma updateCell_rectangular tableName rowIndex colIndex value w :
  rectangular w -> keeps_shape (App.UpdateCell tableName rowIndex colIndex value) w ->
  rectangular (snd (App.updateCell tableName rowIndex colIndex value w)).
Proof.
  unfold App.updateCell, keeps_shape. enter v Hv Hw.
  destruct (tables_get v tableName) as [tbl| |] eqn:Ht; cbn [ret throw snd];
    try (intros _; same_vault Hv Hw).
  intros Hcol. destruct (array_get (rows tbl) rowIndex) as [row|] eqn:Hrow;
    [|same_vault Hv Hw].
  new_vault. apply rectangular_put; [exact Hw|].
  pose proof (Hw _ _ (tables_get_own _ _ _ Ht)) as Htbl.
  unfold table_rectangular in *. cbn [rows columns].
  apply array_get_Some in Hrow as [_ Hrow].
  apply Forall_insert; [exact Htbl|].
  rewrite Forall_forall in Htbl. specialize (Htbl row (list_elem_of_lookup_2 _ _ _ Hrow)).
  rewrite array_set_length. destruct (is_array_index colIndex) eqn:Hi; [|exact Htbl].
  unfold is_array_index in Hi. apply andb_true_iff in Hi as [Hi _]. apply Z.leb_le in Hi. lia.
Qed.

Lemma importCSV_rectangular tableName csvText w :
  rectangular w -> keeps_shape (App.ImportCSV tableName csvText) w ->
  rectangular (snd (App.importCSV tableName csvText w)).
Proof.
  unfold App.importCSV, keeps_shape. cbv zeta.
  destruct (App.csv_lines csvText) as [|first others]; [done|].
  enter v Hv Hw.
  destruct (tables_get v (App.import_name tableName)) as [tbl| |] eqn:Ht; intros Hrows.
  - new_vault. apply rectangular_put; [exact Hw|].
    pose proof (Hw _ _ (tables_get_own _ _ _ Ht)) as Htbl.
    unfold table_rectangular in *. cbn [rows columns]. apply Forall_app. split; [exact Htbl|].
    apply Forall_fmap. eapply Forall_impl; [exact Hrows|]. intros l Hl. cbn.
    by rewrite length_map.
  - new_vault. apply rectangular_put; [exact Hw|].
    unfold table_rectangular. cbn [rows columns].
    apply Forall_fmap. eapply Forall_impl; [exact Hrows|]. intros l Hl. cbn.
    by rewrite length_map.
  - unfold bind. same_vault Hv Hw.
Qed.

Lemma call_rectangular o w :
  rectangular w -> keeps_shape o w -> rectangular (snd (App.call o w)).
Proof.
  intros Hw Ho. destruct o; cbn [App.call]; rewrite ?snd_bind_ret.
  - by apply createTable_rectangular.
  - by apply renameTable_rectangular.
  - by apply deleteTable_rectangular.
  - by apply addColumn_rectangular.
  - by apply renameColumn_rectangular.
  - by apply deleteColumn_rectangular.
  - by apply addRow_rectangular.
  - by apply updateCell_rectangular.
  - by apply deleteRow_rectangular.
  - by apply importCSV_rectangular.
Qed.

(** C3 (amended): for every table in the vault, after any sequence of
    vault-mutating operations in which every updateCell has its
    colIndex below the table's column count and every CSV import has
    data rows with as many fields as the table they go into has columns
    (the header's, for a new table), every row's length equals the
    table's current column count, provided it did before the sequence. *)
Theorem C3_rows_match_columns (ops : list App.op) (w : World) :
  rectangular w ->
  all_keep_shape ops w ->
  rectangular (App.call_all ops w).
Proof.
  revert w. induction ops as [|o ops IH]; intros w Hw Hops; [exact Hw|].
  destruct Hops as [Ho Hops]. cbn [App.call_all foldl].
  apply IH; [by apply call_rectangular|exact Hops].
Qed.

End ShapeFacts.

(** ** Scenarios with tables, and updateCell *)

Example logins_has_table :
  vault_of logins = Some logins_vault.
Proof. vm_compute. reflexivity. Qed.

Lemma rectangular_unlocked_user : rectangular unlocked_user.
Proof.
  unfold rectangular. change (vault (state unlocked_user)) with (Some App.emptyVault).
  intros name t H. cbn in H. rewrite lookup_empty in H. discriminate H.
Qed.

(** C3, as the specification states it, fails: a CSV import takes each
    line as it comes, whatever the number of its fields. *)
Lemma C3_import_makes_ragged_rows :
  ~ (forall (SC : SubtleCrypto) (J : JSON) (ops : list App.op) (w : World),
       rectangular w -> rectangular (App.call_all ops w)).
Proof.
  intros H.
  pose proof (H toy_crypto toy_json [App.ImportCSV (js "Logins") ragged_csv] unlocked_user
                rectangular_unlocked_user) as Hr.
  unfold rectangular in Hr.
  change (vault (state _)) with
    (Some (mkVault 1 {[ js "Logins" :=
       STable (mkTable [js "site"; js "user"] [[Str (js "example.org")]]) ]})) in Hr.
  specialize (Hr (js "Logins") _ (lookup_singleton_eq _ _)).
  inversion Hr as [|row rows Hlen _]. discriminate Hlen.
Qed.

Lemma C3_rows_match_columns_witness :
  rectangular
    (@App.call_all toy_crypto toy_json
       [App.CreateTable (js "Logins");
        App.AddColumn (js "Logins") (js "user");
        App.AddRow (js "Logins");
        App.UpdateCell (js "Logins") 0 1 (js "alice");
        App.DeleteColumn (js "Logins") 0;
        App.ImportCSV (js "Logins") (js "user" ++ [0x0A] ++ js "bob")]
       unlocked_user).
Proof.
  apply (@C3_rows_match_columns toy_crypto toy_json).
  - exact rectangular_unlocked_user.
  - vm_compute. repeat split; repeat constructor.
Defined.

Example witness_table :
  vault_of
    (@App.call_all toy_crypto toy_json
       [App.CreateTable (js "Logins");
        App.AddColumn (js "Logins") (js "user");
        App.AddRow (js "Logins");
        App.UpdateCell (js "Logins") 0 1 (js "alice");
        App.DeleteColumn (js "Logins") 0;
        App.ImportCSV (js "Logins") (js "user" ++ [0x0A] ++ js "bob")]
       unlocked_user) =
  Some (mkVault 1 {[ js "Logins" :=
    STable (mkTable [js "user"] [[Str (js "alice")]; [Str (js "bob")]]) ]}).
Proof. vm_compute. reflexivity. Qed.

Section UpdateCell.
Context {SC : SubtleCrypto} {J : JSON}.





End UpdateCell.



Example updateCell_past_the_end :
  vault_of (snd (@App.updateCell toy_crypto toy_json (js "Logins") 0 2 (js "x") logins)) =
  Some (mkVault 1 {[ js "Logins" :=
    STable (mkTable [js "Column 1"] [[Str []; Hole; Str (js "x")]]) ]}).
Proof. vm_compute. reflexivity. Qed.

Example updateCell_no_such_row :
  @App.updateCell toy_crypto toy_json (js "Logins") 1 0 (js "x") logins =
  (Throw TypeError, logins).
Proof. vm_compute. reflexivity. Qed.

(** * Further properties

    What the code shows besides the claims. *)

(** ** The envelope codec (crypto.js) *)

Lemma strip_padding_keeps c data : c ∈ data -> c <> 61 -> c ∈ strip_padding data.
Proof.
  intros Hc Hne. unfold strip_padding.
  destruct (_ mod 4 =? 0); [|exact Hc].
  destruct (reverse data) as [|c1 r1] eqn:E; [exact Hc|].
  destruct (c1 =? 61) eqn:E1; [|exact Hc].
  apply Z.eqb_eq in E1. subst c1.
  apply (f_equal reverse) in E. rewrite reverse_involutive, reverse_cons in E. subst data.
  apply elem_of_app in Hc as [Hc|Hc]; [|apply list_elem_of_singleton in Hc; contradiction].
  destruct r1 as [|c2 r2]; [exact Hc|].
  destruct (c2 =? 61) eqn:E2; [|exact Hc].
  apply Z.eqb_eq in E2. subst c2. rewrite reverse_cons in Hc.
  apply elem_of_app in Hc as [Hc|Hc]; [exact Hc|apply list_elem_of_singleton in Hc; contradiction].
Qed.

Lemma malformed_base64_rejected s :
  malformed_base64 s = true -> forgiving_base64_decode s = None.
Proof.
  unfold malformed_base64. rewrite existsb_exists. intros (c & Hin & Hc).
  apply list_elem_of_In in Hin. unfold outside_base64 in Hc.
  apply andb_prop in Hc as [Hc Hws]. apply andb_prop in Hc as [Hidx Hpad].
  apply bool_decide_eq_true in Hidx. apply negb_true_iff in Hpad, Hws.
  apply Z.eqb_neq in Hpad.
  unfold forgiving_base64_decode. cbv zeta.
  destruct (_ mod 4 =? 1); [reflexivity|].
  rewrite (mapM_None_2 b64index); [reflexivity|].
  apply Exists_exists. exists c. split; [|exact Hidx].
  apply strip_padding_keeps; [|exact Hpad].
  apply list_elem_of_filter. by split.
Qed.

Lemma b64decode_throws str e : b64decode str = Throw e -> e = InvalidCharacterError.
Proof.
  unfold b64decode, atob. destruct (forgiving_base64_decode str); cbn; congruence.
Qed.

Lemma b64decode_malformed s :
  malformed_base64 s = true -> b64decode s = Throw InvalidCharacterError.
Proof.
  intros H. unfold b64decode, atob. by rewrite malformed_base64_rejected.
Qed.



Section CodecExtras.
Context {SC : SubtleCrypto}.

(** X2: an envelope with a character in its salt, iv or ciphertext
    that is neither of the base64 alphabet, nor padding, nor ASCII
    whitespace is rejected before any key is derived: decrypt throws
    InvalidCharacterError under every password, and verify is false. *)
Theorem decrypt_malformed_envelope (payload : Envelope) (password : jsstring) :
  malformed_base64 (salt payload) || malformed_base64 (iv payload) ||
    malformed_base64 (ciphertext payload) = true ->
  decrypt payload password = Throw InvalidCharacterError /\
  verify payload password = false.
Proof.
  intros H.
  assert (decrypt payload password = Throw InvalidCharacterError) as Hd.
  { unfold decrypt.
    destruct (b64decode (salt payload)) as [s|e] eqn:Es;
      [|by rewrite (b64decode_throws _ _ Es)].
    destruct (b64decode (iv payload)) as [i|e] eqn:Ei;
      [|by rewrite (b64decode_throws _ _ Ei)].
    destruct (b64decode (ciphertext payload)) as [c|e] eqn:Ec;
      [|by rewrite (b64decode_throws _ _ Ec)].
    apply orb_prop in H as [H|H]; [apply orb_prop in H as [H|H]|];
      apply b64decode_malformed in H; congruence. }
  split; [exact Hd|]. unfold verify. by rewrite Hd.
Qed.



End CodecExtras.

Lemma decrypt_malformed_envelope_witness :
  let p := mkEnvelope (js "AAEC") (js "not base64!") (js "AXt9") in
  malformed_base64 (salt p) || malformed_base64 (iv p) || malformed_base64 (ciphertext p) = true /\
  @decrypt toy_crypto p (js "hunter2duck") = Throw InvalidCharacterError /\
  @verify toy_crypto p (js "hunter2duck") = false.
Proof.
  cbv zeta. split; [reflexivity|].
  apply (@decrypt_malformed_envelope toy_crypto). reflexivity.
Defined.



(** ** The local store and the remote store (storage.js, github.js) *)

Section StoreExtras.
Context {J : JSON}.

Lemma hasLocal_spec w :
  Storage.hasLocal w = (Ok (truthy (localStorage w !! Storage.VAULT_KEY)), w).
Proof. reflexivity. Qed.

Lemma getConfig_spec w :
  GitHub.getConfig w =
  (match localStorage w !! GitHub.CFG_KEY with
   | Some (c :: r) => JSON_parse_config (c :: r)
   | _ => Ok None
   end, w).
Proof.
  unfold GitHub.getConfig, bind, getItem, gets.
  destruct (localStorage w !! GitHub.CFG_KEY) as [[|c r]|]; reflexivity.
Qed.

Lemma getConfig_ext w1 w2 :
  localStorage w1 !! GitHub.CFG_KEY = localStorage w2 !! GitHub.CFG_KEY ->
  fst (GitHub.getConfig w1) = fst (GitHub.getConfig w2).
Proof. intros H. by rewrite !getConfig_spec, H. Qed.

(** X5: what saveLocal writes, loadLocal reads back and hasLocal
    reports; no other key of localStorage changes. *)
Theorem saveLocal_loadLocal (e : Envelope) (w : World) :
  let w' := snd (Storage.saveLocal e w) in
  fst (Storage.loadLocal w') = Ok (Some e) /\
  fst (Storage.hasLocal w') = Ok true /\
  delete Storage.VAULT_KEY (localStorage w') = delete Storage.VAULT_KEY (localStorage w).
Proof.
  cbv zeta. rewrite saveLocal_spec. cbn [snd]. split; [|split].
  - apply loadLocal_written. cbn. apply lookup_insert_eq.
  - rewrite hasLocal_spec. cbn [fst localStorage set_localStorage].
    rewrite lookup_insert_eq. f_equal. apply JSON_stringify_envelope_truthy.
  - cbn [localStorage set_localStorage]. apply delete_insert_eq.
Qed.

(** X6: clearLocal removes the stored envelope and the pending flag,
    and nothing else: the GitHub configuration, the remote file and the
    session stay as they are. *)
Theorem clearLocal_keeps_config (w : World) :
  let w' := snd (Storage.clearLocal w) in
  fst (Storage.loadLocal w') = Ok None /\
  fst (Storage.hasLocal w') = Ok false /\
  fst (Storage.hasPending w') = Ok false /\
  fst (GitHub.getConfig w') = fst (GitHub.getConfig w) /\
  fst (GitHub.isConfigured w') = fst (GitHub.isConfigured w) /\
  remote w' = remote w /\ state w' = state w.
Proof.
  cbv zeta.
  assert (Storage.clearLocal w =
    (Ok tt, set_localStorage (fun m => delete Storage.PENDING_KEY (delete Storage.VAULT_KEY m)) w))
    as -> by reflexivity.
  cbn [snd]. rewrite loadLocal_spec, hasLocal_spec, hasPending_spec.
  cbn [fst localStorage set_localStorage remote state].
  rewrite lookup_delete_ne, !lookup_delete_eq by discriminate.
  repeat split.
  - apply getConfig_ext. cbn. by rewrite !lookup_delete_ne.
  - apply isConfigured_ext. cbn. by rewrite !lookup_delete_ne.
Qed.

(** X7: save changes no key of localStorage but the vault's and the
    pending flag's, load none but the vault's; neither touches the
    GitHub configuration. *)
Theorem save_load_keys (e : Envelope) (w : World) :
  let keep (m : gmap string (list Z)) :=
    delete Storage.VAULT_KEY (delete Storage.PENDING_KEY m) in
  keep (localStorage (snd (Storage.save e w))) = keep (localStorage w) /\
  delete Storage.VAULT_KEY (localStorage (snd (Storage.load w))) =
    delete Storage.VAULT_KEY (localStorage w) /\
  fst (GitHub.getConfig (snd (Storage.save e w))) = fst (GitHub.getConfig w) /\
  fst (GitHub.getConfig (snd (Storage.load w))) = fst (GitHub.getConfig w).
Proof.
  cbv zeta.
  assert (Hsave : forall k, k <> Storage.VAULT_KEY -> k <> Storage.PENDING_KEY ->
            localStorage (snd (Storage.save e w)) !! k = localStorage w !! k).
  { intros k Hk1 Hk2. rewrite save_spec. cbv zeta.
    pose proof (syncToGitHub_localStorage e (snd (Storage.saveLocal e w))) as Hls.
    rewrite saveLocal_spec in *. cbn [snd] in *.
    destruct (Storage.syncToGitHub e _) as [[[]|ex] w2]; cbn [fst snd] in *;
      cbn [localStorage set_localStorage]; rewrite Hls; cbn [localStorage set_localStorage].
    - by rewrite lookup_delete_ne, lookup_insert_ne.
    - by rewrite !lookup_insert_ne. }
  assert (Hload : forall k, k <> Storage.VAULT_KEY ->
            localStorage (snd (Storage.load w)) !! k = localStorage w !! k).
  { intros k Hk. rewrite load_spec.
    pose proof (syncFromGitHub_localStorage w) as Hls.
    destruct (Storage.syncFromGitHub w) as [[[r|]|ex] w1]; cbn [fst snd] in *;
      rewrite ?loadLocal_spec; cbn [snd localStorage set_localStorage]; rewrite Hls;
      [by rewrite lookup_insert_ne|reflexivity..]. }
  split; [|split; [|split]].
  - apply map_eq. intros k.
    destruct (decide (k = Storage.VAULT_KEY)) as [->|Hk1]; [by rewrite !lookup_delete_eq|].
    rewrite !(lookup_delete_ne _ Storage.VAULT_KEY) by done.
    destruct (decide (k = Storage.PENDING_KEY)) as [->|Hk2]; [by rewrite !lookup_delete_eq|].
    rewrite !lookup_delete_ne by done. by apply Hsave.
  - apply map_eq. intros k.
    destruct (decide (k = Storage.VAULT_KEY)) as [->|Hk1]; [by rewrite !lookup_delete_eq|].
    rewrite !lookup_delete_ne by done. by apply Hload.
  - apply getConfig_ext. by apply Hsave.
  - apply getConfig_ext. by apply Hload.
Qed.

Lemma fetch_GET_remote : preserves remote (fetch GET).
Proof.
  intros w. unfold fetch. destruct (head (network w)) as [[| |s]|]; try reflexivity;
    cbn [serve]; by destruct (remote w).
Qed.

Lemma fetch_fetches req w : fetches (snd (fetch req w)) = S (fetches w).
Proof.
  unfold fetch. destruct (head (network w)) as [[| |s]|]; try reflexivity;
    by destruct (serve req (remote w)).
Qed.

Lemma getFileSha_remote cfg : preserves remote (GitHub.getFileSha cfg).
Proof.
  intros w. unfold GitHub.getFileSha. unfold bind at 1.
  pose proof (fetch_GET_remote w) as H.
  destruct (fetch GET w) as [[res|ex] w1]; cbn [fst snd] in *; [|exact H].
  destruct (status res =? 404); [exact H|].
  destruct (negb (res_ok res)); [exact H|].
  unfold res_json, bind. destruct (body res); exact H.
Qed.

(** [pull], once the configuration is read. *)
Lemma pull_configured w cfg :
  fst (GitHub.getConfig w) = Ok (Some cfg) ->
  GitHub.pull w =
  (res <- fetch GET ;;
   if status res =? 404 then ret None
   else if negb (res_ok res) then throw (HttpError (status res))
   else
     data <- res_json res ;;
     decoded <- lift (atob (filter (fun c => c <> 0x0A) (content data))) ;;
     lift (JSON_parse_envelope decoded))%M w.
Proof.
  intros H. unfold GitHub.pull. unfold bind at 1.
  pose proof (getConfig_pure w) as Hpure.
  destruct (GitHub.getConfig w) as [r w0]. cbn [fst snd] in *. by subst.
Qed.

Lemma pull_unconfigured w :
  fst (GitHub.getConfig w) = Ok None -> GitHub.pull w = (Ok None, w).
Proof.
  intros H. unfold GitHub.pull. unfold bind at 1.
  pose proof (getConfig_pure w) as Hpure.
  destruct (GitHub.getConfig w) as [r w0]. cbn [fst snd] in *. by subst.
Qed.

Lemma pull_no_config w ex :
  fst (GitHub.getConfig w) = Throw ex -> GitHub.pull w = (Throw ex, w).
Proof.
  intros H. unfold GitHub.pull. unfold bind at 1.
  pose proof (getConfig_pure w) as Hpure.
  destruct (GitHub.getConfig w) as [r w0]. cbn [fst snd] in *. by subst.
Qed.

(** X8: pull only reads: the remote file, localStorage and the
    session are as before, whatever the answer; it makes one fetch when
    a configuration is stored and none otherwise; and a repository
    without the file, when reached, gives null rather than an error. *)
Theorem pull_reads_only (w : World) :
  let w' := snd (GitHub.pull w) in
  remote w' = remote w /\
  localStorage w' = localStorage w /\
  state w' = state w /\
  fetches w' =
    match fst (GitHub.getConfig w) with
    | Ok (Some _) => S (fetches w)
    | _ => fetches w
    end /\
  match fst (GitHub.getConfig w), remote w, reachable w with
  | Ok (Some _), None, true => fst (GitHub.pull w) = Ok None
  | _, _, _ => True
  end.
Proof.
  cbv zeta. split; [|split; [apply pull_localStorage|split; [apply pull_state|]]].
  - destruct (fst (GitHub.getConfig w)) as [[cfg|]|ex] eqn:Hcfg.
    2: by rewrite pull_unconfigured. 2: by rewrite (pull_no_config w ex).
    rewrite (pull_configured w cfg Hcfg).
    unfold bind at 1. pose proof (fetch_GET_remote w) as H.
    destruct (fetch GET w) as [[res|ex] w1]; cbn [fst snd] in *; [|exact H].
    destruct (status res =? 404); [exact H|].
    destruct (negb (res_ok res)); [exact H|].
    unfold res_json, bind. destruct (body res) as [data|]; [|exact H].
    cbn [ret]. unfold lift. destruct (atob _); exact H.
  - destruct (fst (GitHub.getConfig w)) as [[cfg|]|ex] eqn:Hcfg.
    2: by rewrite pull_unconfigured. 2: by rewrite (pull_no_config w ex).
    rewrite (pull_configured w cfg Hcfg). split.
    + unfold bind at 1. pose proof (fetch_fetches GET w) as H.
      destruct (fetch GET w) as [[res|ex] w1]; cbn [fst snd] in *; [|exact H].
      destruct (status res =? 404); [exact H|].
      destruct (negb (res_ok res)); [exact H|].
      unfold res_json, bind. destruct (body res) as [data|]; [|exact H].
      cbn [ret]. unfold lift. destruct (atob _); exact H.
    + destruct (remote w) eqn:Hr; [done|]. unfold reachable.
      unfold bind at 1. unfold fetch. rewrite Hr.
      destruct (head (network w)) as [[| |s]|]; done.
Qed.


Lemma push_configured e w cfg :
  fst (GitHub.getConfig w) = Ok (Some cfg) ->
  GitHub.push e w =
  (content <- lift (btoa (JSON_stringify_envelope e)) ;;
   sha <- GitHub.getFileSha cfg ;;
   res <- fetch (PUT content sha) ;;
   if negb (res_ok res) then throw (HttpError (status res))
   else ret tt)%M w.
Proof.
  intros H. unfold GitHub.push. unfold bind at 1.
  pose proof (getConfig_pure w) as Hpure.
  destruct (GitHub.getConfig w) as [r w0]. cbn [fst snd] in *. by subst.
Qed.

Lemma push_unconfigured e w :
  fst (GitHub.getConfig w) = Ok None -> GitHub.push e w = (Throw NotConfigured, w).
Proof.
  intros H. unfold GitHub.push. unfold bind at 1.
  pose proof (getConfig_pure w) as Hpure.
  destruct (GitHub.getConfig w) as [r w0]. cbn [fst snd] in *. by subst.
Qed.

Lemma push_no_config e w ex :
  fst (GitHub.getConfig w) = Throw ex -> GitHub.push e w = (Throw ex, w).
Proof.
  intros H. unfold GitHub.push. unfold bind at 1.
  pose proof (getConfig_pure w) as Hpure.
  destruct (GitHub.getConfig w) as [r w0]. cbn [fst snd] in *. by subst.
Qed.

Lemma fetch_network req w : network (snd (fetch req w)) = tail (network w).
Proof.
  unfold fetch. destruct (head (network w)) as [[| |s]|]; try reflexivity;
    by destruct (serve req (remote w)).
Qed.

Lemma getFileSha_network cfg w :
  network (snd (GitHub.getFileSha cfg w)) = tail (network w).
Proof.
  unfold GitHub.getFileSha. unfold bind at 1.
  pose proof (fetch_network GET w) as H.
  destruct (fetch GET w) as [[res|ex] w1]; cbn [fst snd] in *; [|exact H].
  destruct (status res =? 404); [exact H|].
  destruct (negb (res_ok res)); [exact H|].
  unfold res_json, bind. destruct (body res); exact H.
Qed.

Lemma genuine_tail net : forallb genuine net = true -> forallb genuine (tail net) = true.
Proof. destruct net as [|b net]; [done|]. cbn. by intros [_ ?]%andb_prop. Qed.

(** A delivered PUT, by its answer. *)
Lemma fetch_PUT c given w :
  forallb genuine (network w) = true ->
  match fst (fetch (PUT c given) w) with
  | Ok res =>
    if res_ok res
    then exists sha', remote (snd (fetch (PUT c given) w)) = Some (mkRemoteFile c sha')
    else remote (snd (fetch (PUT c given) w)) = remote w
  | Throw _ => remote (snd (fetch (PUT c given) w)) = remote w
  end.
Proof.
  intros Hnet. unfold fetch.
  destruct (network w) as [|[| |s] net] eqn:En; cbn [head]; try reflexivity.
  3:{ cbn [fst snd remote]. cbn in Hnet. apply andb_prop in Hnet as [Hs _].
      unfold res_ok. cbn [status]. apply negb_true_iff in Hs. by rewrite Hs. }
  all: cbn [serve]; destruct (remote w) as [f|]; [destruct given as [s|]|];
    [destruct (decide (s = sha f))|..]; cbn [fst snd remote res_ok status];
    try reflexivity; by eexists.
Qed.

Lemma push_result e w r w' :
  forallb genuine (network w) = true ->
  GitHub.push e w = (r, w') ->
  match r with
  | Ok _ =>
    forallb (fun c => c <=? 0xFF) (JSON_stringify_envelope e) = true /\
    exists sha,
      remote w' = Some (mkRemoteFile (base64_encode (JSON_stringify_envelope e)) sha)
  | Throw _ => remote w' = remote w
  end.
Proof.
  intros Hnet.
  destruct (fst (GitHub.getConfig w)) as [[cfg|]|ex] eqn:Hcfg.
  2: by rewrite push_unconfigured; [intros [= <- <-]|].
  2: by rewrite (push_no_config e w ex); [intros [= <- <-]|].
  rewrite (push_configured e w cfg Hcfg).
  unfold bind at 1. unfold lift at 1. unfold btoa.
  destruct (forallb _ (JSON_stringify_envelope e)) eqn:Hlatin; [|by intros [= <- <-]].
  unfold bind at 1.
  pose proof (getFileSha_remote cfg w) as Hr.
  pose proof (getFileSha_network cfg w) as Hn.
  destruct (GitHub.getFileSha cfg w) as [[sha|ex] w1]; cbn [fst snd] in *;
    [|by intros [= <- <-]].
  assert (Hnet1 : forallb genuine (network w1) = true) by (rewrite Hn; by apply genuine_tail).
  pose proof (fetch_PUT (base64_encode (JSON_stringify_envelope e)) sha w1 Hnet1) as Hput.
  unfold bind.
  destruct (fetch (PUT _ sha) w1) as [[res|ex] w2]; cbn [fst snd] in *;
    [|intros [= <- <-]; congruence].
  destruct (res_ok res); cbn [negb throw ret fst snd]; intros [= <- <-];
    [by split|congruence].
Qed.

(** X9: push changes the remote file only when it succeeds: after a
    push that returned, the file holds the base64 text of the
    envelope's JSON; after a push that threw (no configuration, a JSON
    text btoa rejects, the network down, a refusal, a stale sha), the
    file is what it was.  localStorage and the session are untouched
    either way. *)
Theorem push_all_or_nothing (e : Envelope) (w : World) :
  forallb genuine (network w) = true ->
  let w' := snd (GitHub.push e w) in
  localStorage w' = localStorage w /\
  state w' = state w /\
  match fst (GitHub.push e w) with
  | Ok _ =>
    exists sha,
      remote w' = Some (mkRemoteFile (base64_encode (JSON_stringify_envelope e)) sha)
  | Throw _ => remote w' = remote w
  end.
Proof.
  intros Hnet. cbv zeta. split; [apply push_localStorage|split; [apply push_state|]].
  pose proof (push_result e w _ _ Hnet (surjective_pairing _)) as H.
  destruct (fst (GitHub.push e w)); [apply H|exact H].
Qed.

Lemma base64_encode_one_line bs :
  Forall is_byte bs ->
  filter (fun c => c <> 0x0A) (base64_encode bs) = base64_encode bs.
Proof.
  intros Hbs.
  assert (Forall (fun c => c <> 0x0A) (base64_encode bs)) as H.
  { rewrite base64_encode_split. apply Forall_app. split.
    - eapply Forall_impl; [exact (body_plain _ (sextets_range _ Hbs))|].
      intros c [Hws _] ->. discriminate Hws.
    - destruct (encoding_shape bs) as [[-> _]|[[-> _]|[-> _]]]; repeat constructor; lia. }
  induction H as [|c l Hc _ IH]; [reflexivity|].
  rewrite filter_cons_True by exact Hc. by rewrite IH.
Qed.

Lemma latin1_bytes s :
  Forall is_code_unit s -> forallb (fun c => c <=? 0xFF) s = true -> Forall is_byte s.
Proof.
  intros Hs Hl. rewrite forallb_forall in Hl. rewrite Forall_forall in *.
  intros c Hc. specialize (Hs c Hc). apply list_elem_of_In, Hl, Z.leb_le in Hc.
  unfold is_code_unit in Hs. unfold is_byte. lia.
Qed.

(** [pull], when the file is the base64 text of [bs]. *)
Lemma pull_file w cfg bs sha :
  fst (GitHub.getConfig w) = Ok (Some cfg) ->
  reachable w = true ->
  remote w = Some (mkRemoteFile (base64_encode bs) sha) ->
  Forall is_byte bs ->
  fst (GitHub.pull w) = JSON_parse_envelope bs.
Proof.
  intros Hcfg Hnet Hr Hbs. rewrite (pull_configured w cfg Hcfg).
  unfold bind at 1. unfold fetch. rewrite Hr. unfold reachable in Hnet.
  destruct (head (network w)) as [[| |s]|]; try discriminate Hnet;
    cbn [serve status res_ok]; cbn -[atob filter base64_encode];
    rewrite base64_encode_one_line by exact Hbs;
    unfold atob; rewrite forgiving_base64_decode_encode by exact Hbs;
    by destruct (JSON_parse_envelope bs).
Qed.

(** X10: what push wrote, pull reads back: after a push that
    returned, a pull from any configured device that reaches the
    repository returns the envelope that was pushed. *)
Theorem pull_after_push (e : Envelope) (w w2 : World) (cfg : Config) :
  forallb genuine (network w) = true ->
  Forall is_code_unit (JSON_stringify_envelope e) ->
  fst (GitHub.push e w) = Ok tt ->
  remote w2 = remote (snd (GitHub.push e w)) ->
  fst (GitHub.getConfig w2) = Ok (Some cfg) ->
  reachable w2 = true ->
  fst (GitHub.pull w2) = Ok (Some e).
Proof.
  intros Hnet Hstr Hpush Hr Hcfg Hnet2.
  pose proof (push_result e w _ _ Hnet (surjective_pairing _)) as H.
  rewrite Hpush in H. destruct H as (Hlatin & sha & Hw').
  rewrite Hw' in Hr.
  rewrite (pull_file w2 cfg _ sha Hcfg Hnet2 Hr) by (by apply latin1_bytes).
  apply JSON_parse_stringify_envelope.
Qed.


Lemma isConfigured_true w :
  fst (GitHub.isConfigured w) = Ok true ->
  exists cfg, fst (GitHub.getConfig w) = Ok (Some cfg).
Proof.
  unfold GitHub.isConfigured, bind.
  destruct (GitHub.getConfig w) as [[[cfg|]|ex] w1]; cbn; try discriminate.
  intros _. by exists cfg.
Qed.

Lemma isConfigured_spec w :
  fst (GitHub.isConfigured w) =
  match fst (GitHub.getConfig w) with
  | Ok (Some cfg) => Ok (nonempty (owner cfg) && nonempty (repo cfg) && nonempty (token cfg))
  | Ok None => Ok false
  | Throw ex => Throw ex
  end.
Proof.
  unfold GitHub.isConfigured, bind.
  by destruct (GitHub.getConfig w) as [[[cfg|]|ex] w1].
Qed.

(** X11: an envelope saved on one configured device, the pending
    flag left clear, is what load returns on any other configured
    device that reaches the repository, and load caches it in that
    device's local store. *)
Theorem load_after_save (e : Envelope) (wA wB : World) :
  forallb genuine (network wA) = true ->
  Forall is_code_unit (JSON_stringify_envelope e) ->
  fst (GitHub.isConfigured wA) = Ok true ->
  fst (Storage.hasPending (snd (Storage.save e wA))) = Ok false ->
  remote wB = remote (snd (Storage.save e wA)) ->
  fst (GitHub.isConfigured wB) = Ok true ->
  reachable wB = true ->
  fst (Storage.load wB) = Ok (Some e) /\
  fst (Storage.loadLocal (snd (Storage.load wB))) = Ok (Some e).
Proof.
  intros Hnet Hstr HcfgA Hpending Hr HcfgB HnetB.
  rewrite save_spec in Hpending, Hr. cbv zeta in Hpending, Hr.
  set (w1 := snd (Storage.saveLocal e wA)) in *.
  pose proof (syncToGitHub_cases e w1) as Hsync.
  rewrite (isConfigured_ext w1 wA), HcfgA in Hsync.
  2:{ unfold w1. rewrite saveLocal_spec. cbn. by rewrite lookup_insert_ne. }
  rewrite Hsync in Hpending, Hr.
  destruct (GitHub.push e w1) as [[[]|ex] w2] eqn:Hpush; cbn [fst snd] in *.
  2:{ rewrite hasPending_spec in Hpending. cbn in Hpending.
      rewrite lookup_insert_eq in Hpending. discriminate Hpending. }
  cbn [remote set_localStorage] in Hr.
  destruct (isConfigured_true wB HcfgB) as (cfg & Hcfg).
  assert (Hpull : fst (GitHub.pull wB) = Ok (Some e)).
  { pose proof (push_result e w1 _ _ Hnet Hpush) as (Hlatin & sha & Hw2).
    rewrite Hw2 in Hr.
    rewrite (pull_file wB cfg _ sha Hcfg HnetB Hr) by (by apply latin1_bytes).
    apply JSON_parse_stringify_envelope. }
  rewrite load_spec. pose proof (syncFromGitHub_cases wB) as HsyncB.
  rewrite HcfgB in HsyncB. rewrite HsyncB.
  destruct (GitHub.pull wB) as [r w3]. cbn [fst] in Hpull. subst r. cbn [fst snd].
  split; [reflexivity|]. apply loadLocal_written. cbn. apply lookup_insert_eq.
Qed.

End StoreExtras.

Section SettingsExtras.
Context {J : JSON} {JC : JSONConfig J}.

(** X12: setConfig stores what getConfig reads back; isConfigured
    then holds exactly when owner, repo and token are all non-empty;
    clearConfig makes the device unconfigured again; neither changes
    another key of localStorage. *)
Theorem setConfig_getConfig (owner repo token : jsstring) (w : World) :
  let w' := snd (GitHub.setConfig owner repo token w) in
  fst (GitHub.getConfig w') = Ok (Some (mkConfig owner repo token)) /\
  fst (GitHub.isConfigured w') = Ok (nonempty owner && nonempty repo && nonempty token) /\
  fst (GitHub.getConfig (snd (GitHub.clearConfig w'))) = Ok None /\
  fst (GitHub.isConfigured (snd (GitHub.clearConfig w'))) = Ok false /\
  delete GitHub.CFG_KEY (localStorage w') = delete GitHub.CFG_KEY (localStorage w) /\
  delete GitHub.CFG_KEY (localStorage (snd (GitHub.clearConfig w'))) =
    delete GitHub.CFG_KEY (localStorage w).
Proof.
  cbv zeta.
  assert (GitHub.setConfig owner repo token w =
    (Ok tt, set_localStorage
       <[GitHub.CFG_KEY := JSON_stringify_config (mkConfig owner repo token)]> w))
    as -> by reflexivity.
  assert (forall w, GitHub.clearConfig w =
    (Ok tt, set_localStorage (delete GitHub.CFG_KEY) w)) as Hclear by reflexivity.
  rewrite Hclear. cbn [snd].
  assert (Hget : fst (GitHub.getConfig (set_localStorage
            <[GitHub.CFG_KEY := JSON_stringify_config (mkConfig owner repo token)]> w)) =
          Ok (Some (mkConfig owner repo token))).
  { rewrite getConfig_spec. cbn [fst localStorage set_localStorage].
    rewrite lookup_insert_eq.
    pose proof (JSON_stringify_config_truthy (mkConfig owner repo token)) as Ht.
    pose proof (JSON_parse_stringify_config (mkConfig owner repo token)) as Hp.
    destruct (JSON_stringify_config _); [discriminate Ht|exact Hp]. }
  assert (Hgone : fst (GitHub.getConfig (set_localStorage (delete GitHub.CFG_KEY)
            (set_localStorage
               <[GitHub.CFG_KEY := JSON_stringify_config (mkConfig owner repo token)]> w))) =
          Ok None).
  { rewrite getConfig_spec. cbn [fst localStorage set_localStorage].
    by rewrite lookup_delete_eq. }
  split; [exact Hget|]. split; [|split; [exact Hgone|split; [|split]]].
  - by rewrite isConfigured_spec, Hget.
  - by rewrite isConfigured_spec, Hgone.
  - cbn [localStorage set_localStorage]. apply delete_insert_eq.
  - cbn [localStorage set_localStorage]. apply map_eq. intros k.
    destruct (decide (k = GitHub.CFG_KEY)) as [->|Hk]; [by rewrite !lookup_delete_eq|].
    by rewrite !lookup_delete_ne, lookup_insert_ne.
Qed.

End SettingsExtras.

Section CorruptExtras.
Context {SC : SubtleCrypto} {J : JSON}.

(** X13: a stored vault text that JSON.parse rejects is not taken
    for a wrong password or a first run: unless the remote supplies an
    envelope, load throws the parse error, unlock throws it too, and
    the session and localStorage stay as they were. *)
Theorem load_corrupt_local (pw raw : jsstring) (ex : exn) (w : World) :
  localStorage w !! Storage.VAULT_KEY = Some raw ->
  nonempty raw = true ->
  JSON_parse_envelope raw = Throw ex ->
  remote_silent w = true ->
  fst (Storage.load w) = Throw ex /\
  fst (App.unlock pw w) = Throw ex /\
  state (snd (App.unlock pw w)) = state w /\
  localStorage (snd (App.unlock pw w)) = localStorage w.
Proof.
  intros Hraw Hne Hparse Hsync. unfold remote_silent in Hsync.
  assert (Hload : fst (Storage.load w) = Throw ex /\
                  localStorage (snd (Storage.load w)) = localStorage w).
  { rewrite load_spec. pose proof (syncFromGitHub_localStorage w) as Hls.
    destruct (Storage.syncFromGitHub w) as [[[r|]|ex'] w1]; cbn [fst snd] in *;
      [discriminate Hsync|..]; rewrite loadLocal_spec, Hls, Hraw; cbn [fst snd];
      destruct raw; try discriminate Hne; by rewrite Hparse. }
  destruct Hload as [Hload Hls]. split; [exact Hload|].
  unfold App.unlock. unfold bind.
  pose proof (load_state w) as Hst.
  destruct (Storage.load w) as [r w1]. cbn [fst snd] in *. subst r. cbn [fst snd].
  done.
Qed.

End CorruptExtras.

Lemma push_all_or_nothing_witness :
  forallb genuine (network configured_device) = true /\
  let w' := snd (@GitHub.push toy_json sample_envelope configured_device) in
  localStorage w' = localStorage configured_device /\
  state w' = state configured_device /\
  match fst (@GitHub.push toy_json sample_envelope configured_device) with
  | Ok _ =>
    exists sha,
      remote w' = Some (mkRemoteFile (base64_encode (@JSON_stringify_envelope toy_json sample_envelope)) sha)
  | Throw _ => remote w' = remote configured_device
  end.
Proof.
  split; [reflexivity|].
  exact (@push_all_or_nothing toy_json sample_envelope configured_device eq_refl).
Defined.

Lemma pull_after_push_witness :
  fst (@GitHub.pull toy_json (snd (@GitHub.push toy_json sample_envelope configured_device))) =
  Ok (Some sample_envelope).
Proof.
  apply (@pull_after_push toy_json sample_envelope configured_device _
           (mkConfig (js "me") (js "me") (js "me"))).
  - reflexivity.
  - by_compute.
  - vm_compute. reflexivity.
  - reflexivity.
  - vm_compute. reflexivity.
  - vm_compute. reflexivity.
Defined.

Lemma load_after_save_witness :
  fst (@Storage.load toy_json second_device) = Ok (Some sample_envelope) /\
  fst (@Storage.loadLocal toy_json (snd (@Storage.load toy_json second_device))) =
    Ok (Some sample_envelope).
Proof.
  apply (@load_after_save toy_json sample_envelope configured_device second_device).
  - reflexivity.
  - by_compute.
  - vm_compute. reflexivity.
  - vm_compute. reflexivity.
  - vm_compute. reflexivity.
  - vm_compute. reflexivity.
  - reflexivity.
Defined.

Lemma load_corrupt_local_witness :
  fst (@Storage.load toy_json corrupt_device) = Throw SyntaxError /\
  fst (@App.unlock toy_crypto toy_json (js "hunter2duck") corrupt_device) = Throw SyntaxError /\
  state (snd (@App.unlock toy_crypto toy_json (js "hunter2duck") corrupt_device)) =
    state corrupt_device /\
  localStorage (snd (@App.unlock toy_crypto toy_json (js "hunter2duck") corrupt_device)) =
    localStorage corrupt_device.
Proof.
  apply (@load_corrupt_local toy_crypto toy_json (js "hunter2duck") [5] SyntaxError corrupt_device).
  - vm_compute. reflexivity.
  - reflexivity.
  - reflexivity.
  - vm_compute. reflexivity.
Defined.

(** ** The session and the vault operations (app.js) *)

Section SessionExtras.
Context {SC : SubtleCrypto} {J : JSON}.

Lemma the_vault_some {A} (k : Vault -> M A) w v :
  vault (state w) = Some v -> (v <- App.the_vault ;; k v)%M w = k v w.
Proof.
  intros H. unfold App.the_vault. unfold bind at 1. unfold bind at 1. cbn [gets].
  by rewrite H.
Qed.

Lemma the_vault_none {A} (k : Vault -> M A) w :
  vault (state w) = None -> (v <- App.the_vault ;; k v)%M w = (Throw TypeError, w).
Proof.
  intros H. unfold App.the_vault. unfold bind at 1. unfold bind at 1. cbn [gets].
  by rewrite H.
Qed.

(** Without a vault no operation changes anything. *)
Lemma call_without_vault o w : vault (state w) = None -> snd (App.call o w) = w.
Proof.
  intros H. destruct o; cbn [App.call]; rewrite ?snd_bind_ret.
  - unfold App.createTable. destruct (negb _); [reflexivity|]. by rewrite the_vault_none.
  - unfold App.renameTable. destruct (negb _); [reflexivity|].
    destruct (bool_decide _); [reflexivity|]. by rewrite the_vault_none.
  - unfold App.deleteTable. by rewrite the_vault_none.
  - unfold App.addColumn. by rewrite the_vault_none.
  - unfold App.renameColumn. by rewrite the_vault_none.
  - unfold App.deleteColumn. by rewrite the_vault_none.
  - unfold App.addRow. by rewrite the_vault_none.
  - unfold App.updateCell. by rewrite the_vault_none.
  - unfold App.deleteRow. by rewrite the_vault_none.
  - unfold App.importCSV. destruct (App.csv_lines _); [reflexivity|].
    by rewrite the_vault_none.
Qed.

Lemma call_all_without_vault ops w : vault (state w) = None -> App.call_all ops w = w.
Proof.
  intros H. induction ops as [|o ops IH]; [reflexivity|].
  unfold App.call_all in *. cbn [foldl]. by rewrite call_without_vault.
Qed.

(** X14: lock always succeeds and closes the session: the password
    and the vault are gone from memory and the timer is cancelled;
    after it no table can be read or exported, every vault operation,
    persistVault, resetLockTimer and a second lock leave the world
    exactly as it is; localStorage and the remote file are not
    touched by lock. *)
Theorem lock_closes_the_vault (ops : list App.op) (name : jsstring) (w : World) :
  let w' := snd (App.lock w) in
  fst (App.lock w) = Ok tt /\
  locked (state w') = true /\
  password (state w') = None /\
  lockTimer w' = false /\
  fst (App.getTable name w') = Ok None /\
  fst (App.exportCSV name w') = Ok [] /\
  App.call_all ops w' = w' /\
  snd (App.persistVault w') = w' /\
  snd (App.resetLockTimer w') = w' /\
  snd (App.lock w') = w' /\
  localStorage w' = localStorage w /\
  remote w' = remote w.
Proof.
  cbv zeta. repeat split. by apply call_all_without_vault.
Qed.


(** The operations leave [locked], the password and the timer alone. *)
Lemma persistVault_keys :
  preserves (fun w => (locked (state w), password (state w), lockTimer w)) App.persistVault.
Proof.
  intros w. destruct (persistVault_session w) as (_ & H & Ht).
  unfold session in H. injection H as Hl Hp _ _ _. by rewrite Hl, Hp, Ht.
Qed.

Lemma call_keys o :
  preserves (fun w => (locked (state w), password (state w), lockTimer w)) (App.call o).
Proof.
  destruct o; cbn [App.call];
    unfold App.createTable, App.renameTable, App.deleteTable, App.addColumn,
      App.renameColumn, App.deleteColumn, App.addRow, App.updateCell, App.deleteRow,
      App.importCSV, App.put_table, App.the_vault;
    repeat first
      [ apply persistVault_keys | apply preserves_ret | apply preserves_throw
      | apply preserves_gets | apply preserves_bind
      | match goal with
        | |- forall _, _ => intro
        | |- preserves _ (App.set_vault _) => by intros ?
        | |- preserves _ (App.set_activeTable _) => by intros ?
        | |- preserves _ (match ?x with _ => _ end) => destruct x
        | |- preserves _ (if ?x then _ else _) => destruct x
        end ].
Qed.

Lemma call_locked_clean o w : locked_clean w -> locked_clean (snd (App.call o w)).
Proof.
  intros Hw. pose proof (call_keys o w) as Hk. cbv beta in Hk.
  injection Hk as Hl Hp Ht. unfold locked_clean. rewrite Hl. intros Hlocked.
  destruct (Hw Hlocked) as (_ & Hv & _). rewrite call_without_vault by exact Hv.
  by apply Hw.
Qed.

Lemma unlock_locked_clean pw w : locked_clean w -> locked_clean (snd (App.unlock pw w)).
Proof.
  intros Hw.
  assert (Hsame : forall w1, state w1 = state w -> lockTimer w1 = lockTimer w ->
            locked_clean w1).
  { intros w1 Hs Ht. unfold locked_clean. by rewrite Hs, Ht. }
  destruct (fst (Storage.load w)) as [[payload|]|ex] eqn:Hload.
  - unfold App.unlock. unfold bind at 1.
    pose proof (load_state w) as Hs. pose proof (load_lockTimer w) as Ht.
    destruct (Storage.load w) as [r w1]. cbn [fst snd] in *. subst r.
    destruct (verify payload pw); cbn [negb]; [|by apply Hsame].
    unfold bind at 1. unfold lift at 1.
    destruct (decrypt payload pw) as [json|ex]; [|by apply Hsame].
    unfold bind at 1. unfold lift at 1.
    destruct (JSON_parse_vault json) as [parsed|ex]; [|by apply Hsame].
    intros Hlocked. exfalso. revert Hlocked. cbn. discriminate.
  - rewrite (unlock_first_run pw w Hload). cbv zeta. cbn [snd].
    set (w2 := set_state _ _).
    destruct (persistVault_session w2) as (_ & Hsess & _).
    unfold session in Hsess. injection Hsess as Hl _ _ _ _.
    intros Hlocked. cbn [state set_lockTimer] in Hlocked. rewrite Hl in Hlocked.
    discriminate Hlocked.
  - unfold App.unlock. unfold bind at 1.
    pose proof (load_state w) as Hs. pose proof (load_lockTimer w) as Ht.
    destruct (Storage.load w) as [r w1]. cbn [fst snd] in *. subst r. by apply Hsame.
Qed.

Lemma handle_locked_clean e w : locked_clean w -> locked_clean (snd (handle e w)).
Proof.
  destruct e as [pw| | |o]; cbn [handle].
  - rewrite snd_bind_ret. apply unlock_locked_clean.
  - intros _ _. done.
  - intros Hw. unfold App.resetLockTimer, bind. cbn [gets].
    destruct (locked (state w)) eqn:Hl; [exact Hw|].
    intros Hlocked. cbn in Hlocked. congruence.
  - apply call_locked_clean.
Qed.

(** X15: while the session is locked, neither the password nor the
    vault is in memory and no auto-lock timer is pending: this holds
    after every sequence of logins (right or wrong), locks, user
    activity and vault operations, provided it held before, as it does
    when the page is loaded. *)
Theorem locked_means_clean (es : list event) (w : World) :
  locked_clean w -> locked_clean (handle_all es w).
Proof.
  revert w. induction es as [|e es IH]; intros w Hw; [exact Hw|].
  unfold handle_all in *. cbn [foldl]. by apply IH, handle_locked_clean.
Qed.

End SessionExtras.

(** ** Tables always have a column (app.js) *)

Lemma parseRow_loop_nonempty line result cur inQ :
  App.parseRow_loop line result cur inQ <> [].
Proof.
  revert result cur inQ. induction line as [|c rest IH]; intros result cur inQ.
  - cbn [App.parseRow_loop]. rewrite reverse_cons.
    intros [_ H]%app_eq_nil. discriminate H.
  - cbn [App.parseRow_loop]. destruct (c =? 34); [apply IH|].
    destruct ((c =? 44) && negb inQ); apply IH.
Qed.

Section ColumnFacts.
Context {SC : SubtleCrypto} {J : JSON}.

Lemma has_columns_put v name t :
  vault_has_columns v -> columns t <> [] ->
  vault_has_columns (set_tables <[name := STable t]> v).
Proof.
  intros Hv Ht name' t'. cbn [set_tables tables]. rewrite lookup_insert.
  case_decide; [by intros [= <-]|apply Hv].
Qed.

Lemma has_columns_vault w v :
  vault_of w = Some v -> vault_has_columns v -> has_columns w.
Proof. unfold has_columns, vault_of. by intros ->. Qed.

Ltac enter v Hv Hw :=
  unfold has_columns at 1; intros Hw;
  unfold App.the_vault; unfold bind at 1; unfold bind at 1; cbn [gets];
  destruct (vault (state _)) as [v|] eqn:Hv; cbn [ret throw snd fst];
  [|by intros; unfold has_columns; rewrite Hv].

Ltac same_vault Hv Hw := cbn [ret throw snd]; unfold has_columns; rewrite Hv; exact Hw.

Ltac vault_kept :=
  repeat first
    [ apply persistVault_vault | apply set_activeTable_vault
    | apply preserves_ret | apply preserves_throw | apply preserves_gets
    | apply preserves_bind
    | match goal with
      | |- forall _, _ => intro
      | |- preserves _ (if ?x then _ else _) => destruct x
      end ].

Ltac new_vault :=
  unfold App.put_table; eapply has_columns_vault;
  [apply after_set_vault; vault_kept|].

Ltac old_table Hw Ht := exact (Hw _ _ (tables_get_own _ _ _ Ht)).

Lemma call_has_columns o w : has_columns w -> has_columns (snd (App.call o w)).
Proof.
  destruct o; cbn [App.call]; rewrite ?snd_bind_ret.
  - unfold App.createTable. destruct (negb _); [done|]. enter v Hv Hw.
    destruct (tables_get v (trim name)); cbn [ret snd]; try same_vault Hv Hw.
    new_vault. by apply has_columns_put.
  - unfold App.renameTable. destruct (negb _); [done|]. destruct (bool_decide _); [done|].
    enter v Hv Hw.
    destruct (tables_get v (trim newName)); cbn [ret snd]; try same_vault Hv Hw.
    new_vault. intros name t. cbn [set_tables tables].
    rewrite lookup_delete. case_decide; [discriminate|].
    rewrite lookup_insert. case_decide; [|apply Hw].
    intros [= Hold]. eapply Hw, tables_get_own, Hold.
  - unfold App.deleteTable. enter v Hv Hw.
    assert (Hdel : vault_has_columns (set_tables (delete name) v)).
    { intros name' t. cbn [set_tables tables]. rewrite lookup_delete.
      case_decide; [discriminate|apply Hw]. }
    destruct (tables_get v name); cbn [ret snd]; try same_vault Hv Hw; by new_vault.
  - unfold App.addColumn. enter v Hv Hw.
    destruct (tables_get v tableName) as [tbl| |] eqn:Ht; cbn [ret throw snd];
      try same_vault Hv Hw.
    new_vault. apply has_columns_put; [exact Hw|]. cbn [columns].
    by destruct (columns tbl).
  - unfold App.renameColumn. enter v Hv Hw.
    destruct (tables_get v tableName) as [tbl| |] eqn:Ht; cbn [ret throw snd];
      try same_vault Hv Hw.
    2:{ destruct (colIndex <? 0); same_vault Hv Hw. }
    destruct (_ || _); [same_vault Hv Hw|].
    new_vault. apply has_columns_put; [exact Hw|]. cbn [columns].
    intros Hnil. apply (f_equal length) in Hnil. rewrite length_insert in Hnil.
    assert (columns tbl <> []) as Hne by old_table Hw Ht.
    by destruct (columns tbl).
  - unfold App.deleteColumn. enter v Hv Hw.
    destruct (tables_get v tableName) as [tbl| |] eqn:Ht; cbn [ret throw snd];
      try same_vault Hv Hw.
    destruct (Nat.leb_spec (length (columns tbl)) 1); [same_vault Hv Hw|].
    new_vault. apply has_columns_put; [exact Hw|]. cbn [columns].
    intros Hnil. apply (f_equal length) in Hnil. rewrite splice1_length in Hnil.
    cbv zeta in Hnil. destruct (_ <? _) in Hnil; cbn [length] in Hnil; lia.
  - unfold App.addRow. enter v Hv Hw.
    destruct (tables_get v tableName) as [tbl| |] eqn:Ht; cbn [ret throw snd];
      try same_vault Hv Hw.
    new_vault. apply has_columns_put; [exact Hw|]. cbn [columns]. old_table Hw Ht.
  - unfold App.updateCell. enter v Hv Hw.
    destruct (tables_get v tableName) as [tbl| |] eqn:Ht; cbn [ret throw snd];
      try same_vault Hv Hw.
    destruct (array_get (rows tbl) rowIndex) as [row|]; [|same_vault Hv Hw].
    new_vault. apply has_columns_put; [exact Hw|]. cbn [columns]. old_table Hw Ht.
  - unfold App.deleteRow. enter v Hv Hw.
    destruct (tables_get v tableName) as [tbl| |] eqn:Ht; cbn [ret throw snd];
      try same_vault Hv Hw.
    new_vault. apply has_columns_put; [exact Hw|]. cbn [columns]. old_table Hw Ht.
  - unfold App.importCSV. cbv zeta.
    destruct (App.csv_lines csvText) as [|first others]; [done|].
    enter v Hv Hw.
    destruct (tables_get v (App.import_name tableName)) as [tbl| |] eqn:Ht.
    + new_vault. apply has_columns_put; [exact Hw|]. cbn [columns]. old_table Hw Ht.
    + new_vault. apply has_columns_put; [exact Hw|]. cbn [columns].
      apply parseRow_loop_nonempty.
    + unfold bind. same_vault Hv Hw.
Qed.

(** X16: no vault operation leaves a table without a column: if
    every table has at least one column, so it is after any sequence
    of operations, CSV imports included. *)
Theorem tables_keep_a_column (ops : list App.op) (w : World) :
  has_columns w -> has_columns (App.call_all ops w).
Proof.
  revert w. induction ops as [|o ops IH]; intros w Hw; [exact Hw|].
  cbn [App.call_all foldl]. by apply IH, call_has_columns.
Qed.

End ColumnFacts.

(** ** Table, column and row operations (app.js) *)

Section TableExtras.
Context {SC : SubtleCrypto} {J : JSON}.

Lemma persistVault_ok w : fst (App.persistVault w) = Ok tt.
Proof. by destruct (persistVault_session w) as (H & _). Qed.

(** A table written and persisted. *)
Lemma put_persist v name t w :
  fst ((App.put_table v name t ;; App.persistVault)%M w) = Ok tt /\
  vault_of (snd ((App.put_table v name t ;; App.persistVault)%M w)) =
    Some (set_tables <[name := STable t]> v).
Proof.
  split.
  - unfold bind. cbn [App.put_table App.set_vault modify]. apply persistVault_ok.
  - apply after_set_vault, persistVault_vault.
Qed.




Lemma tables_get_lookup v name s : tables v !! name = Some s -> tables_get v name = s.
Proof. unfold tables_get. by intros ->. Qed.







Lemma addColumn_spec tableName colName w v tbl :
  vault_of w = Some v -> tables v !! tableName = Some (STable tbl) ->
  vault_of (snd (App.addColumn tableName colName w)) =
  Some (set_tables
    <[tableName := STable (mkTable
        (columns tbl ++
           [match trim colName with
            | [] => js ("Column " +:+ pretty (length (columns tbl) + 1)%nat)
            | c :: r => c :: r
            end])
        (map (fun row => row ++ [Str []]) (rows tbl)))]> v).
Proof.
  intros Hv Ht. unfold App.addColumn.
  rewrite (the_vault_some _ w v Hv), (tables_get_lookup _ _ _ Ht). apply put_persist.
Qed.

Lemma deleteColumn_spec tableName colIndex w v tbl :
  vault_of w = Some v -> tables v !! tableName = Some (STable tbl) ->
  (1 < length (columns tbl))%nat ->
  vault_of (snd (App.deleteColumn tableName colIndex w)) =
  Some (set_tables
    <[tableName := STable (mkTable (splice1 (columns tbl) colIndex)
        (map (fun row => splice1 row colIndex) (rows tbl)))]> v).
Proof.
  intros Hv Ht Hlen. unfold App.deleteColumn.
  rewrite (the_vault_some _ w v Hv), (tables_get_lookup _ _ _ Ht).
  destruct (Nat.leb_spec (length (columns tbl)) 1); [lia|]. apply put_persist.
Qed.

Lemma addRow_spec tableName w v tbl :
  vault_of w = Some v -> tables v !! tableName = Some (STable tbl) ->
  vault_of (snd (App.addRow tableName w)) =
  Some (set_tables
    <[tableName := STable (mkTable (columns tbl)
        (rows tbl ++ [replicate (length (columns tbl)) (Str [])]))]> v).
Proof.
  intros Hv Ht. unfold App.addRow.
  rewrite (the_vault_some _ w v Hv), (tables_get_lookup _ _ _ Ht). apply put_persist.
Qed.

Lemma deleteRow_spec tableName rowIndex w v tbl :
  vault_of w = Some v -> tables v !! tableName = Some (STable tbl) ->
  vault_of (snd (App.deleteRow tableName rowIndex w)) =
  Some (set_tables
    <[tableName := STable (mkTable (columns tbl) (splice1 (rows tbl) rowIndex))]> v).
Proof.
  intros Hv Ht. unfold App.deleteRow.
  rewrite (the_vault_some _ w v Hv), (tables_get_lookup _ _ _ Ht). apply put_persist.
Qed.

Lemma splice1_nat {A} (l : list A) (k : nat) : splice1 l (Z.of_nat k) = delete k l.
Proof.
  unfold splice1. destruct (Z.ltb_spec (Z.of_nat k) 0); [lia|].
  destruct (Z.min_spec (Z.of_nat k) (Z.of_nat (length l))) as [[_ ->]|[Hle ->]].
  - by rewrite Nat2Z.id.
  - rewrite Nat2Z.id, !delete_ge by lia. reflexivity.
Qed.

Lemma delete_last {A} (l : list A) x : delete (length l) (l ++ [x]) = l.
Proof. induction l as [|a l IH]; [reflexivity|]. cbn. f_equal. exact IH. Qed.

Lemma splice1_appended {A} (l : list (list A)) (n : nat) (x : A) :
  Forall (fun row => length row = n) l ->
  map (fun row => splice1 (row ++ [x]) (Z.of_nat n)) l = l.
Proof.
  induction 1 as [|row rs Hrow _ IH]; [reflexivity|].
  cbn [map]. rewrite IH. f_equal. subst n. by rewrite splice1_nat, delete_last.
Qed.

(** Writing a table over itself changes nothing. *)
Lemma put_back v name t t' :
  tables v !! name = Some (STable t) ->
  set_tables <[name := STable t]> (set_tables <[name := STable t']> v) = v.
Proof.
  intros Ht. destruct v as [ver m]. unfold set_tables. cbn [version tables] in *.
  f_equal. rewrite insert_insert_eq. by apply insert_id.
Qed.

(** X20: deleteColumn undoes addColumn: on a table with at least one
    column whose rows all have one cell per column, adding a column
    and deleting the column at the index it got gives back the vault
    as it was. *)
Theorem deleteColumn_undoes_addColumn (tableName colName : jsstring) (w : World)
    (v : Vault) (tbl : Table) :
  vault_of w = Some v ->
  tables v !! tableName = Some (STable tbl) ->
  columns tbl <> [] ->
  table_rectangular tbl ->
  let w1 := snd (App.addColumn tableName colName w) in
  vault_of (snd (App.deleteColumn tableName (Z.of_nat (length (columns tbl))) w1)) =
  Some v.
Proof.
  intros Hv Ht Hcols Hrect. cbv zeta.
  pose proof (addColumn_spec tableName colName w v tbl Hv Ht) as Hv1.
  erewrite deleteColumn_spec; [|exact Hv1|cbn; apply lookup_insert_eq|].
  2:{ cbn [columns]. rewrite length_app. cbn [length]. destruct (columns tbl); [done|cbn; lia]. }
  f_equal. cbn [columns rows].
  rewrite splice1_nat, delete_last, map_map.
  rewrite (splice1_appended _ _ _ Hrect).
  replace (mkTable (columns tbl) (rows tbl)) with tbl by (by destruct tbl).
  by apply put_back.
Qed.

(** X21: addRow appends one row of as many empty strings as the table
    has columns, and deleteRow undoes it, at the index the row got as
    well as at index -1. *)
Theorem deleteRow_undoes_addRow (tableName : jsstring) (w : World) (v : Vault)
    (tbl : Table) :
  vault_of w = Some v ->
  tables v !! tableName = Some (STable tbl) ->
  let w1 := snd (App.addRow tableName w) in
  fst (App.getTable tableName w1) =
    Ok (Some (STable (mkTable (columns tbl)
      (rows tbl ++ [replicate (length (columns tbl)) (Str [])])))) /\
  vault_of (snd (App.deleteRow tableName (Z.of_nat (length (rows tbl))) w1)) = Some v /\
  vault_of (snd (App.deleteRow tableName (-1) w1)) = Some v.
Proof.
  intros Hv Ht. cbv zeta.
  pose proof (addRow_spec tableName w v tbl Hv Ht) as Hv1.
  split; [|split].
  - unfold App.getTable, bind. cbn [gets ret fst]. unfold vault_of in Hv1. rewrite Hv1.
    unfold tables_get. cbn [set_tables tables]. by rewrite lookup_insert_eq.
  - erewrite deleteRow_spec; [|exact Hv1|cbn; apply lookup_insert_eq].
    f_equal. cbn [columns rows]. rewrite splice1_nat, delete_last.
    replace (mkTable (columns tbl) (rows tbl)) with tbl by (by destruct tbl).
    by apply put_back.
  - erewrite deleteRow_spec; [|exact Hv1|cbn; apply lookup_insert_eq].
    f_equal. cbn [columns rows].
    assert (splice1 (rows tbl ++ [replicate (length (columns tbl)) (Str [])]) (-1) = rows tbl)
      as ->.
    { unfold splice1. rewrite length_app. cbn [length].
      change (-1 <? 0) with true. cbv iota.
      replace (Z.to_nat (Z.max (Z.of_nat (length (rows tbl) + 1) + -1) 0))
        with (length (rows tbl)) by lia.
      apply delete_last. }
    replace (mkTable (columns tbl) (rows tbl)) with tbl by (by destruct tbl).
    by apply put_back.
Qed.

(** X22: the index of deleteRow is a splice index: an index k in
    range deletes row k; an index at or past the end deletes nothing;
    a negative index counts from the end, and one below minus the
    number of rows deletes the first row. *)
Theorem deleteRow_index (tableName : jsstring) (k : nat) (w : World) (v : Vault)
    (tbl : Table) :
  vault_of w = Some v ->
  tables v !! tableName = Some (STable tbl) ->
  let len := Z.of_nat (length (rows tbl)) in
  let after i := vault_of (snd (App.deleteRow tableName i w)) in
  after (Z.of_nat k) =
    Some (set_tables <[tableName := STable (mkTable (columns tbl) (delete k (rows tbl)))]> v) /\
  after (len + Z.of_nat k) = Some v /\
  after (- Z.of_nat (S k)) = after (Z.max (len - Z.of_nat (S k)) 0).
Proof.
  intros Hv Ht. cbv zeta beta. rewrite !(deleteRow_spec _ _ w v tbl Hv Ht).
  split; [|split].
  - by rewrite splice1_nat.
  - f_equal. replace (Z.of_nat (length (rows tbl)) + Z.of_nat k)
      with (Z.of_nat (length (rows tbl) + k)) by lia.
    rewrite splice1_nat, delete_ge by lia.
    replace (mkTable (columns tbl) (rows tbl)) with tbl by (by destruct tbl).
    destruct v as [ver m]. unfold set_tables. cbn [version tables] in *.
    f_equal. by apply insert_id.
  - do 4 f_equal. unfold splice1.
    destruct (Z.ltb_spec (- Z.of_nat (S k)) 0); [|lia].
    destruct (Z.ltb_spec (Z.max (Z.of_nat (length (rows tbl)) - Z.of_nat (S k)) 0) 0); [lia|].
    assert (Z.max (Z.of_nat (length (rows tbl)) + - Z.of_nat (S k)) 0 =
            Z.min (Z.max (Z.of_nat (length (rows tbl)) - Z.of_nat (S k)) 0)
              (Z.of_nat (length (rows tbl)))) as -> by lia.
    reflexivity.
Qed.

End TableExtras.

(** ** CSV import and export (app.js) *)

Lemma trimStart_whitespace s :
  Forall (fun c => is_js_whitespace c = true) s -> trimStart s = [].
Proof. induction 1 as [|c s Hc _ IH]; [reflexivity|]. cbn. by rewrite Hc. Qed.

Lemma csv_lines_blank csvText :
  Forall (fun c => is_js_whitespace c = true) csvText -> App.csv_lines csvText = [].
Proof.
  intros H. unfold App.csv_lines, trim. rewrite (trimStart_whitespace _ H). reflexivity.
Qed.









Section ImportExtras.
Context {SC : SubtleCrypto} {J : JSON}.



(** X24: importCSV of a text that is empty or all white space returns
    false and changes nothing, whatever the state: it returns before
    the vault is looked at, so also while locked. *)
Theorem importCSV_blank (tableName csvText : jsstring) (w : World) :
  Forall (fun c => is_js_whitespace c = true) csvText ->
  App.importCSV tableName csvText w = (Ok false, w).
Proof.
  intros H. unfold App.importCSV. cbv zeta. by rewrite csv_lines_blank.
Qed.

End ImportExtras.

(** ** What is in memory is what is stored (app.js) *)

Section PersistExtras.
Context {SC : SubtleCrypto} {J : JSON}.






Lemma load_some_local w r :
  fst (Storage.load w) = Ok (Some r) ->
  fst (Storage.loadLocal (snd (Storage.load w))) = Ok (Some r).
Proof.
  rewrite load_spec.
  destruct (Storage.syncFromGitHub w) as [[[r'|]|ex] w1]; cbn [fst snd].
  - intros [= ->]. apply loadLocal_written. cbn. apply lookup_insert_eq.
  - rewrite !loadLocal_spec. by cbn [fst snd].
  - rewrite !loadLocal_spec. by cbn [fst snd].
Qed.


(** [unlock] on an envelope that the password opens. *)
Lemma unlock_returning pw w payload json parsed :
  fst (Storage.load w) = Ok (Some payload) ->
  decrypt payload pw = Ok json ->
  JSON_parse_vault json = Ok parsed ->
  App.unlock pw w =
  (Ok (mkUnlockResult true (Some false)),
   set_lockTimer true
     (set_state (fun st => mkState false (Some pw) parsed (activeTable st) (searchQuery st)
                             (pendingSync st)) (snd (Storage.load w)))).
Proof.
  intros Hload Hdec Hparse. unfold App.unlock. unfold bind at 1.
  destruct (Storage.load w) as [r w1]. cbn [fst snd] in *. subst r.
  unfold verify. rewrite Hdec. cbn [negb]. unfold bind, lift. rewrite Hparse.
  reflexivity.
Qed.



End PersistExtras.

(** ** The login screen and the settings screen (ui.js) *)

Section ScreenExtras.
Context {SC : SubtleCrypto} {J : JSON}.

(** A successful [unlock] with a non-empty password leaves an envelope
    in the local store that the password opens. *)
Lemma unlock_ok_stored pw w res :
  nonempty pw = true ->
  fst (App.unlock pw w) = Ok res -> ok res = true ->
  let w' := snd (App.unlock pw w) in
  locked (state w') = false /\
  password (state w') = Some pw /\
  exists env, fst (Storage.loadLocal w') = Ok (Some env) /\ verify env pw = true.
Proof.
  intros Hpw Hres Hok. cbv zeta.
  destruct (fst (Storage.load w)) as [[payload|]|ex] eqn:Hload.
  - destruct (verify payload pw) eqn:Hver.
    2:{ rewrite (unlock_wrong_password pw w payload Hload Hver) in Hres.
        injection Hres as <-. discriminate Hok. }
    assert (exists json, decrypt payload pw = Ok json) as [json Hdec].
    { unfold verify in Hver. destruct (decrypt payload pw) as [json|]; [by eexists|done]. }
    destruct (JSON_parse_vault json) as [parsed|ex] eqn:Hparse.
    + rewrite (unlock_returning pw w payload json parsed Hload Hdec Hparse). cbn [fst snd].
      split; [reflexivity|]. split; [reflexivity|]. exists payload. split; [|exact Hver].
      pose proof (load_some_local w payload Hload) as H. rewrite loadLocal_spec in *. exact H.
    + exfalso. revert Hres. unfold App.unlock. unfold bind at 1.
      destruct (Storage.load w) as [r w1]. cbn [fst snd] in *. subst r.
      rewrite Hver. cbn [negb]. unfold bind, lift. rewrite Hdec, Hparse. discriminate.
  - rewrite (unlock_first_run pw w Hload). cbv zeta. cbn [fst snd].
    set (w2 := set_state (first_run_state pw) _).
    destruct pw as [|c pw]; [discriminate Hpw|].
    destruct (persistVault_spec w2 App.emptyVault c pw eq_refl eq_refl)
      as (env & Henv & _ & Hll & Hsess & _).
    unfold session in Hsess. injection Hsess as Hl Hp _ _ _.
    cbn [state set_lockTimer]. split; [by rewrite Hl|]. split; [by rewrite Hp|].
    exists env. split; [rewrite loadLocal_spec in *; exact Hll|].
    unfold verify.
    by rewrite (decrypt_encrypt_key _ (c :: pw) (c :: pw) (rng w2) env
                  (JSON_stringify_vault_string _) Henv eq_refl).
  - exfalso. revert Hres. unfold App.unlock. unfold bind at 1.
    destruct (Storage.load w) as [r w1]. cbn [fst snd] in *. subst r. discriminate.
Qed.

(** X28: the login form lets the user in only with a password that
    is not empty and, on first run, has at least 8 code units and
    equals its confirmation; and whenever it lets the user in, the
    local store holds an envelope that this password opens. *)
Theorem form_lets_in_only_stored (isFirst : bool) (pw confirm : jsstring) (w : World) :
  fst (Login.form_onsubmit isFirst pw confirm w) = Ok Login.table_list ->
  let w' := snd (Login.form_onsubmit isFirst pw confirm w) in
  nonempty pw = true /\
  (if isFirst then (8 <= length pw)%nat /\ pw = confirm else True) /\
  locked (state w') = false /\
  password (state w') = Some pw /\
  exists env, fst (Storage.loadLocal w') = Ok (Some env) /\ verify env pw = true.
Proof.
  unfold Login.form_onsubmit. cbv zeta.
  destruct (isFirst && (length pw <? 8)%nat) eqn:E1; [discriminate|].
  destruct (isFirst && negb (bool_decide (pw = confirm))) eqn:E2; [discriminate|].
  destruct (nonempty pw) eqn:Hne; cbn [negb]; [|discriminate].
  destruct (App.unlock pw w) as [[res|ex] w1] eqn:Hu; cbn [fst snd]; [|discriminate].
  destruct (ok res) eqn:Hok; [|discriminate]. intros _.
  split; [reflexivity|]. split.
  - destruct isFirst; [|done]. cbn [andb] in E1, E2.
    apply Nat.ltb_ge in E1. apply negb_false_iff, bool_decide_eq_true in E2. done.
  - pose proof (unlock_ok_stored pw w res Hne) as H. rewrite Hu in H. by apply H.
Qed.

(** The form stops at its validation without calling unlock. *)
Lemma form_rejects_early (isFirst : bool) (pw confirm : jsstring) (w : World) :
  nonempty pw = false \/
  (isFirst = true /\ ((length pw < 8)%nat \/ pw <> confirm)) ->
  snd (Login.form_onsubmit isFirst pw confirm w) = w /\
  exists msg, fst (Login.form_onsubmit isFirst pw confirm w) = Ok msg /\
    (msg = Login.too_short \/ msg = Login.mismatch \/ msg = Login.missing).
Proof.
  intros H. unfold Login.form_onsubmit.
  destruct (isFirst && (length pw <? 8)%nat) eqn:E1; [split; [done|eauto]|].
  destruct (isFirst && negb (bool_decide (pw = confirm))) eqn:E2; [split; [done|eauto]|].
  destruct (nonempty pw) eqn:Hne; cbn [negb]; [exfalso|split; [done|eauto 6]].
  destruct H as [H|[-> [H|H]]]; [discriminate| |]; cbn [andb] in *.
  - apply Nat.ltb_ge in E1. lia.
  - apply negb_false_iff, bool_decide_eq_true in E2. done.
Qed.


Lemma unconfigured_empty w :
  localStorage w !! GitHub.CFG_KEY = None -> fst (GitHub.isConfigured w) = Ok false.
Proof.
  intros H. unfold GitHub.isConfigured, GitHub.getConfig, bind, getItem, gets. cbn.
  by rewrite H.
Qed.

(** [save] on a device without a configuration makes no fetch. *)
Lemma save_unconfigured_quiet e w :
  fst (GitHub.isConfigured w) = Ok false ->
  fetches (snd (Storage.save e w)) = fetches w /\
  remote (snd (Storage.save e w)) = remote w.
Proof.
  intros Hcfg. rewrite save_spec. cbv zeta.
  pose proof (syncToGitHub_cases e (snd (Storage.saveLocal e w))) as Hsync.
  rewrite (isConfigured_ext _ w), Hcfg in Hsync.
  2:{ rewrite saveLocal_spec. cbn. by rewrite lookup_insert_ne. }
  rewrite Hsync. by rewrite saveLocal_spec.
Qed.

Lemma persistVault_unconfigured_quiet w :
  fst (GitHub.isConfigured w) = Ok false ->
  fetches (snd (App.persistVault w)) = fetches w /\
  remote (snd (App.persistVault w)) = remote w.
Proof.
  intros Hcfg. destruct (vault (state w)) as [v|] eqn:Hv.
  2:{ by rewrite persistVault_skip by auto. }
  destruct (password (state w)) as [[|c pw]|] eqn:Hp.
  1,3: by rewrite persistVault_skip by auto.
  destruct (persistVault_eq w v c pw Hv Hp) as (env & _ & Heq). cbv zeta in Heq.
  rewrite Heq. cbn [snd fetches remote set_state].
  apply (save_unconfigured_quiet env (set_rng _ w)).
  erewrite isConfigured_ext; [exact Hcfg|reflexivity].
Qed.

(** X29: the reset link, once confirmed, empties localStorage: the
    vault, the pending flag and the GitHub configuration; the remote
    file stays.  The next unlock is then a first run that creates an
    empty vault without a single fetch, whatever the remote holds. *)
Theorem reset_then_first_run (pw : jsstring) (w : World) :
  let w1 := snd (Login.resetLink_onclick true w) in
  let w2 := snd (App.unlock pw w1) in
  snd (Login.resetLink_onclick false w) = w /\
  localStorage w1 = ∅ /\
  remote w1 = remote w /\
  fst (Login.isFirst w1) = Ok true /\
  fst (GitHub.isConfigured w1) = Ok false /\
  fst (App.unlock pw w1) = first_run /\
  vault (state w2) = Some App.emptyVault /\
  fetches w2 = fetches w /\
  remote w2 = remote w.
Proof.
  cbv zeta.
  assert (Login.resetLink_onclick true w = (Ok tt, set_localStorage (fun _ => ∅) w))
    as -> by reflexivity.
  cbn [snd]. set (w1 := set_localStorage _ w).
  assert (Hcfg : fst (GitHub.isConfigured w1) = Ok false) by (by apply unconfigured_empty).
  assert (Hsync : Storage.syncFromGitHub w1 = (Ok None, w1)).
  { pose proof (syncFromGitHub_cases w1) as H. by rewrite Hcfg in H. }
  assert (Hload : Storage.load w1 = (Ok None, w1)).
  { rewrite load_spec, Hsync. by rewrite loadLocal_spec. }
  assert (Hl : fst (Storage.load w1) = Ok None) by (by rewrite Hload).
  rewrite (unlock_first_run pw w1 Hl). cbv zeta. rewrite Hload. cbn [fst snd].
  set (w2 := set_state (first_run_state pw) w1).
  destruct (persistVault_session w2) as (_ & Hsess & _).
  destruct (persistVault_unconfigured_quiet w2) as [Hf Hr].
  { erewrite isConfigured_ext; [exact Hcfg|reflexivity]. }
  unfold session in Hsess. injection Hsess as _ _ Hv _ _.
  cbn [state fetches remote set_lockTimer]. rewrite Hv, Hf, Hr.
  repeat split.
Qed.

(** X30: the Change Password handler changes nothing unless it ends
    in its success toast: with new passwords that differ or are
    shorter than 8, without a stored vault, with a wrong current
    password or a stored text that does not parse, the world is as
    before. *)
Theorem pwBtn_rejection_changes_nothing (oldPw newPw newPw2 : jsstring) (w : World) :
  match fst (UI.pwBtn_onclick oldPw newPw newPw2 w) with
  | Ok (UI.toast _) => True
  | _ => snd (UI.pwBtn_onclick oldPw newPw newPw2 w) = w
  end.
Proof.
  destruct (UI.pwBtn_onclick oldPw newPw newPw2 w) as [r w'] eqn:E. cbn [fst snd].
  revert E. unfold UI.pwBtn_onclick.
  destruct (negb (bool_decide (newPw = newPw2))); [by intros [= <- <-]|].
  destruct (length newPw <? 8)%nat; [by intros [= <- <-]|].
  unfold bind at 1. rewrite loadLocal_spec.
  destruct (match localStorage w !! Storage.VAULT_KEY with Some (c :: r) => _ | _ => _ end)
    as [[payload|]|ex]; try (by intros [= <- <-]).
  destruct (verify payload oldPw) eqn:Hver; cbn [negb]; [|by intros [= <- <-]].
  unfold verify in Hver. destruct (decrypt payload oldPw) as [json|] eqn:Hdec; [|done].
  unfold bind at 1. unfold lift at 1.
  destruct (Crypto_encrypt_spec json newPw w (decrypt_code_units _ _ _ Hdec))
    as (env & Henc & _).
  unfold bind at 1. rewrite Henc.
  unfold bind at 1.
  match goal with |- context [Storage.save env ?w2] =>
    pose proof (save_ok env w2) as Hok; destruct (Storage.save env w2) as [r3 w3]
  end. cbn [fst] in Hok. subst r3. by intros [= <- <-].
Qed.

End ScreenExtras.

(** ** Scenarios for the further properties

    Each property that has a precondition, run on a concrete world. *)

Lemma fresh_world_locked_clean : locked_clean fresh_world.
Proof. intros _. repeat split. Qed.

Lemma locked_means_clean_witness :
  locked_clean
    (@handle_all toy_crypto toy_json
       [Unlock (js "hunter2duck"); Call (App.CreateTable (js "Logins")); Lock; Activity;
        Call (App.AddRow (js "Logins")); Unlock (js "hunter3duck!")]
       fresh_world).
Proof.
  apply (@locked_means_clean toy_crypto toy_json). exact fresh_world_locked_clean.
Defined.



Lemma has_columns_unlocked_user : has_columns unlocked_user.
Proof.
  unfold has_columns. change (vault (state unlocked_user)) with (Some App.emptyVault).
  intros name t H. cbn in H. rewrite lookup_empty in H. discriminate H.
Qed.

Lemma tables_keep_a_column_witness :
  has_columns
    (@App.call_all toy_crypto toy_json
       [App.CreateTable (js "Logins");
        App.DeleteColumn (js "Logins") 0;
        App.ImportCSV (js "Sites") ragged_csv;
        App.DeleteColumn (js "Sites") 1;
        App.DeleteColumn (js "Sites") 0]
       unlocked_user).
Proof.
  apply (@tables_keep_a_column toy_crypto toy_json). exact has_columns_unlocked_user.
Defined.




Lemma logins_table_own : tables logins_vault !! js "Logins" = Some (STable logins_table).
Proof. vm_compute. reflexivity. Qed.

Lemma deleteColumn_undoes_addColumn_witness :
  vault_of
    (snd (@App.deleteColumn toy_crypto toy_json (js "Logins")
            (Z.of_nat (length (columns logins_table)))
            (snd (@App.addColumn toy_crypto toy_json (js "Logins") (js "user") logins)))) =
  Some logins_vault.
Proof.
  apply (@deleteColumn_undoes_addColumn toy_crypto toy_json (js "Logins") (js "user") logins
           logins_vault logins_table).
  - exact logins_has_table.
  - exact logins_table_own.
  - discriminate.
  - repeat constructor.
Defined.

Lemma deleteRow_undoes_addRow_witness :
  fst (App.getTable (js "Logins") (snd (@App.addRow toy_crypto toy_json (js "Logins") logins))) =
    Ok (Some (STable (mkTable (columns logins_table)
      (rows logins_table ++ [replicate (length (columns logins_table)) (Str [])])))) /\
  vault_of (snd (@App.deleteRow toy_crypto toy_json (js "Logins")
                   (Z.of_nat (length (rows logins_table)))
                   (snd (@App.addRow toy_crypto toy_json (js "Logins") logins)))) =
    Some logins_vault /\
  vault_of (snd (@App.deleteRow toy_crypto toy_json (js "Logins") (-1)
                   (snd (@App.addRow toy_crypto toy_json (js "Logins") logins)))) =
    Some logins_vault.
Proof.
  apply (@deleteRow_undoes_addRow toy_crypto toy_json (js "Logins") logins logins_vault
           logins_table).
  - exact logins_has_table.
  - exact logins_table_own.
Defined.

Lemma deleteRow_index_witness :
  let after i := vault_of (snd (@App.deleteRow toy_crypto toy_json (js "Logins") i logins)) in
  after (Z.of_nat 0) =
    Some (set_tables
      <[js "Logins" := STable (mkTable (columns logins_table) (delete 0%nat (rows logins_table)))]>
      logins_vault) /\
  after (Z.of_nat (length (rows logins_table)) + Z.of_nat 0) = Some logins_vault /\
  after (- Z.of_nat 1) = after (Z.max (Z.of_nat (length (rows logins_table)) - Z.of_nat 1) 0).
Proof.
  apply (@deleteRow_index toy_crypto toy_json (js "Logins") 0%nat logins logins_vault
           logins_table).
  - exact logins_has_table.
  - exact logins_table_own.
Defined.


Lemma importCSV_blank_witness :
  @App.importCSV toy_crypto toy_json (js "Logins") [0x20; 0x0A; 0x09; 0x0D; 0x0A] fresh_world =
  (Ok false, fresh_world).
Proof.
  apply (@importCSV_blank toy_crypto toy_json). repeat constructor.
Defined.






Lemma form_lets_in_only_stored_witness :
  let submit := @Login.form_onsubmit toy_crypto toy_json true (js "hunter2duck")
                  (js "hunter2duck") fresh_world in
  nonempty (js "hunter2duck") = true /\
  ((8 <= length (js "hunter2duck"))%nat /\ js "hunter2duck" = js "hunter2duck") /\
  locked (state (snd submit)) = false /\
  password (state (snd submit)) = Some (js "hunter2duck") /\
  exists env,
    fst (@Storage.loadLocal toy_json (snd submit)) = Ok (Some env) /\
    @verify toy_crypto env (js "hunter2duck") = true.
Proof.
  apply (@form_lets_in_only_stored toy_crypto toy_json true (js "hunter2duck")
           (js "hunter2duck") fresh_world).
  vm_compute. reflexivity.
Defined.

(** A configuration written by setConfig and read back, in the model
    of the configuration's JSON. *)
Example setConfig_then_isConfigured :
  fst (@GitHub.isConfigured settings_json
         (snd (@GitHub.setConfig settings_json settings_config
                 (js "me") (js "vault") (js "t0ken") fresh_world))) = Ok true /\
  fst (@GitHub.isConfigured settings_json
         (snd (@GitHub.setConfig settings_json settings_config
                 (js "me") [] (js "t0ken") fresh_world))) = Ok false.
Proof. split; vm_compute; reflexivity. Qed.
